(** * Broadcast benchmark (bcast_skeleton.c): model and verification

    The program is an MPI benchmark: rank 0 fills a buffer of [NUM_BYTES]
    bytes, one of six broadcast implementations copies it to every other
    rank, the ranks send back a checksum, and rank 0 prints a timing line.

    C [int] values are modelled as [Z].  [ChunksFacts.chunk_plan_in_int_range]
    shows that the loop arithmetic stays inside [0, NUM_BYTES] for positive
    chunk sizes, so that no wrap-around has to be written out there; the
    checksum, which can wrap, is folded with [wrap32].  A number on the
    command line is read as its value, and what is proved about it is proved
    for the numbers that an [int] holds.

    A second program of the repository, 1D_parallel_julia.c, is modelled in
    the module [Julia].

    The file has three parts: the model of the programs, module by module;
    the facts proved about them; the properties of the specification and
    further properties of the code. *)

From Stdlib Require Import ZArith List Lia Bool.
From Stdlib Require String Ascii FinFun DecimalString DecimalPos DecimalZ Permutation.
Import ListNotations.
Open Scope Z_scope.

(** ** Constants of the source *)
Definition RAND_SEED : Z := 842270.

Definition NUM_BYTES : Z := 100000000.

Definition INT_MAX : Z := 2147483647.

Definition INT_MIN : Z := -2147483648.

(** Two's complement reduction of a mathematical integer to a C [int]. *)
Definition wrap32 (x : Z) : Z := (x + 2147483648) mod 4294967296 - 2147483648.

(** * The chunk loop

    All five chunked loops of the source share one header:
<<
      for (j=0; j<NUM_BYTES; j+=chunk_size) {
         if (j > NUM_BYTES-chunk_size) chunk_size = NUM_BYTES%chunk_size;
         ... buffer+j, chunk_size ...
      }
>>
    [chunk_loop] runs that header and records the pair [(j, chunk_size)] seen
    by each body, together with the value left in the variable [chunk_size]
    when the loop exits.  The loop does not terminate for every input
    ([chunk_size = 0] never advances [j]), hence the fuel: one unit per
    iteration, [None] when it runs out.

    The arithmetic is that of [Z].  It is the arithmetic of the C [int]s for
    a chunk size of at least 1 ([ChunksFacts.chunk_plan_in_int_range]) and
    for a chunk size of 0, where [j] and [NUM_BYTES-chunk_size] do not move.
    For a negative chunk size [NUM_BYTES-chunk_size] or [j+chunk_size] ends
    up outside the range of [int], where C defines no result: nothing is
    claimed about the program there. *)
Module Chunks.

Definition chunk : Type := (Z * Z)%type.  (* offset, length *)

Fixpoint chunk_loop (total : Z) (fuel : nat) (j chunk_size : Z)
  : option (list chunk * Z) :=
  if j <? total then
    match fuel with
    | O => None
    | S fuel' =>
        let chunk_size' :=
          if j >? total - chunk_size then Z.rem total chunk_size
          else chunk_size in
        match chunk_loop total fuel' (j + chunk_size') chunk_size' with
        | Some (plan, final) => Some ((j, chunk_size') :: plan, final)
        | None => None
        end
    end
  else Some ([], chunk_size).

(** The loop started at [j = 0], with as much fuel as there are bytes. *)
Definition chunk_plan (total chunk_size : Z) : option (list chunk * Z) :=
  chunk_loop total (Z.to_nat total) 0 chunk_size.

(** [tiles a plan b]: the chunks of [plan] lie end to end from [a] to [b]. *)
Fixpoint tiles (a : Z) (plan : list chunk) (b : Z) : Prop :=
  match plan with
  | [] => a = b
  | (off, len) :: rest => off = a /\ tiles (a + len) rest b
  end.

Definition sum_lengths (plan : list chunk) : Z :=
  fold_right (fun c acc => snd c + acc) 0 plan.

Definition offsets (plan : list chunk) : list Z := map fst plan.

(** Offsets strictly increasing from one chunk to the next. *)
Fixpoint increasing (l : list Z) : Prop :=
  match l with
  | [] => True
  | x :: r => match r with [] => True | y :: _ => x < y end /\ increasing r
  end.

(** What one chunk of a plan for [(total, cs)] looks like at position [k]. *)
Definition chunk_at (total cs : Z) (k : nat) (c : chunk) : Prop :=
  fst c = Z.of_nat k * cs /\
  snd c = (if fst c >? total - cs then total mod cs else cs) /\
  0 < snd c /\ fst c + snd c <= total.

End Chunks.

(** * The binary tree of ranks

    The tree broadcast addresses its neighbours with C [int] arithmetic:
    [(rank-1)/2] for the parent (the quotient truncates towards zero),
    [rank*2+1] and [rank*2+2] for the children. *)
Module Tree.

Definition parent (rank : Z) : Z := Z.quot (rank - 1) 2.

Definition left_child (rank : Z) : Z := rank * 2 + 1.

Definition right_child (rank : Z) : Z := rank * 2 + 2.

(** [c] is a rank that [r] sends to: the guards of lines 211 and 214. *)
Definition is_child (num_procs r c : Z) : Prop :=
  (c = left_child r \/ c = right_child r) /\ c < num_procs.

(** The number of sends a chunk goes through on its way from rank 0 to
    [rank]: the ranks met by following [(rank-1)/2] up to the root.  The
    fuel bounds the walk; [None] when it runs out. *)
Fixpoint hops (fuel : nat) (rank : Z) : option nat :=
  if rank <=? 0 then Some 0%nat
  else match fuel with
       | O => None
       | S fuel' => option_map S (hops fuel' (parent rank))
       end.

End Tree.

(** * The broadcast phase (lines 151-221)

    The control flow of the phase does not depend on the data received, so
    the statements a rank executes are a function of the implementation
    name, its rank, the number of processes, the buffer size and the chunk
    size.  [bcast_ops] lists them, branch by branch, as MPI operations on
    [buffer + off] with [count] bytes. *)
Module Bcast.

Import Chunks.

Inductive impl : Type :=
| default_bcast
| naive_bcast
| ring_bcast
| pipelined_ring_bcast
| asynchronous_pipelined_ring_bcast
| asynchronous_pipelined_bintree_bcast.

Definition all_impls : list impl :=
  [default_bcast; naive_bcast; ring_bcast; pipelined_ring_bcast;
   asynchronous_pipelined_ring_bcast; asynchronous_pipelined_bintree_bcast].

Inductive op : Type :=
| Bcast (count : Z)                      (* MPI_Bcast(buffer, count, .., 0, ..) *)
| Send (off count dest : Z)              (* MPI_Send(buffer+off, count, .., dest, ..) *)
| Recv (off count src : Z)               (* MPI_Recv(buffer+off, count, .., src, ..) *)
| Isend (off count dest : Z) (slot : nat) (* MPI_Isend(.., &request[slot]) *)
| Wait (slot : nat)                      (* MPI_Wait(&request[slot], ..) *)
| Waitall (count : nat).                 (* MPI_Waitall(count, request, ..) *)

(** The integers [lo, lo+1, .., hi-1] of a [for (j = lo; j < hi; j++)]. *)
Definition zrange (lo hi : Z) : list Z :=
  map (fun i => lo + Z.of_nat i) (seq 0 (Z.to_nat (hi - lo))).

Section Ops.

Variables (rank num_procs total : Z).

Definition naive_ops : list op :=
  if 0 =? rank then map (fun j => Send 0 total j) (zrange 1 num_procs)
  else [Recv 0 total 0].

Definition ring_ops : list op :=
  if 0 =? rank then [Send 0 total (rank + 1)]
  else Recv 0 total (rank - 1) ::
       (if negb (rank =? num_procs - 1) then [Send 0 total (rank + 1)] else []).

Definition pipelined_ring_body (c : chunk) : list op :=
  let (j, chunk_size) := c in
  if 0 =? rank then [Send j chunk_size (rank + 1)]
  else Recv j chunk_size (rank - 1) ::
       (if negb (rank =? num_procs - 1) then [Send j chunk_size (rank + 1)]
        else []).

Definition asynchronous_ring_body (c : chunk) : list op :=
  let (j, chunk_size) := c in
  if 0 =? rank then [Isend j chunk_size (rank + 1) 0]
  else Recv j chunk_size (rank - 1) ::
       (if negb (rank =? num_procs - 1) then [Isend j chunk_size (rank + 1) 0]
        else []).

(** The [MPI_Wait] of line 202 sits in the [else] branch: rank 0 skips it. *)
Definition asynchronous_ring_tail : list op :=
  if 0 =? rank then [] else [Wait 0].

Definition bintree_body (c : chunk) : list op :=
  let (j, chunk_size) := c in
  (if negb (rank =? 0) then [Recv j chunk_size (Tree.parent rank)] else []) ++
  (if Tree.left_child rank <? num_procs
   then [Isend j chunk_size (Tree.left_child rank) 0] else []) ++
  (if Tree.right_child rank <? num_procs
   then [Isend j chunk_size (Tree.right_child rank) 1] else []).

(** The statements of one rank, and the value its variable [chunk_size]
    holds when the phase is over.  [None]: a chunked loop that does not
    terminate. *)
Definition bcast_ops (name : impl) (chunk_size : Z) : option (list op * Z) :=
  match name with
  | default_bcast => Some ([Bcast total], chunk_size)
  | naive_bcast => Some (naive_ops, chunk_size)
  | ring_bcast => Some (ring_ops, chunk_size)
  | pipelined_ring_bcast =>
      match chunk_plan total chunk_size with
      | Some (plan, final) => Some (flat_map pipelined_ring_body plan, final)
      | None => None
      end
  | asynchronous_pipelined_ring_bcast =>
      match chunk_plan total chunk_size with
      | Some (plan, final) =>
          Some (flat_map asynchronous_ring_body plan ++ asynchronous_ring_tail,
                final)
      | None => None
      end
  | asynchronous_pipelined_bintree_bcast =>
      match chunk_plan total chunk_size with
      | Some (plan, final) =>
          Some (flat_map bintree_body plan ++ [Waitall 2], final)
      | None => None
      end
  end.

End Ops.

(** ** The process group

    Each rank owns its buffer, the statements it has yet to execute and its
    [MPI_Request] variables.  Messages in flight are kept in one list, in the
    order they were sent; a receive from [src] takes the oldest message that
    [src] addressed to the receiver (MPI's non-overtaking rule; every call of
    the phase uses tag 1 on MPI_COMM_WORLD).

    A send completes locally: it hands its bytes to the network and returns.
    A run in which a send waits for its receive is the run of this model in
    which the receiver's step comes right after the sender's. *)

(** The contents of an [MPI_Request] variable.  The declarations of lines
    188 and 205 do not initialise theirs: the value a rank finds there before
    its first [MPI_Isend] is an input of the model, [ReqNull] (waiting on
    MPI_REQUEST_NULL returns at once) or [ReqInvalid] (no request at all). *)
Inductive request : Type :=
| ReqNull
| ReqInvalid
| ReqActive (handle : nat).

Inductive mpi_error : Type :=
| ErrRank      (* destination or source outside the group *)
| ErrCount     (* negative count *)
| ErrTruncate  (* message longer than the receive count *)
| ErrRequest.  (* wait on something that is not a request *)

Record proc : Type := mkProc {
  ops : list op;             (* statements left to execute *)
  buffer : list Z;           (* char *buffer, NUM_BYTES of them *)
  requests : nat -> request; (* MPI_Request request[..] *)
  issued : nat;              (* number of MPI_Isend calls so far *)
  pending : list nat         (* handles of sends not yet waited on *)
}.

Record msg : Type := mkMsg {
  m_src : Z;
  m_dst : Z;
  m_data : list Z
}.

Record world : Type := mkWorld {
  procs : Z -> proc;
  net : list msg;              (* point-to-point messages in flight *)
  coll : option (list Z)       (* what the root handed to MPI_Bcast *)
}.

Inductive outcome : Type :=
| Next (w : world)
| Blocked
| Finished
| Fault (e : mpi_error).

Definition slice (off count : Z) (b : list Z) : list Z :=
  firstn (Z.to_nat count) (skipn (Z.to_nat off) b).

Definition write (off : Z) (data b : list Z) : list Z :=
  firstn (Z.to_nat off) b ++ data ++
  skipn (Z.to_nat off + length data) b.

Definition addressed (src dst : Z) (m : msg) : bool :=
  (m_src m =? src) && (m_dst m =? dst).

(** The oldest message from [src] to [dst], and the network without it. *)
Fixpoint take_first (src dst : Z) (l : list msg) : option (list Z * list msg) :=
  match l with
  | [] => None
  | m :: rest =>
      if addressed src dst m then Some (m_data m, rest)
      else match take_first src dst rest with
           | Some (d, rest') => Some (d, m :: rest')
           | None => None
           end
  end.

Definition set_proc (r : Z) (p : proc) (f : Z -> proc) : Z -> proc :=
  fun x => if x =? r then p else f x.

Definition set_request (slot : nat) (q : request) (f : nat -> request)
  : nat -> request :=
  fun x => if Nat.eqb x slot then q else f x.

Definition in_group (num_procs r : Z) : bool :=
  (0 <=? r) && (r <? num_procs).

Fixpoint remove_handle (h : nat) (l : list nat) : list nat :=
  match l with
  | [] => []
  | x :: rest => if Nat.eqb x h then rest else x :: remove_handle h rest
  end.

(** Completion of the request in [slot]: the variable becomes
    MPI_REQUEST_NULL and its handle is no longer pending. *)
Definition wait_slot (slot : nat) (p : proc) : option proc :=
  match requests p slot with
  | ReqNull => Some p
  | ReqInvalid => None
  | ReqActive h =>
      Some (mkProc (ops p) (buffer p) (set_request slot ReqNull (requests p))
                   (issued p) (remove_handle h (pending p)))
  end.

Fixpoint wait_slots (slots : list nat) (p : proc) : option proc :=
  match slots with
  | [] => Some p
  | s :: rest =>
      match wait_slot s p with
      | Some p' => wait_slots rest p'
      | None => None
      end
  end.

Definition with_ops (rest : list op) (p : proc) : proc :=
  mkProc rest (buffer p) (requests p) (issued p) (pending p).

Definition with_buffer (b : list Z) (p : proc) : proc :=
  mkProc (ops p) b (requests p) (issued p) (pending p).

Definition with_isend (slot : nat) (p : proc) : proc :=
  mkProc (ops p) (buffer p)
         (set_request slot (ReqActive (issued p)) (requests p))
         (S (issued p)) (issued p :: pending p).

(** One statement of rank [r]. *)
Definition step (num_procs r : Z) (w : world) : outcome :=
  let p := procs w r in
  match ops p with
  | [] => Finished
  | Bcast count :: rest =>
      if r =? 0 then
        Next (mkWorld (set_proc r (with_ops rest p) (procs w)) (net w)
                      (Some (slice 0 count (buffer p))))
      else
        match coll w with
        | None => Blocked
        | Some d =>
            Next (mkWorld
                    (set_proc r (with_buffer (write 0 d (buffer p))
                                             (with_ops rest p)) (procs w))
                    (net w) (coll w))
        end
  | Send off count dest :: rest =>
      if count <? 0 then Fault ErrCount
      else if negb (in_group num_procs dest) then Fault ErrRank
      else
        Next (mkWorld (set_proc r (with_ops rest p) (procs w))
                      (net w ++ [mkMsg r dest (slice off count (buffer p))])
                      (coll w))
  | Isend off count dest slot :: rest =>
      if count <? 0 then Fault ErrCount
      else if negb (in_group num_procs dest) then Fault ErrRank
      else
        Next (mkWorld (set_proc r (with_isend slot (with_ops rest p)) (procs w))
                      (net w ++ [mkMsg r dest (slice off count (buffer p))])
                      (coll w))
  | Recv off count src :: rest =>
      if count <? 0 then Fault ErrCount
      else if negb (in_group num_procs src) then Fault ErrRank
      else
        match take_first src r (net w) with
        | None => Blocked
        | Some (d, net') =>
            if count <? Z.of_nat (length d) then Fault ErrTruncate
            else
              Next (mkWorld
                      (set_proc r (with_buffer (write off d (buffer p))
                                               (with_ops rest p)) (procs w))
                      net' (coll w))
        end
  | Wait slot :: rest =>
      match wait_slot slot (with_ops rest p) with
      | Some p' => Next (mkWorld (set_proc r p' (procs w)) (net w) (coll w))
      | None => Fault ErrRequest
      end
  | Waitall count :: rest =>
      match wait_slots (seq 0 count) (with_ops rest p) with
      | Some p' => Next (mkWorld (set_proc r p' (procs w)) (net w) (coll w))
      | None => Fault ErrRequest
      end
  end.

(** A schedule names the rank that moves at each step; a schedule that names
    a rank which cannot move is not a run. *)
Fixpoint run (num_procs : Z) (sched : list Z) (w : world) : option world :=
  match sched with
  | [] => Some w
  | r :: rest =>
      if in_group num_procs r then
        match step num_procs r w with
        | Next w' => run num_procs rest w'
        | _ => None
        end
      else None
  end.

Definition finished (p : proc) : bool :=
  match ops p with [] => true | _ => false end.

Definition all_done (num_procs : Z) (w : world) : bool :=
  forallb (fun r => finished (procs w r)) (zrange 0 num_procs).

(** The group at the barrier of line 131: rank 0 holds the data it filled
    in, the others whatever [malloc] gave them ([garbage]); every request
    variable holds [junk]. *)
Definition start (progs : Z -> list op) (data : list Z)
           (garbage : Z -> list Z) (junk : request) : world :=
  mkWorld (fun r => mkProc (progs r)
                           (if r =? 0 then data else garbage r)
                           (fun _ => junk) 0%nat [])
          [] None.

(** The statements of every rank of the group, when every loop terminates. *)
Definition programs (name : impl) (num_procs total chunk_size : Z)
  : option (Z -> list op) :=
  if forallb (fun r => match bcast_ops r num_procs total name chunk_size with
                       | Some _ => true | None => false end)
             (zrange 0 num_procs)
  then Some (fun r => match bcast_ops r num_procs total name chunk_size with
                      | Some (l, _) => l | None => [] end)
  else None.

(** ** What the ranks still owe each other

    [sends_to d l] and [recvs_from s l] are the chunks that the statements
    [l] will send to [d] and receive from [s], in program order. *)
Definition sends_of_op (d : Z) (o : op) : list chunk :=
  match o with
  | Send off count dest => if dest =? d then [(off, count)] else []
  | Isend off count dest _ => if dest =? d then [(off, count)] else []
  | _ => []
  end.

Definition recvs_of_op (s : Z) (o : op) : list chunk :=
  match o with
  | Recv off count src => if src =? s then [(off, count)] else []
  | _ => []
  end.

Definition sends_to (d : Z) (l : list op) : list chunk :=
  flat_map (sends_of_op d) l.

Definition recvs_from (s : Z) (l : list op) : list chunk :=
  flat_map (recvs_of_op s) l.

(** The payloads in flight from [s] to [d], oldest first. *)
Definition msgs (s d : Z) (l : list msg) : list (list Z) :=
  map m_data (filter (addressed s d) l).

Definition is_recv (o : op) : bool :=
  match o with Recv _ _ _ => true | _ => false end.

Definition is_isend (o : op) : bool :=
  match o with Isend _ _ _ _ => true | _ => false end.

Definition is_wait (o : op) : bool :=
  match o with Wait _ | Waitall _ => true | _ => false end.

Definition is_send (o : op) : bool :=
  match o with Send _ _ _ | Isend _ _ _ _ => true | _ => false end.

Section Invariant.

Variables (num_procs : Z) (data : list Z).

Definition total_of : Z := Z.of_nat (length data).

(** The first [v] bytes of [b] are those of the root's data. *)
Definition agrees (v : Z) (b : list Z) : Prop :=
  firstn (Z.to_nat v) b = firstn (Z.to_nat v) data.

(** [ops_ok r v l]: a rank whose buffer is right up to [v] can execute [l]
    and ends with a buffer that is right throughout: receives extend the
    valid prefix, sends read inside it. *)
Fixpoint ops_ok (r v : Z) (l : list op) : Prop :=
  match l with
  | [] => v = total_of
  | Bcast count :: rest =>
      count = total_of /\ (r = 0 -> v = total_of) /\ ops_ok r total_of rest
  | Send off count _ :: rest =>
      0 <= off /\ 0 <= count /\ off + count <= v /\ ops_ok r v rest
  | Isend off count _ _ :: rest =>
      0 <= off /\ 0 <= count /\ off + count <= v /\ ops_ok r v rest
  | Recv off count _ :: rest =>
      off = v /\ 0 <= count /\ v + count <= total_of /\
      ops_ok r (v + count) rest
  | Wait _ :: rest => ops_ok r v rest
  | Waitall _ :: rest => ops_ok r v rest
  end.

Definition slice_of (c : chunk) : list Z := slice (fst c) (snd c) data.

Definition local_inv (r : Z) (p : proc) : Prop :=
  length (buffer p) = length data /\
  exists v, 0 <= v <= total_of /\ agrees v (buffer p) /\ ops_ok r v (ops p).

Definition matched (w : world) (s d : Z) : Prop :=
  map slice_of (recvs_from s (ops (procs w d))) =
  msgs s d (net w) ++ map slice_of (sends_to d (ops (procs w s))).

Definition inv (w : world) : Prop :=
  (forall r, in_group num_procs r = true -> local_inv r (procs w r)) /\
  (forall s d, in_group num_procs s = true -> in_group num_procs d = true ->
               matched w s d) /\
  (coll w = None \/ coll w = Some data).

End Invariant.

(** ** The statements of each rank satisfy [ops_ok] *)
Definition send_within (v : Z) (o : op) : Prop :=
  match o with
  | Send off count _ => 0 <= off /\ 0 <= count /\ off + count <= v
  | Isend off count _ _ => 0 <= off /\ 0 <= count /\ off + count <= v
  | _ => False
  end.

(** The body of a chunked loop: an optional receive of the chunk, then
    sends of the same chunk. *)
Definition chunk_body (r : Z) (body : chunk -> list op) : Prop :=
  forall c, exists src sends,
    body c = (if r =? 0 then [] else [Recv (fst c) (snd c) src]) ++ sends /\
    forall v, 0 <= fst c -> 0 <= snd c -> fst c + snd c <= v ->
              Forall (send_within v) sends.

(** The valid prefix a rank starts with: everything at the root, nothing
    elsewhere. *)
Definition valid0 (data : list Z) (r : Z) : Z :=
  if r =? 0 then total_of data else 0.

(** ** Who sends to whom

    For each implementation, the ranks a rank sends to and the rank it
    receives from, as the guards of the source decide them, and what travels
    on such a link. *)
Definition sends_link (name : impl) (s num_procs d : Z) : bool :=
  match name with
  | default_bcast => false
  | naive_bcast => (0 =? s) && (1 <=? d) && (d <? num_procs)
  | ring_bcast | pipelined_ring_bcast | asynchronous_pipelined_ring_bcast =>
      ((0 =? s) || negb (s =? num_procs - 1)) && (s + 1 =? d)
  | asynchronous_pipelined_bintree_bcast =>
      ((Tree.left_child s <? num_procs) && (Tree.left_child s =? d)) ||
      ((Tree.right_child s <? num_procs) && (Tree.right_child s =? d))
  end.

Definition recvs_link (name : impl) (s d : Z) : bool :=
  match name with
  | default_bcast => false
  | naive_bcast => negb (0 =? d) && (0 =? s)
  | ring_bcast | pipelined_ring_bcast | asynchronous_pipelined_ring_bcast =>
      negb (0 =? d) && (d - 1 =? s)
  | asynchronous_pipelined_bintree_bcast =>
      negb (d =? 0) && (Tree.parent d =? s)
  end.

Definition payload (name : impl) (total chunk_size : Z) : option (list chunk) :=
  match name with
  | default_bcast => Some []
  | naive_bcast | ring_bcast => Some [(0, total)]
  | _ => option_map fst (chunk_plan total chunk_size)
  end.

(** ** Runs that complete

    The ranks a rank receives from are always lower than itself, so the
    schedule that lets rank 0 execute all of its statements, then rank 1,
    and so on, is a run, provided no statement is in error: the request
    variables must not hold an invalid handle when they are waited on, and
    every destination must be in the group. *)
Definition runnable (num_procs k : Z) (o : op) : Prop :=
  match o with
  | Send _ count dest => 0 <= count /\ in_group num_procs dest = true
  | Isend _ count dest _ => 0 <= count /\ in_group num_procs dest = true
  | Recv _ count src => 0 <= count /\ in_group num_procs src = true /\ src < k
  | _ => True
  end.

Definition valid_requests (p : proc) : Prop :=
  forall slot, requests p slot <> ReqInvalid.

Definition has_bcast (l : list op) : Prop := exists c, In (Bcast c) l.

(** The implementations whose root addresses rank 1 without a guard need a
    rank 1. *)
Definition defined_for (name : impl) (num_procs : Z) : bool :=
  match name with
  | ring_bcast | pipelined_ring_bcast | asynchronous_pipelined_ring_bcast =>
      2 <=? num_procs
  | _ => true
  end.

Definition canonical_schedule (progs : Z -> list op) (num_procs : Z) : list Z :=
  flat_map (fun r => repeat r (length (progs r))) (zrange 0 num_procs).

(** ** Sent regions are never written again

    [MPI_Isend] may read its bytes at any time until the request completes;
    [step] lets it read them at once.  The two agree because a rank never
    receives into a region it has sent: every later receive of the same rank
    lies beyond it. *)
Definition recv_beyond (bound : Z) (o : op) : Prop :=
  match o with
  | Recv off _ _ => bound <= off
  | _ => True
  end.

Definition sent_region (o : op) : option chunk :=
  match o with
  | Send off count _ => Some (off, count)
  | Isend off count _ _ => Some (off, count)
  | _ => None
  end.


(** The statements the whole group has yet to execute. *)
Definition remaining (num_procs : Z) (w : world) : nat :=
  list_sum (map (fun r => length (ops (procs w r))) (zrange 0 num_procs)).

(** What a run needs of a state to go on without an MPI error: statements
    that address ranks of the group, request variables that hold no invalid
    handle, and a root that has yet to call MPI_Bcast while others wait for
    it. *)
Definition ready (num_procs : Z) (w : world) : Prop :=
  (forall r, in_group num_procs r = true ->
             Forall (runnable num_procs r) (ops (procs w r)) /\
             valid_requests (procs w r)) /\
  (coll w = None ->
   forall r, in_group num_procs r = true ->
             has_bcast (ops (procs w r)) -> has_bcast (ops (procs w 0))).

Definition in_flight_ok (num_procs : Z) (m : msg) : Prop :=
  in_group num_procs (m_src m) = true /\ in_group num_procs (m_dst m) = true.

End Bcast.

(** * Command line (lines 64-103)

    [program_abort] prints its message on rank 0, with the usage text when it
    is given the program name, and ends the whole group. *)
Module Config.

Import String Ascii.

Local Open Scope string_scope.

Definition nl : string := String "010"%char EmptyString.

Inductive result : Type :=
| Abort (usage : bool) (message : string)   (* program_abort(argv[0] or NULL, message) *)
| Run (name : Bcast.impl) (chunk_size : Z).

Definition implementation_of (s : string) : option Bcast.impl :=
  if s =? "naive_bcast" then Some Bcast.naive_bcast
  else if s =? "default_bcast" then Some Bcast.default_bcast
  else if s =? "ring_bcast" then Some Bcast.ring_bcast
  else if s =? "pipelined_ring_bcast" then Some Bcast.pipelined_ring_bcast
  else if s =? "asynchronous_pipelined_ring_bcast"
       then Some Bcast.asynchronous_pipelined_ring_bcast
  else if s =? "asynchronous_pipelined_bintree_bcast"
       then Some Bcast.asynchronous_pipelined_bintree_bcast
  else None.

Definition name_of (i : Bcast.impl) : string :=
  match i with
  | Bcast.default_bcast => "default_bcast"
  | Bcast.naive_bcast => "naive_bcast"
  | Bcast.ring_bcast => "ring_bcast"
  | Bcast.pipelined_ring_bcast => "pipelined_ring_bcast"
  | Bcast.asynchronous_pipelined_ring_bcast => "asynchronous_pipelined_ring_bcast"
  | Bcast.asynchronous_pipelined_bintree_bcast =>
      "asynchronous_pipelined_bintree_bcast"
  end.

(** ** [sscanf(s, "%d", &chunk_size)]

    The conversion skips white space, takes an optional sign and then the
    longest run of decimal digits, at least one; what follows is left
    unread.  [None] stands for a return value other than 1; [Some z] gives
    the value [z] of the numeral.  The program stores it in [int
    chunk_size]: C defines the conversion only when an [int] holds [z]
    ([fits_int] below), and nothing is claimed about the program for a
    numeral outside that range. *)
Definition is_space (c : ascii) : bool :=
  let n := nat_of_ascii c in
  Nat.eqb n 32 || (Nat.leb 9 n && Nat.leb n 13).

Definition digit_of (c : ascii) : option Z :=
  let n := nat_of_ascii c in
  if Nat.leb 48 n && Nat.leb n 57 then Some (Z.of_nat (n - 48)) else None.

Fixpoint skip_spaces (s : string) : string :=
  match s with
  | String c rest => if is_space c then skip_spaces rest else s
  | EmptyString => s
  end.

(** The digits at the head of [s], accumulated onto [acc]. *)
Fixpoint scan_digits (s : string) (acc : Z) : Z :=
  match s with
  | String c rest =>
      match digit_of c with
      | Some d => scan_digits rest (10 * acc + d)
      | None => acc
      end
  | EmptyString => acc
  end.

Definition starts_with_digit (s : string) : bool :=
  match s with
  | String c _ => match digit_of c with Some _ => true | None => false end
  | EmptyString => false
  end.

Definition scan_unsigned (s : string) : option Z :=
  if starts_with_digit s then Some (scan_digits s 0) else None.

Definition sscanf_d (s : string) : option Z :=
  match skip_spaces s with
  | String "-"%char rest => option_map Z.opp (scan_unsigned rest)
  | String "+"%char rest => scan_unsigned rest
  | s' => scan_unsigned s'
  end.

(** [chunk_size] is an [int] (line 67): the values it can hold. *)
Definition fits_int (z : Z) : bool := ((INT_MIN <=? z) && (z <=? INT_MAX))%Z.

(** An argument that line 99 can convert: the number read from it, if there
    is one, fits [chunk_size]. *)
Definition storable (v : string) : bool :=
  match sscanf_d v with
  | Some z => fits_int z
  | None => true
  end.

(** ** The [-c] loop of lines 97-103

    [args] is [argv[i..]]; the test [i+1 >= argc] is [rest = []]. *)
Fixpoint scan_chunk_size (args : list string) (chunk_size : Z) : option Z :=
  match args with
  | [] => Some chunk_size
  | a :: rest =>
      if a =? "-c" then
        match rest with
        | [] => None
        | v :: _ =>
            match sscanf_d v with
            | None => None
            | Some z => scan_chunk_size rest z
            end
        end
      else scan_chunk_size rest chunk_size
  end.

Definition missing_name : string :=
  "Missing <bcast implementation name> argument" ++ nl.

Definition unknown_name (s : string) : string :=
  "Unknown bcast implementation name '" ++ s ++ "'" ++ nl.

Definition invalid_chunk_size : string :=
  "Invalid <chunk size> argument" ++ nl.

(** [total] is the macro NUM_BYTES, the initial value of [chunk_size]. *)
Definition parse_args (total : Z) (argv : list string) : result :=
  match argv with
  | _ :: name :: _ =>
      match implementation_of name with
      | None => Abort false (unknown_name name)
      | Some i =>
          match scan_chunk_size (tl argv) total with
          | None => Abort true invalid_chunk_size
          | Some chunk_size => Run i chunk_size
          end
      end
  | _ => Abort true missing_name
  end.

(** The test of line 98: the argument is the option [-c]. *)
Definition is_option (a : string) : bool := a =? "-c".

End Config.

(** * Checksums and report (lines 119-127 and 227-257) *)
Module Harness.

Import String Ascii.

(** [(char) x] on a machine whose [char] is signed. *)
Definition to_char (x : Z) : Z := (x + 128) mod 256 - 128.

(** Lines 123-126: the root's buffer from the values [random()] returns. *)
Definition fill (randoms : list Z) : list Z :=
  map (fun x => to_char (Z.rem x 256)) randoms.

(** [checksum += buffer[j]] over a whole buffer, in [int] arithmetic. *)
Definition checksum_of (buffer : list Z) : Z :=
  fold_left (fun checksum b => wrap32 (checksum + b)) buffer 0.

Definition mismatch_message : string :=
  (String "009"%char "** Non-matching checksum! **" ++ Config.nl)%string.

Record collected : Type := mkCollected {
  all_ok : Z;               (* char all_ok *)
  received : nat;           (* MPI_Recv calls that returned *)
  stderr : list string;
  left_over : list Z;       (* checksum messages never received *)
  waiting : bool            (* stuck in MPI_Recv: nothing has arrived *)
}.

(** The root's loop of lines 230-241.  [incoming] lists the checksum
    messages addressed to the root in the order MPI_ANY_SOURCE delivers
    them; [iterations] is [num_procs - 1]. *)
Fixpoint root_collect (iterations : nat) (checksum all_ok : Z)
         (incoming : list Z) (count : nat) : collected :=
  match iterations with
  | O => mkCollected all_ok count [] incoming false
  | S iterations' =>
      match incoming with
      | [] => mkCollected all_ok count [] [] true
      | received_checksum :: rest =>
          if (all_ok =? 1) && negb (checksum =? received_checksum) then
            (* fprintf; all_ok = 0; break; *)
            mkCollected 0 (S count) [mismatch_message] rest false
          else root_collect iterations' checksum all_ok rest (S count)
      end
  end.

Definition collect (num_procs checksum : Z) (incoming : list Z) : collected :=
  root_collect (Z.to_nat (num_procs - 1)) checksum 1 incoming 0.

Definition decimal (z : Z) : string :=
  DecimalString.NilZero.string_of_int (Z.to_int z).

(** The line of lines 253-256.  [seconds] is the text that [%.3lf] gives
    for [MPI_Wtime() - start_time]; floating point is not modelled. *)
Definition timing_line (name : Bcast.impl) (chunk_size : Z) (seconds : string)
  : string :=
  ("implementation: " ++ Config.name_of name ++ " | chunksize: " ++
   decimal chunk_size ++ " |  time: " ++ seconds ++ " seconds" ++ Config.nl)%string.

Definition root_stdout (rank all_ok : Z) (name : Bcast.impl) (chunk_size : Z)
           (seconds : string) : list string :=
  if (0 =? rank) && negb (all_ok =? 0)
  then [timing_line name chunk_size seconds] else [].

(** What rank 0 prints at the end of a run: the checksums are collected,
    and the line shows the variable [chunk_size] as the broadcast phase
    left it. *)
Definition root_report (name : Bcast.impl) (num_procs total chunk_size : Z)
           (checksum : Z) (incoming : list Z) (seconds : string)
  : option (list string * list string) :=
  match Bcast.bcast_ops 0 num_procs total name chunk_size with
  | Some (_, chunk_size') =>
      let c := collect num_procs checksum incoming in
      Some (stderr c, root_stdout 0 (all_ok c) name chunk_size' seconds)
  | None => None
  end.

(** Lines 121-126 as they are written: one loop that stores each byte and
    adds it to [checksum] as it goes.  [buffer] holds the bytes stored so
    far. *)
Fixpoint fill_loop (randoms : list Z) (buffer : list Z) (checksum : Z)
  : list Z * Z :=
  match randoms with
  | [] => (buffer, checksum)
  | x :: rest =>
      let b := to_char (Z.rem x 256) in
      fill_loop rest (buffer ++ [b]) (wrap32 (checksum + b))
  end.

Definition root_fill (randoms : list Z) : list Z * Z := fill_loop randoms [] 0.

(** The sum of the bytes as integers, without wrap-around. *)
Definition byte_sum (buffer : list Z) : Z := fold_right Z.add 0 buffer.

Definition is_char (b : Z) : Prop := -128 <= b <= 127.

End Harness.

(** * The Julia set image (1D_parallel_julia.c)

    Every rank computes a band of rows of an image of [2 * height] by
    [height] pixels; the ranks then write their bands to one BMP file, rank
    0 after the header and every other rank after the token of the rank
    before it.  The floating-point iteration that picks the colour of a
    pixel is not modelled: [colour] stands for the three bytes it stores.
    A byte is an integer in [0, 255]; objects lie in memory lowest byte
    first, [int] has 32 bits and [size_t] 64.  Sizes and indices are
    computed in [int], with [wrap32]. *)
Module Julia.

(** Reduction of a mathematical integer to [unsigned int] and to [size_t]. *)
Definition u32 (x : Z) : Z := x mod 4294967296.

Definition u64 (x : Z) : Z := x mod 18446744073709551616.

(** The [n] bytes of an object whose value is [x]. *)
Fixpoint le_bytes (n : nat) (x : Z) : list Z :=
  match n with
  | O => []
  | S k => x mod 256 :: le_bytes k (x / 256)
  end.

(** ** write_bmp_header (lines 81-122) *)

(** Line 83. *)
Definition adjusted_width (width : Z) : Z :=
  u32 (wrap32 (width + (if Z.rem width 4 =? 0 then 0 else 4 - Z.rem width 4))).

(** Line 87: the product is taken in [unsigned int], then in [size_t],
    cast to [int], added to 54 and stored in an [unsigned int]. *)
Definition filesize (width height : Z) : Z :=
  u32 (wrap32 (54 +
       wrap32 (u64 (u32 (u32 (adjusted_width width * u32 height) * 3) * 1)))).

(** Line 95: the product is taken in [int], then in [size_t]. *)
Definition image_size (width height : Z) : Z :=
  u32 (u64 (u64 (wrap32 (wrap32 (width * height) * 3)) * 1)).

(** The fifteen [fwrite] calls of lines 104-118: the number of objects each
    is asked to write, and their bytes. *)
Definition header_objects (width height : Z) : list (Z * list Z) :=
  [ (2, [66; 77]);                                   (* id = "BM" *)
    (1, le_bytes 4 (filesize width height));
    (2, le_bytes 2 0 ++ le_bytes 2 0);               (* reserved *)
    (1, le_bytes 4 54);                              (* offset *)
    (1, le_bytes 4 40);                              (* size *)
    (1, le_bytes 4 width);
    (1, le_bytes 4 height);
    (1, le_bytes 2 1);                               (* planes *)
    (1, le_bytes 2 24);                              (* bits *)
    (1, le_bytes 4 0);                               (* compression *)
    (1, le_bytes 4 (image_size width height));
    (1, le_bytes 4 0);                               (* x_res *)
    (1, le_bytes 4 0);                               (* y_res *)
    (1, le_bytes 4 0);                               (* ncolors *)
    (1, le_bytes 4 0) ].                             (* importantcolors *)

(** What the file holds after the fifteen calls when each wrote all its
    objects. *)
Definition header_bytes (width height : Z) : list Z :=
  flat_map snd (header_objects width height).

(** The return value (lines 103-121); [returned] lists what the [fwrite]
    calls returned, in order. *)
Definition write_bmp_header (returned : list Z) : Z :=
  let ret := fold_left Z.add returned 0 in
  if ret =? 17 then 0 else 1.

(** ** The array of pixels

    [calloc] returns a zeroed array: the allocation of a size that is not
    negative is taken to succeed; for a negative [int] converted to [size_t]
    there is no array at all, here the empty one.  A pixel is the three
    bytes at an index.  C defines an access only inside the array; the
    model makes an access outside it store nothing and read nothing, and
    [JuliaFacts.pixel_index_fits] shows that none is made when the size of
    the image fits an [int]. *)
Definition calloc (n : Z) : list Z := repeat 0 (Z.to_nat n).

Definition in_array (i : Z) (pixels : list Z) : bool :=
  (0 <=? i) && (i + 3 <=? Z.of_nat (length pixels)).

Definition read3 (i : Z) (pixels : list Z) : list Z :=
  if in_array i pixels then firstn 3 (skipn (Z.to_nat i) pixels) else [].

Definition write3 (i : Z) (rgb pixels : list Z) : list Z :=
  if in_array i pixels
  then firstn (Z.to_nat i) pixels ++ rgb ++ skipn (Z.to_nat i + 3) pixels
  else pixels.

Section Image.

Variable colour : Z -> Z -> Z -> Z -> Z * Z * Z.

(** ** compute_julia_pixel (lines 29-67) *)

(** The bytes that lines 62-64 store in [rgb]. *)
Definition stored_rgb (x y width height : Z) : list Z :=
  let '(r, g, b) := colour x y width height in [r; g; b].

(** The status returned and the contents of [rgb] after the call. *)
Definition compute_julia_pixel (x y width height : Z) (rgb : list Z)
  : Z * list Z :=
  if (x <? 0) || (x >=? width) || (y <? 0) || (y >=? height) then (-1, rgb)
  else (0, stored_rgb x y width height).

(** ** main (lines 128-199) *)

Variables (height num_procs : Z).

(** Lines 141-143 and 147. *)
Definition remainder : Z := Z.rem height num_procs.

Definition start (myrank : Z) : Z :=
  Z.quot (wrap32 (myrank * height)) num_procs.

Definition stop (myrank : Z) : Z :=
  Z.quot (wrap32 ((myrank + 1) * height)) num_procs
  + (if myrank <? remainder then 1 else 0) - 1.

Definition width : Z := wrap32 (height * 2).

(** The image rows [start + y] that the loops of lines 153 and 180 visit. *)
Definition rows_of (myrank : Z) : list Z :=
  map (fun y => start myrank + y)
      (Bcast.zrange 0 (stop myrank - start myrank + 1)).

(** Line 149: the number of bytes asked of [calloc]. *)
Definition pixels_size (myrank : Z) : Z :=
  wrap32 (wrap32 ((stop myrank - start myrank + 1) * width) * 3).

(** Lines 155 and 182: the index [y * 3 * width + x * 3]. *)
Definition pixel_index (y x : Z) : Z :=
  wrap32 (wrap32 (wrap32 (y * 3) * width) + wrap32 (x * 3)).

(** Line 155: the array after one call; the status is not looked at. *)
Definition compute_pixel (myrank y : Z) (pixels : list Z) (x : Z) : list Z :=
  let i := pixel_index y x in
  write3 i (snd (compute_julia_pixel x (start myrank + y) width height
                                     (read3 i pixels)))
         pixels.

(** Lines 149-157: the array after the two loops. *)
Definition compute_pixels (myrank : Z) : list Z :=
  fold_left
    (fun pixels y => fold_left (compute_pixel myrank y) (Bcast.zrange 0 width)
                               pixels)
    (Bcast.zrange 0 (stop myrank - start myrank + 1))
    (calloc (pixels_size myrank)).

(** Line 186: the first [(width * 3) % 4] bytes of [padding]. *)
Definition padding : list Z :=
  firstn (Z.to_nat (Z.rem (wrap32 (width * 3)) 4)) [0; 0; 0].

(** Lines 180-188: the bytes a rank writes. *)
Definition write_pixels (myrank : Z) : list Z :=
  let pixels := compute_pixels myrank in
  flat_map
    (fun y => flat_map (fun x => read3 (pixel_index y x) pixels ++ padding)
                       (Bcast.zrange 0 width))
    (Bcast.zrange 0 (stop myrank - start myrank + 1)).

(** The file after the last rank closed it, when every write succeeded: rank
    0 truncates it and writes the header (lines 166-169); rank [r + 1] opens
    it for appending only after it received the token that rank [r] sends
    after closing it (lines 174-175 and 191-194). *)
Definition julia_bmp : list Z :=
  header_bytes width height ++ flat_map write_pixels (Bcast.zrange 0 num_procs).

End Image.

End Julia.

(** * Small inputs

    The inputs on which the model is run below: sixteen bytes in chunks of
    five, as in the scenario of the specification. *)
Definition example_data : list Z :=
  [3; -1; 4; 1; -5; 9; 2; -6; 5; 3; 5; -8; 9; 7; -9; 3].

Definition example_garbage (r : Z) : list Z := repeat r 16.

Definition example_progs (name : Bcast.impl) (num_procs : Z) : Z -> list Bcast.op :=
  fun r => match Bcast.bcast_ops r num_procs 16 name 5 with
           | Some (l, _) => l
           | None => []
           end.

(** * Facts about the chunk loop *)

Module ChunksFacts.

Import Chunks.

Lemma chunk_loop_exit total fuel j cs :
  total <= j -> chunk_loop total fuel j cs = Some ([], cs).
Proof.
  intros H. destruct fuel; simpl;
    destruct (Z.ltb_spec j total); try lia; reflexivity.
Qed.

Lemma chunk_loop_step total fuel j cs :
  j < total ->
  chunk_loop total (S fuel) j cs =
    let cs' := if j >? total - cs then Z.rem total cs else cs in
    match chunk_loop total fuel (j + cs') cs' with
    | Some (plan, final) => Some ((j, cs') :: plan, final)
    | None => None
    end.
Proof.
  intros H. simpl. destruct (Z.ltb_spec j total); try lia. reflexivity.
Qed.

(** The remainder taken at the boundary is what is left of the buffer. *)
Lemma boundary_rem total cs k :
  1 <= cs -> 0 <= k -> k * cs < total -> k * cs > total - cs ->
  Z.rem total cs = total - k * cs /\ total mod cs = total - k * cs.
Proof.
  intros Hcs Hk Hlt Hgt.
  assert (Hm : total mod cs = total - k * cs).
  { symmetry. apply (Z.mod_unique total cs k); [left; lia | lia]. }
  split; [|exact Hm].
  rewrite Z.rem_mod_nonneg by lia. exact Hm.
Qed.

(** A boundary is only met when the chunk size does not divide the total. *)
Lemma boundary_not_exact total cs k :
  1 <= cs -> 0 <= k -> k * cs < total -> k * cs > total - cs ->
  0 < total mod cs.
Proof.
  intros Hcs Hk Hlt Hgt.
  destruct (boundary_rem total cs k Hcs Hk Hlt Hgt) as [_ ->]. lia.
Qed.

Lemma chunk_loop_spec total cs :
  1 <= cs ->
  forall fuel k,
    Z.of_nat k * cs <= total ->
    (Z.to_nat (total - Z.of_nat k * cs) <= fuel)%nat ->
    exists plan final,
      chunk_loop total fuel (Z.of_nat k * cs) cs = Some (plan, final) /\
      tiles (Z.of_nat k * cs) plan total /\
      (forall i c, nth_error plan i = Some c -> chunk_at total cs (k + i) c) /\
      (final = cs \/ (0 < total mod cs /\ final = total mod cs)) /\
      (total mod cs = 0 -> final = cs) /\
      (plan <> [] -> 0 < total mod cs -> final = total mod cs).
Proof.
  intros Hcs. induction fuel as [|fuel IH]; intros k Hle Hfuel.
  - assert (total <= Z.of_nat k * cs) by lia.
    rewrite chunk_loop_exit by lia.
    exists [], cs. simpl. split; [reflexivity|]. split; [lia|].
    split; [intros [|i] c; discriminate|].
    split; [left; reflexivity|]. split; [reflexivity|].
    intros Hne; contradiction.
  - destruct (Z.le_gt_cases total (Z.of_nat k * cs)) as [Hdone|Hlt].
    + rewrite chunk_loop_exit by lia.
      exists [], cs. simpl. split; [reflexivity|]. split; [lia|].
      split; [intros [|i] c; discriminate|].
      split; [left; reflexivity|]. split; [reflexivity|].
      intros Hne; contradiction.
    + rewrite chunk_loop_step by lia. cbv zeta.
      destruct (Z.gtb_spec (Z.of_nat k * cs) (total - cs)) as [Hb|Hb].
      * (* boundary: the last chunk takes the remainder *)
        destruct (boundary_rem total cs (Z.of_nat k)) as [Hr Hm]; try lia.
        rewrite Hr.
        replace (Z.of_nat k * cs + (total - Z.of_nat k * cs)) with total by lia.
        rewrite chunk_loop_exit by lia.
        exists [(Z.of_nat k * cs, total - Z.of_nat k * cs)],
               (total - Z.of_nat k * cs).
        simpl. split; [reflexivity|]. split; [lia|].
        split; [|split; [right; lia|split; [lia|intros _ _; lia]]].
        intros [|[|i]] c Hc; simpl in Hc; try discriminate.
        injection Hc as <-. unfold chunk_at; simpl.
        rewrite Nat.add_0_r.
        destruct (Z.gtb_spec (Z.of_nat k * cs) (total - cs)); lia.
      * (* a full chunk *)
        destruct (IH (S k)) as (plan & final & Hrun & Ht & Hat & Hfin & Hex & Hne);
          try lia.
        replace (Z.of_nat (S k) * cs) with (Z.of_nat k * cs + cs) in Hrun, Ht by lia.
        rewrite Hrun.
        exists ((Z.of_nat k * cs, cs) :: plan), final.
        simpl. split; [reflexivity|]. split; [split; [reflexivity|exact Ht]|].
        split; [|split; [exact Hfin|split; [exact Hex|]]].
        -- intros [|i] c Hc; simpl in Hc.
           ++ injection Hc as <-. unfold chunk_at; simpl.
              rewrite Nat.add_0_r.
              destruct (Z.gtb_spec (Z.of_nat k * cs) (total - cs)); lia.
           ++ replace (k + S i)%nat with (S k + i)%nat by lia. auto.
        -- intros _ Hpos. destruct plan as [|c plan'].
           ++ (* no chunk follows: the total was an exact multiple *)
              simpl in Ht. exfalso.
              assert (total mod cs = 0).
              { rewrite <- Ht.
                replace (Z.of_nat k * cs + cs) with ((Z.of_nat k + 1) * cs) by lia.
                apply Z.mod_mul. lia. }
              lia.
           ++ apply Hne; [discriminate | exact Hpos].
Qed.

Lemma tiles_sum a plan b : tiles a plan b -> sum_lengths plan = b - a.
Proof.
  revert a. induction plan as [|[off len] rest IH]; intros a; simpl.
  - lia.
  - intros [_ Ht]. rewrite (IH _ Ht). lia.
Qed.

Lemma tiles_increasing a plan b :
  tiles a plan b -> Forall (fun c => 0 < snd c) plan ->
  increasing (offsets plan) /\ Forall (fun c => a <= fst c) plan.
Proof.
  revert a. induction plan as [|[off len] rest IH]; intros a; simpl.
  - auto.
  - intros [-> Ht] Hpos. inversion Hpos as [|? ? Hl Hrest]; subst. simpl in Hl.
    destruct (IH _ Ht Hrest) as [Hinc Hge].
    split; [split; [|exact Hinc] | constructor; simpl; [lia|]].
    + destruct rest as [|[off' len'] rest']; simpl; [exact I|].
      inversion Hge; subst. simpl in *. lia.
    + eapply Forall_impl; [|exact Hge]. simpl. intros; lia.
Qed.

(** The arithmetic of the loop stays within [int] when its inputs do: every
    offset, every length and every [j + chunk_size] lies in [0, total], and
    [total - chunk_size] is an [int], so the [Z] operations above are the C
    ones. *)
Lemma chunk_plan_in_int_range total cs plan final :
  1 <= total <= INT_MAX -> 1 <= cs <= INT_MAX ->
  chunk_plan total cs = Some (plan, final) ->
  Forall (fun c => 0 <= fst c <= INT_MAX /\ 0 < snd c <= INT_MAX /\
                   fst c + snd c <= INT_MAX) plan /\
  INT_MIN <= total - cs <= INT_MAX /\
  1 <= final <= INT_MAX.
Proof.
  intros Ht Hcs Hp. unfold chunk_plan in Hp.
  destruct (chunk_loop_spec total cs ltac:(lia) (Z.to_nat total) 0%nat)
    as (plan' & final' & Hrun & _ & Hat & Hfin & _); try lia.
  change (Z.of_nat 0 * cs) with 0 in Hrun. rewrite Hrun in Hp.
  injection Hp as <- <-.
  pose proof (Z.mod_pos_bound total cs ltac:(lia)) as Hm.
  unfold INT_MAX, INT_MIN in *.
  split; [|split; [lia|]].
  - apply Forall_forall. intros c Hc. apply In_nth_error in Hc.
    destruct Hc as [i Hi]. apply Hat in Hi. unfold chunk_at in Hi.
    destruct Hi as (Hf & _ & Hpos & Hle). simpl in Hf.
    assert (0 <= fst c) by (rewrite Hf; apply Z.mul_nonneg_nonneg; lia).
    lia.
  - destruct Hfin as [->|[Hpos ->]]; lia.
Qed.

(** The number of chunks is the quotient rounded up. *)
Lemma chunk_loop_length total cs :
  1 <= cs ->
  forall fuel k,
    Z.of_nat k * cs <= total ->
    (Z.to_nat (total - Z.of_nat k * cs) <= fuel)%nat ->
    exists plan final,
      chunk_loop total fuel (Z.of_nat k * cs) cs = Some (plan, final) /\
      Z.of_nat (length plan) = (total - Z.of_nat k * cs + cs - 1) / cs.
Proof.
  intros Hcs. induction fuel as [|fuel IH]; intros k Hle Hfuel.
  - rewrite chunk_loop_exit by lia. exists [], cs. split; [reflexivity|].
    replace (total - Z.of_nat k * cs + cs - 1) with (cs - 1) by lia.
    rewrite Z.div_small by lia. reflexivity.
  - destruct (Z.le_gt_cases total (Z.of_nat k * cs)) as [Hdone|Hlt].
    + rewrite chunk_loop_exit by lia. exists [], cs. split; [reflexivity|].
      replace (total - Z.of_nat k * cs + cs - 1) with (cs - 1) by lia.
      rewrite Z.div_small by lia. reflexivity.
    + rewrite chunk_loop_step by lia. cbv zeta.
      destruct (Z.gtb_spec (Z.of_nat k * cs) (total - cs)) as [Hb|Hb].
      * destruct (boundary_rem total cs (Z.of_nat k)) as [Hr _]; try lia.
        rewrite Hr.
        replace (Z.of_nat k * cs + (total - Z.of_nat k * cs)) with total by lia.
        rewrite chunk_loop_exit by lia.
        eexists _, _. split; [reflexivity|]. simpl length.
        change (Z.of_nat 1) with 1.
        apply (Z.div_unique _ cs 1 (total - Z.of_nat k * cs - 1)); lia.
      * destruct (IH (S k)) as (plan & final & Hrun & Hlen); try lia.
        replace (Z.of_nat (S k) * cs) with (Z.of_nat k * cs + cs) in Hrun, Hlen
          by lia.
        rewrite Hrun. eexists _, _. split; [reflexivity|].
        simpl length. rewrite Nat2Z.inj_succ, Hlen.
        replace (total - Z.of_nat k * cs + cs - 1)
          with (total - (Z.of_nat k * cs + cs) + cs - 1 + 1 * cs) by lia.
        rewrite Z.div_add by lia. lia.
Qed.

(** A chunk size that covers the buffer gives the buffer as one chunk. *)
Lemma chunk_plan_whole total cs :
  1 <= total <= cs -> chunk_plan total cs = Some ([(0, total)], total).
Proof.
  intros H. unfold chunk_plan.
  destruct (Z.to_nat total) as [|fuel] eqn:Hf; [lia|].
  rewrite chunk_loop_step by lia. cbv zeta.
  destruct (Z.gtb_spec 0 (total - cs)) as [Hb|Hb].
  - rewrite Z.rem_small by lia. simpl.
    rewrite chunk_loop_exit by lia. reflexivity.
  - assert (cs = total) as -> by lia. simpl.
    rewrite chunk_loop_exit by lia. reflexivity.
Qed.

End ChunksFacts.

(** * Facts about the tree of ranks *)

Module TreeFacts.

Import Tree.

Lemma parent_of_positive c :
  1 <= c -> parent c = (c - 1) / 2.
Proof.
  intros H. unfold parent. apply Z.quot_div_nonneg; lia.
Qed.

Lemma parent_child r c :
  0 <= r -> 1 <= c ->
  (parent c = r <-> c = left_child r \/ c = right_child r).
Proof.
  intros Hr Hc. rewrite parent_of_positive by lia.
  unfold left_child, right_child.
  pose proof (Z.div_mod (c - 1) 2 ltac:(lia)) as Hdm.
  pose proof (Z.mod_pos_bound (c - 1) 2 ltac:(lia)) as Hb.
  split; intros H.
  - subst r. lia.
  - destruct H as [-> | ->].
    + replace (r * 2 + 1 - 1) with (r * 2) by lia. apply Z.div_mul. lia.
    + replace (r * 2 + 2 - 1) with (1 + r * 2) by lia.
      rewrite Z.div_add by lia. reflexivity.
Qed.

Lemma parent_lt c : 1 <= c -> 0 <= parent c < c.
Proof.
  intros H. rewrite parent_of_positive by lia.
  pose proof (Z.div_mod (c - 1) 2 ltac:(lia)).
  pose proof (Z.mod_pos_bound (c - 1) 2 ltac:(lia)).
  lia.
Qed.

(** Each hop towards the root at least halves [rank + 1]. *)
Lemma hops_log fuel : forall rank,
  0 <= rank <= Z.of_nat fuel ->
  exists h, hops fuel rank = Some h /\ 2 ^ Z.of_nat h <= rank + 1.
Proof.
  induction fuel as [|fuel IH]; intros rank Hr.
  - assert (rank = 0) as -> by lia. exists 0%nat. split; [reflexivity|]. simpl. lia.
  - destruct (Z.eq_dec rank 0) as [->|Hnz].
    + exists 0%nat. split; [reflexivity|]. simpl. lia.
    + pose proof (parent_lt rank ltac:(lia)) as Hp.
      assert (Hhalf : 2 * parent rank + 2 <= rank + 1).
      { rewrite parent_of_positive by lia.
        pose proof (Z.div_mod (rank - 1) 2 ltac:(lia)).
        pose proof (Z.mod_pos_bound (rank - 1) 2 ltac:(lia)). lia. }
      destruct (IH (parent rank) ltac:(lia)) as (h & Hh & Hpow).
      exists (S h). split.
      * simpl. destruct (Z.leb_spec rank 0); [lia|]. rewrite Hh. reflexivity.
      * rewrite Nat2Z.inj_succ, Z.pow_succ_r by lia. lia.
Qed.

End TreeFacts.

(** * Facts about the broadcast phase *)

Module BcastFacts.

Import Chunks.

Import Chunks ChunksFacts Bcast.

(** ** Buffers: slices and writes *)
Lemma slice_full (b : list Z) : slice 0 (Z.of_nat (length b)) b = b.
Proof.
  unfold slice. simpl. rewrite Nat2Z.id. apply firstn_all.
Qed.

Lemma slice_length off count (b : list Z) :
  0 <= off -> 0 <= count -> off + count <= Z.of_nat (length b) ->
  length (slice off count b) = Z.to_nat count.
Proof.
  intros Ho Hc Hb. unfold slice.
  rewrite length_firstn, length_skipn. lia.
Qed.

Lemma write_length off d (b : list Z) :
  0 <= off -> (Z.to_nat off + length d <= length b)%nat ->
  length (write off d b) = length b.
Proof.
  intros Ho Hb. unfold write.
  rewrite !length_app, length_firstn, length_skipn. lia.
Qed.

Lemma write_whole (d b : list Z) :
  length b = length d -> write 0 d b = d.
Proof.
  intros H. unfold write. simpl.
  rewrite skipn_all2 by lia. apply app_nil_r.
Qed.

Lemma firstn_add (a c : nat) (l : list Z) :
  firstn (a + c) l = firstn a l ++ firstn c (skipn a l).
Proof.
  revert l. induction a as [|a IH]; intros l; simpl.
  - reflexivity.
  - destruct l as [|x l]; simpl.
    + rewrite firstn_nil. reflexivity.
    + rewrite IH. reflexivity.
Qed.

Section InvariantFacts.

Variables (num_procs : Z) (data : list Z).

Lemma agrees_slice v off count (b : list Z) :
  agrees data v b -> 0 <= off -> 0 <= count -> off + count <= v ->
  slice off count b = slice off count data.
Proof.
  unfold agrees, slice. intros Ha Ho Hc Hv.
  rewrite !firstn_skipn_comm.
  replace (Z.to_nat off + Z.to_nat count)%nat
    with (Nat.min (Z.to_nat off + Z.to_nat count) (Z.to_nat v)) by lia.
  rewrite <- !firstn_firstn. rewrite Ha. reflexivity.
Qed.

Lemma agrees_all (b : list Z) :
  length b = length data -> agrees data (total_of data) b -> b = data.
Proof.
  unfold agrees, total_of. intros Hl Ha. rewrite Nat2Z.id in Ha.
  rewrite <- Hl in Ha at 1. rewrite !firstn_all in Ha. exact Ha.
Qed.

Lemma agrees_refl v : agrees data v data.
Proof. reflexivity. Qed.

Lemma agrees_zero (b : list Z) : agrees data 0 b.
Proof. reflexivity. Qed.

(** Receiving the next chunk extends the valid prefix. *)
Lemma agrees_write v count (b : list Z) :
  length b = length data -> 0 <= v -> 0 <= count ->
  v + count <= total_of data ->
  agrees data v b ->
  agrees data (v + count) (write v (slice v count data) b) /\
  length (write v (slice v count data) b) = length data.
Proof.
  unfold total_of. intros Hl Hv Hc Ht Ha.
  assert (Hsl : length (slice v count data) = Z.to_nat count)
    by (apply slice_length; lia).
  split.
  - unfold agrees, write. rewrite Ha, app_assoc.
    set (pre := firstn (Z.to_nat v) data ++ slice v count data).
    assert (Hpre : length pre = Z.to_nat (v + count)).
    { unfold pre. rewrite length_app, length_firstn, Hsl. lia. }
    rewrite <- Hpre, <- (Nat.add_0_r (length pre)), firstn_app_2.
    simpl. rewrite app_nil_r, Nat.add_0_r, Hpre.
    unfold pre, slice.
    replace (Z.to_nat (v + count)) with (Z.to_nat v + Z.to_nat count)%nat by lia.
    symmetry. apply firstn_add.
  - rewrite write_length; [exact Hl | lia | lia].
Qed.

End InvariantFacts.

(** ** The network *)
Lemma msgs_app s d l1 l2 : msgs s d (l1 ++ l2) = msgs s d l1 ++ msgs s d l2.
Proof.
  unfold msgs. rewrite filter_app, map_app. reflexivity.
Qed.

Lemma msgs_single s d m :
  msgs s d [m] = if addressed s d m then [m_data m] else [].
Proof.
  unfold msgs. simpl. destruct (addressed s d m); reflexivity.
Qed.

Lemma addressed_other s d s' d' m :
  addressed s d m = true -> (s', d') <> (s, d) -> addressed s' d' m = false.
Proof.
  unfold addressed. intros H Hne.
  apply andb_true_iff in H. destruct H as [Hs Hd].
  apply Z.eqb_eq in Hs, Hd.
  destruct (Z.eqb_spec (m_src m) s'), (Z.eqb_spec (m_dst m) d');
    simpl; try reflexivity.
  exfalso. apply Hne. congruence.
Qed.

Lemma take_first_some s d l x l' :
  take_first s d l = Some (x, l') ->
  msgs s d l = x :: msgs s d l' /\
  forall s' d', (s', d') <> (s, d) -> msgs s' d' l' = msgs s' d' l.
Proof.
  revert x l'. induction l as [|m rest IH]; intros x l' H; simpl in H.
  - discriminate.
  - destruct (addressed s d m) eqn:Ha.
    + injection H as <- <-. split.
      * unfold msgs. simpl. rewrite Ha. reflexivity.
      * intros s' d' Hne. unfold msgs. simpl.
        rewrite (addressed_other _ _ _ _ _ Ha Hne). reflexivity.
    + destruct (take_first s d rest) as [[y rest']|] eqn:Ht; [|discriminate].
      injection H as <- <-.
      destruct (IH _ _ eq_refl) as [Hm Ho]. split.
      * unfold msgs in *. simpl. rewrite Ha. exact Hm.
      * intros s' d' Hne. specialize (Ho s' d' Hne).
        unfold msgs in *. simpl.
        destruct (addressed s' d' m); simpl; congruence.
Qed.

Lemma take_first_none s d l :
  take_first s d l = None <-> msgs s d l = [].
Proof.
  induction l as [|m rest IH]; simpl.
  - unfold msgs; simpl. tauto.
  - unfold msgs in *. simpl. destruct (addressed s d m).
    + split; discriminate.
    + destruct (take_first s d rest) as [[y rest']|].
      * split; [discriminate|]. intros H. apply IH in H. discriminate.
      * split; [intros _; apply IH; reflexivity | reflexivity].
Qed.

(** ** Waiting changes neither statements nor buffer *)
Lemma wait_slot_frame slot p p' :
  wait_slot slot p = Some p' -> ops p' = ops p /\ buffer p' = buffer p.
Proof.
  unfold wait_slot. destruct (requests p slot); intros H;
    try discriminate; injection H as <-; split; reflexivity.
Qed.

Lemma wait_slots_frame slots p p' :
  wait_slots slots p = Some p' -> ops p' = ops p /\ buffer p' = buffer p.
Proof.
  revert p. induction slots as [|s rest IH]; intros p H; simpl in H.
  - injection H as <-. split; reflexivity.
  - destruct (wait_slot s p) as [q|] eqn:Hq; [|discriminate].
    destruct (wait_slot_frame _ _ _ Hq) as [Ho Hb].
    destruct (IH _ H) as [Ho' Hb']. split; congruence.
Qed.

Lemma set_proc_same r p f : set_proc r p f r = p.
Proof. unfold set_proc. rewrite Z.eqb_refl. reflexivity. Qed.

Lemma set_proc_other r p f x : x <> r -> set_proc r p f x = f x.
Proof.
  unfold set_proc. intros H. destruct (Z.eqb_spec x r); [contradiction|reflexivity].
Qed.

(** ** One step preserves the invariant *)
Section Preservation.

Variables (num_procs : Z) (data : list Z).

Lemma sends_to_cons d o l : sends_to d (o :: l) = sends_of_op d o ++ sends_to d l.
Proof. reflexivity. Qed.

Lemma recvs_from_cons s o l :
  recvs_from s (o :: l) = recvs_of_op s o ++ recvs_from s l.
Proof. reflexivity. Qed.

Lemma sends_to_app d l1 l2 : sends_to d (l1 ++ l2) = sends_to d l1 ++ sends_to d l2.
Proof. apply flat_map_app. Qed.

Lemma recvs_from_app s l1 l2 :
  recvs_from s (l1 ++ l2) = recvs_from s l1 ++ recvs_from s l2.
Proof. apply flat_map_app. Qed.

(** Rank [r] executes its next statement [o]: what [o] receives leaves the
    network, what it sends enters it, and the ranks stay matched. *)
Lemma inv_step w r o rest p' net' coll' :
  inv num_procs data w ->
  ops (procs w r) = o :: rest ->
  ops p' = rest ->
  local_inv data r p' ->
  (forall s d,
      in_group num_procs s = true -> in_group num_procs d = true ->
      msgs s d (net w) ++
        map (slice_of data) (if s =? r then sends_of_op d o else []) =
      map (slice_of data) (if d =? r then recvs_of_op s o else []) ++
        msgs s d net') ->
  (coll' = None \/ coll' = Some data) ->
  inv num_procs data (mkWorld (set_proc r p' (procs w)) net' coll').
Proof.
  intros (Hloc & Hmat & Hcoll) Hops Hops' Hloc' Hnet Hcoll'.
  split; [|split]; simpl.
  - intros x Hx. destruct (Z.eq_dec x r) as [->|Hne].
    + rewrite set_proc_same. exact Hloc'.
    + rewrite set_proc_other by exact Hne. apply Hloc. exact Hx.
  - intros s d Hs Hd. unfold matched. simpl.
    specialize (Hmat s d Hs Hd). unfold matched in Hmat.
    specialize (Hnet s d Hs Hd).
    assert (Hr : recvs_from s (ops (procs w d)) =
                 (if d =? r then recvs_of_op s o else []) ++
                 recvs_from s (ops (set_proc r p' (procs w) d))).
    { destruct (Z.eqb_spec d r) as [->|Hne].
      - rewrite set_proc_same, Hops, Hops'. reflexivity.
      - rewrite set_proc_other by exact Hne. reflexivity. }
    assert (Hsd : sends_to d (ops (procs w s)) =
                  (if s =? r then sends_of_op d o else []) ++
                  sends_to d (ops (set_proc r p' (procs w) s))).
    { destruct (Z.eqb_spec s r) as [->|Hne].
      - rewrite set_proc_same, Hops, Hops'. reflexivity.
      - rewrite set_proc_other by exact Hne. reflexivity. }
    rewrite Hr, Hsd, !map_app, app_assoc, Hnet, <- app_assoc in Hmat.
    apply app_inv_head in Hmat. exact Hmat.
  - exact Hcoll'.
Qed.

Lemma local_inv_rest r p o rest :
  local_inv data r p -> ops p = o :: rest ->
  is_recv o = false -> (forall c, o <> Bcast c) ->
  forall p', ops p' = rest -> buffer p' = buffer p -> local_inv data r p'.
Proof.
  intros [Hlen (v & Hv & Ha & Hok)] Hops Hnr Hnb p' Hops' Hbuf.
  split; [congruence|]. exists v. rewrite Hops', Hbuf.
  rewrite Hops in Hok.
  destruct o; simpl in Hok; try discriminate; try tauto.
  exfalso. eapply Hnb. reflexivity.
Qed.

Lemma step_inv w r w' :
  inv num_procs data w -> in_group num_procs r = true ->
  step num_procs r w = Next w' -> inv num_procs data w'.
Proof.
  intros Hinv Hr Hstep.
  pose proof Hinv as (Hloc & Hmat & Hcoll).
  pose proof (Hloc r Hr) as Hlr.
  unfold step in Hstep.
  destruct (ops (procs w r)) as [|o rest] eqn:Hops; [discriminate|].
  destruct o as [count|off count dest|off count src|off count dest slot|slot|cnt].
  - (* Bcast *)
    destruct Hlr as [Hlen (v & Hv & Ha & Hok)]. rewrite Hops in Hok.
    simpl in Hok. destruct Hok as (-> & Hroot & Hok).
    destruct (Z.eqb_spec r 0) as [->|Hnz].
    + injection Hstep as <-.
      specialize (Hroot eq_refl). subst v.
      apply agrees_all in Ha; [|exact Hlen].
      eapply inv_step; [exact Hinv|exact Hops|reflexivity| | |].
      * split; [exact Hlen|]. exists (total_of data). simpl.
        split; [unfold total_of; lia|]. split; [rewrite Ha; reflexivity|exact Hok].
      * intros s d _ _. simpl.
        destruct (s =? 0), (d =? 0); simpl; rewrite app_nil_r; reflexivity.
      * right. rewrite Ha. unfold total_of. rewrite slice_full. reflexivity.
    + destruct (coll w) as [d0|] eqn:Hc; [|discriminate].
      injection Hstep as <-.
      assert (d0 = data) as -> by (destruct Hcoll; congruence).
      eapply inv_step; [exact Hinv|exact Hops|reflexivity| | |].
      * split; simpl.
        -- rewrite write_whole by exact Hlen. reflexivity.
        -- exists (total_of data). split; [unfold total_of; lia|].
           split; [|exact Hok].
           rewrite write_whole by exact Hlen. reflexivity.
      * intros s d _ _. simpl.
        destruct (s =? r), (d =? r); simpl; rewrite app_nil_r; reflexivity.
      * right. reflexivity.
  - (* Send *)
    destruct (count <? 0); [discriminate|].
    destruct (in_group num_procs dest) eqn:Hd; simpl in Hstep; [|discriminate].
    injection Hstep as <-.
    eapply inv_step; [exact Hinv|exact Hops|reflexivity| | |].
    + eapply local_inv_rest; eauto; try reflexivity. intros c; discriminate.
    + intros s d _ _. rewrite msgs_app, msgs_single. unfold addressed. simpl.
      replace (if d =? r then @nil chunk else []) with (@nil chunk)
        by (destruct (d =? r); reflexivity).
      simpl. rewrite (Z.eqb_sym r s).
      destruct (Z.eqb_spec s r) as [->|Hne]; simpl; [|reflexivity].
      destruct (Z.eqb_spec dest d) as [->|Hne]; simpl; [|reflexivity].
      do 2 f_equal. unfold slice_of. simpl.
      destruct Hlr as [Hlen (v & Hv & Ha & Hok)]. rewrite Hops in Hok.
      simpl in Hok. symmetry. eapply agrees_slice; eauto; tauto.
    + exact Hcoll.
  - (* Recv *)
    destruct (count <? 0); [discriminate|].
    destruct (in_group num_procs src) eqn:Hs; simpl in Hstep; [|discriminate].
    destruct (take_first src r (net w)) as [[d0 net']|] eqn:Htf; [|discriminate].
    destruct (count <? Z.of_nat (length d0)); [discriminate|].
    injection Hstep as <-.
    destruct (take_first_some _ _ _ _ _ Htf) as [Hhd Hoth].
    pose proof (Hmat src r Hs Hr) as Hm. unfold matched in Hm.
    rewrite Hops, recvs_from_cons, Hhd in Hm. simpl in Hm.
    rewrite Z.eqb_refl in Hm. simpl in Hm. injection Hm as Hd0 _.
    unfold slice_of in Hd0. simpl in Hd0.
    destruct Hlr as [Hlen (v & Hv & Ha & Hok)]. rewrite Hops in Hok.
    simpl in Hok. destruct Hok as (-> & Hc & Hvc & Hok).
    destruct (agrees_write data v count (buffer (procs w r)))
      as [Ha' Hlen']; auto; try lia.
    eapply inv_step; [exact Hinv|exact Hops|reflexivity| | |].
    + split; simpl; rewrite <- Hd0.
      * exact Hlen'.
      * exists (v + count). split; [lia|]. split; [exact Ha'|exact Hok].
    + intros s d _ _. simpl.
      replace (if s =? r then @nil chunk else []) with (@nil chunk)
        by (destruct (s =? r); reflexivity).
      simpl. rewrite app_nil_r.
      destruct (Z.eqb_spec d r) as [->|Hne].
      * destruct (Z.eqb_spec src s) as [->|Hne'].
        -- rewrite Hhd. simpl. unfold slice_of. simpl. rewrite Hd0. reflexivity.
        -- simpl. symmetry. apply Hoth. congruence.
      * simpl. symmetry. apply Hoth. congruence.
    + exact Hcoll.
  - (* Isend *)
    destruct (count <? 0); [discriminate|].
    destruct (in_group num_procs dest) eqn:Hd; simpl in Hstep; [|discriminate].
    injection Hstep as <-.
    eapply inv_step; [exact Hinv|exact Hops|reflexivity| | |].
    + eapply local_inv_rest; eauto; try reflexivity. intros c; discriminate.
    + intros s d _ _. rewrite msgs_app, msgs_single. unfold addressed. simpl.
      replace (if d =? r then @nil chunk else []) with (@nil chunk)
        by (destruct (d =? r); reflexivity).
      simpl. rewrite (Z.eqb_sym r s).
      destruct (Z.eqb_spec s r) as [->|Hne]; simpl; [|reflexivity].
      destruct (Z.eqb_spec dest d) as [->|Hne]; simpl; [|reflexivity].
      do 2 f_equal. unfold slice_of. simpl.
      destruct Hlr as [Hlen (v & Hv & Ha & Hok)]. rewrite Hops in Hok.
      simpl in Hok. symmetry. eapply agrees_slice; eauto; tauto.
    + exact Hcoll.
  - (* Wait *)
    destruct (wait_slot slot (with_ops rest (procs w r))) as [p'|] eqn:Hw;
      [|discriminate].
    injection Hstep as <-.
    destruct (wait_slot_frame _ _ _ Hw) as [Ho Hb]. simpl in Ho, Hb.
    eapply inv_step; [exact Hinv|exact Hops|exact Ho| | |].
    + eapply local_inv_rest; eauto; try reflexivity. intros c; discriminate.
    + intros s d _ _. simpl.
      destruct (s =? r), (d =? r); simpl; rewrite app_nil_r; reflexivity.
    + exact Hcoll.
  - (* Waitall *)
    destruct (wait_slots (seq 0 cnt) (with_ops rest (procs w r))) as [p'|] eqn:Hw;
      [|discriminate].
    injection Hstep as <-.
    destruct (wait_slots_frame _ _ _ Hw) as [Ho Hb]. simpl in Ho, Hb.
    eapply inv_step; [exact Hinv|exact Hops|exact Ho| | |].
    + eapply local_inv_rest; eauto; try reflexivity. intros c; discriminate.
    + intros s d _ _. simpl.
      destruct (s =? r), (d =? r); simpl; rewrite app_nil_r; reflexivity.
    + exact Hcoll.
Qed.

Lemma run_inv sched : forall w w',
  inv num_procs data w -> run num_procs sched w = Some w' ->
  inv num_procs data w'.
Proof.
  induction sched as [|r rest IH]; intros w w' Hinv Hrun; simpl in Hrun.
  - injection Hrun as <-. exact Hinv.
  - destruct (in_group num_procs r) eqn:Hr; [|discriminate].
    destruct (step num_procs r w) as [w1| | |e] eqn:Hs; try discriminate.
    eapply IH; [|exact Hrun]. eapply step_inv; eauto.
Qed.

Lemma in_zrange lo hi x : In x (zrange lo hi) <-> lo <= x < hi.
Proof.
  unfold zrange. rewrite in_map_iff. split.
  - intros (i & <- & Hi). apply in_seq in Hi. lia.
  - intros H. exists (Z.to_nat (x - lo)). split; [lia|].
    apply in_seq. lia.
Qed.

Lemma in_group_iff r : in_group num_procs r = true <-> 0 <= r < num_procs.
Proof.
  unfold in_group. rewrite andb_true_iff, Z.leb_le, Z.ltb_lt. tauto.
Qed.

(** When every rank of a group that satisfies the invariant has run out of
    statements, every buffer holds the root's data. *)
Lemma inv_done w r :
  inv num_procs data w -> all_done num_procs w = true ->
  0 <= r < num_procs -> buffer (procs w r) = data.
Proof.
  intros (Hloc & _ & _) Hdone Hr.
  unfold all_done in Hdone. rewrite forallb_forall in Hdone.
  specialize (Hdone r (proj2 (in_zrange 0 num_procs r) Hr)).
  destruct (Hloc r (proj2 (in_group_iff r) Hr)) as [Hlen (v & Hv & Ha & Hok)].
  unfold finished in Hdone.
  destruct (ops (procs w r)); [|discriminate].
  simpl in Hok. subst v. apply agrees_all; assumption.
Qed.

End Preservation.

(** ** The plans the loops follow *)
Lemma chunk_loop_nonpositive total fuel :
  forall j cs, cs <= 0 -> j <= 0 -> 1 <= total ->
               chunk_loop total fuel j cs = None.
Proof.
  induction fuel as [|fuel IH]; intros j cs Hcs Hj Ht; simpl;
    destruct (Z.ltb_spec j total); try lia; [reflexivity|].
  destruct (Z.gtb_spec j (total - cs)); [lia|].
  rewrite IH by lia. reflexivity.
Qed.

(** Whenever the chunk loop terminates, its chunks tile the buffer. *)
Lemma chunk_plan_tiles total cs plan final :
  0 <= total -> chunk_plan total cs = Some (plan, final) ->
  tiles 0 plan total /\ Forall (fun c => 0 < snd c) plan.
Proof.
  intros Ht Hp. unfold chunk_plan in Hp.
  destruct (Z.eq_dec total 0) as [->|Hnz].
  - simpl in Hp. injection Hp as <- <-. split; [reflexivity|constructor].
  - destruct (Z.le_gt_cases cs 0) as [Hcs|Hcs].
    + rewrite chunk_loop_nonpositive in Hp by lia. discriminate.
    + destruct (chunk_loop_spec total cs ltac:(lia) (Z.to_nat total) 0%nat)
        as (plan' & final' & Hrun & Htl & Hat & _); try (simpl; lia).
      simpl in Hrun, Htl. rewrite Hrun in Hp. injection Hp as <- <-.
      split; [exact Htl|].
      apply Forall_forall. intros c Hc.
      apply In_nth_error in Hc. destruct Hc as [i Hi].
      apply Hat in Hi. unfold chunk_at in Hi. tauto.
Qed.

Lemma tiles_le a plan b :
  tiles a plan b -> Forall (fun c => 0 < snd c) plan -> a <= b.
Proof.
  revert a. induction plan as [|[off len] rest IH]; intros a; simpl.
  - lia.
  - intros [_ Ht] Hpos. inversion Hpos; subst. simpl in *.
    specialize (IH _ Ht ltac:(assumption)). lia.
Qed.

Lemma ops_ok_sends data r v l rest :
  Forall (send_within v) l -> ops_ok data r v rest -> ops_ok data r v (l ++ rest).
Proof.
  induction 1 as [|o l Ho _ IH]; intros Hrest; simpl; [exact Hrest|].
  destruct o; simpl in Ho; try contradiction; simpl; tauto.
Qed.

Lemma ops_ok_chunked data r body tail :
  chunk_body r body ->
  (forall v, v = total_of data -> ops_ok data r v tail) ->
  forall plan a,
    tiles a plan (total_of data) -> Forall (fun c => 0 < snd c) plan ->
    0 <= a ->
    ops_ok data r (if r =? 0 then total_of data else a)
           (flat_map body plan ++ tail).
Proof.
  intros Hbody Htail. induction plan as [|[j cs] rest IH]; intros a Ht Hpos Ha.
  - simpl in *. apply Htail. destruct (r =? 0); congruence.
  - simpl in Ht. destruct Ht as [-> Ht]. inversion Hpos as [|? ? Hcs Hrest]; subst.
    simpl in Hcs. pose proof (tiles_le _ _ _ Ht Hrest) as Hle.
    specialize (IH _ Ht Hrest ltac:(lia)).
    simpl. rewrite <- app_assoc.
    destruct (Hbody (a, cs)) as (src & sends & -> & Hs). simpl in *.
    destruct (r =? 0); simpl.
    + apply ops_ok_sends; [|exact IH]. apply Hs; lia.
    + split; [reflexivity|]. split; [lia|]. split; [lia|].
      apply ops_ok_sends; [|exact IH]. apply Hs; lia.
Qed.

Section Bodies.

Variables (rank num_procs : Z).

Lemma pipelined_ring_chunk_body :
  chunk_body rank (pipelined_ring_body rank num_procs).
Proof.
  intros [j cs]. exists (rank - 1). unfold pipelined_ring_body.
  rewrite (Z.eqb_sym 0 rank). cbn [fst snd].
  destruct (rank =? 0).
  - exists [Send j cs (rank + 1)]. split; [reflexivity|].
    intros v; repeat constructor; simpl; lia.
  - destruct (negb (rank =? num_procs - 1)).
    + exists [Send j cs (rank + 1)]. split; [reflexivity|].
      intros v; repeat constructor; simpl; lia.
    + exists []. split; [reflexivity|]. constructor.
Qed.

Lemma asynchronous_ring_chunk_body :
  chunk_body rank (asynchronous_ring_body rank num_procs).
Proof.
  intros [j cs]. exists (rank - 1). unfold asynchronous_ring_body.
  rewrite (Z.eqb_sym 0 rank). cbn [fst snd].
  destruct (rank =? 0).
  - exists [Isend j cs (rank + 1) 0]. split; [reflexivity|].
    intros v; repeat constructor; simpl; lia.
  - destruct (negb (rank =? num_procs - 1)).
    + exists [Isend j cs (rank + 1) 0]. split; [reflexivity|].
      intros v; repeat constructor; simpl; lia.
    + exists []. split; [reflexivity|]. constructor.
Qed.

Lemma bintree_chunk_body :
  chunk_body rank (bintree_body rank num_procs).
Proof.
  intros [j cs]. exists (Tree.parent rank). unfold bintree_body. cbn [fst snd].
  eexists. split.
  - destruct (rank =? 0); simpl; reflexivity.
  - intros v H1 H2 H3. apply Forall_app. split.
    + destruct (Tree.left_child rank <? num_procs); repeat constructor; simpl; lia.
    + destruct (Tree.right_child rank <? num_procs); repeat constructor; simpl; lia.
Qed.

End Bodies.

Lemma ops_ok_naive_sends data l :
  ops_ok data 0 (total_of data) (map (fun j => Send 0 (total_of data) j) l).
Proof.
  induction l as [|j l IH]; simpl; [reflexivity|].
  unfold total_of in *. repeat split; try lia. exact IH.
Qed.

Lemma bcast_ops_ok data name rank num_procs cs l final :
  bcast_ops rank num_procs (total_of data) name cs = Some (l, final) ->
  ops_ok data rank (valid0 data rank) l.
Proof.
  assert (Ht : 0 <= total_of data) by (unfold total_of; lia).
  unfold valid0. destruct name; simpl; intros H.
  - injection H as <- _. simpl. repeat split.
    destruct (Z.eqb_spec rank 0); [reflexivity|contradiction].
  - injection H as <- _. unfold naive_ops. rewrite (Z.eqb_sym 0 rank).
    destruct (Z.eqb_spec rank 0) as [->|Hne].
    + apply ops_ok_naive_sends.
    + simpl. repeat split; lia.
  - injection H as <- _. unfold ring_ops. rewrite (Z.eqb_sym 0 rank).
    destruct (Z.eqb_spec rank 0) as [->|Hne].
    + simpl. repeat split; lia.
    + destruct (negb (rank =? num_procs - 1)); simpl; repeat split; lia.
  - destruct (chunk_plan (total_of data) cs) as [[plan fin]|] eqn:Hp; [|discriminate].
    injection H as <- _.
    destruct (chunk_plan_tiles _ _ _ _ Ht Hp) as [Htl Hpos].
    rewrite <- (app_nil_r (flat_map _ plan)).
    apply ops_ok_chunked; auto; try lia.
    apply pipelined_ring_chunk_body.
  - destruct (chunk_plan (total_of data) cs) as [[plan fin]|] eqn:Hp; [|discriminate].
    injection H as <- _.
    destruct (chunk_plan_tiles _ _ _ _ Ht Hp) as [Htl Hpos].
    apply ops_ok_chunked; auto; try lia.
    + apply asynchronous_ring_chunk_body.
    + intros v ->. unfold asynchronous_ring_tail.
      destruct (0 =? rank); reflexivity.
  - destruct (chunk_plan (total_of data) cs) as [[plan fin]|] eqn:Hp; [|discriminate].
    injection H as <- _.
    destruct (chunk_plan_tiles _ _ _ _ Ht Hp) as [Htl Hpos].
    apply ops_ok_chunked; auto; try lia.
    apply bintree_chunk_body.
Qed.

Lemma links_agree name s num_procs d :
  0 <= s < num_procs -> 0 <= d < num_procs ->
  sends_link name s num_procs d = recvs_link name s d.
Proof.
  intros Hs Hd. destruct name; unfold sends_link, recvs_link; try reflexivity.
  - destruct (Z.eqb_spec 0 s), (Z.eqb_spec 0 d), (Z.leb_spec 1 d),
      (Z.ltb_spec d num_procs); simpl; try reflexivity; lia.
  - destruct (Z.eqb_spec 0 s), (Z.eqb_spec 0 d), (Z.eqb_spec s (num_procs - 1)),
      (Z.eqb_spec (s + 1) d), (Z.eqb_spec (d - 1) s); simpl; try reflexivity; lia.
  - destruct (Z.eqb_spec 0 s), (Z.eqb_spec 0 d), (Z.eqb_spec s (num_procs - 1)),
      (Z.eqb_spec (s + 1) d), (Z.eqb_spec (d - 1) s); simpl; try reflexivity; lia.
  - destruct (Z.eqb_spec 0 s), (Z.eqb_spec 0 d), (Z.eqb_spec s (num_procs - 1)),
      (Z.eqb_spec (s + 1) d), (Z.eqb_spec (d - 1) s); simpl; try reflexivity; lia.
  - destruct (Z.eqb_spec d 0) as [->|Hd0]; simpl.
    + unfold Tree.left_child, Tree.right_child.
      destruct (Z.eqb_spec (s * 2 + 1) 0), (Z.eqb_spec (s * 2 + 2) 0); try lia;
        rewrite ?andb_false_r; reflexivity.
    + pose proof (TreeFacts.parent_child s d ltac:(lia) ltac:(lia)) as Hpc.
      unfold Tree.left_child, Tree.right_child in *.
      destruct (Z.eqb_spec (Tree.parent d) s) as [He|He].
      * apply Hpc in He.
        destruct (Z.eqb_spec (s * 2 + 1) d), (Z.eqb_spec (s * 2 + 2) d),
          (Z.ltb_spec (s * 2 + 1) num_procs),
          (Z.ltb_spec (s * 2 + 2) num_procs); simpl; try reflexivity; lia.
      * destruct (Z.eqb_spec (s * 2 + 1) d), (Z.eqb_spec (s * 2 + 2) d); simpl;
          rewrite ?andb_false_r; try reflexivity; exfalso; apply He, Hpc; auto.
Qed.

Lemma flat_map_if (b : bool) (plan : list chunk) :
  flat_map (fun c => if b then [c] else []) plan = if b then plan else [].
Proof.
  destruct b; induction plan as [|c rest IH]; simpl; congruence.
Qed.

Lemma flat_map_ext_if (f : chunk -> list chunk) (b : bool) plan :
  (forall c, f c = if b then [c] else []) ->
  flat_map f plan = if b then plan else [].
Proof.
  intros H. rewrite <- flat_map_if. apply flat_map_ext. exact H.
Qed.

Lemma sends_to_flat_map d (body : chunk -> list op) plan :
  sends_to d (flat_map body plan) = flat_map (fun c => sends_to d (body c)) plan.
Proof.
  induction plan as [|c rest IH]; simpl; [reflexivity|].
  rewrite sends_to_app, IH. reflexivity.
Qed.

Lemma recvs_from_flat_map s (body : chunk -> list op) plan :
  recvs_from s (flat_map body plan) =
  flat_map (fun c => recvs_from s (body c)) plan.
Proof.
  induction plan as [|c rest IH]; simpl; [reflexivity|].
  rewrite recvs_from_app, IH. reflexivity.
Qed.

Lemma zrange_nil lo hi : hi <= lo -> zrange lo hi = [].
Proof.
  intros H. unfold zrange. replace (Z.to_nat (hi - lo)) with 0%nat by lia.
  reflexivity.
Qed.

Lemma zrange_cons lo hi : lo < hi -> zrange lo hi = lo :: zrange (lo + 1) hi.
Proof.
  intros H. unfold zrange.
  replace (Z.to_nat (hi - lo)) with (S (Z.to_nat (hi - (lo + 1)))) by lia.
  simpl. f_equal; [lia|].
  rewrite <- seq_shift, map_map. apply map_ext. intros i. lia.
Qed.

Lemma sends_to_naive d total l :
  NoDup l ->
  sends_to d (map (fun j => Send 0 total j) l) =
  if existsb (Z.eqb d) l then [(0, total)] else [].
Proof.
  induction 1 as [|j l Hnin Hnd IH]; simpl; [reflexivity|].
  fold (sends_to d (map (fun j => Send 0 total j) l)). rewrite IH.
  rewrite (Z.eqb_sym j d).
  destruct (Z.eqb_spec d j) as [->|Hne]; simpl; [|reflexivity].
  destruct (existsb (Z.eqb j) l) eqn:He; [|reflexivity].
  apply existsb_exists in He. destruct He as (x & Hx & Hjx).
  apply Z.eqb_eq in Hjx. subst x. contradiction.
Qed.

Lemma zrange_NoDup lo hi : NoDup (zrange lo hi).
Proof.
  unfold zrange. apply Finite.Injective_map_NoDup.
  - intros a b. lia.
  - apply seq_NoDup.
Qed.

Lemma existsb_zrange d lo hi :
  existsb (Z.eqb d) (zrange lo hi) = (lo <=? d) && (d <? hi).
Proof.
  destruct (existsb (Z.eqb d) (zrange lo hi)) eqn:He.
  - apply existsb_exists in He. destruct He as (x & Hx & Hdx).
    apply Z.eqb_eq in Hdx. subst x. apply in_zrange in Hx.
    symmetry. apply andb_true_iff. rewrite Z.leb_le, Z.ltb_lt. exact Hx.
  - destruct (Z.leb_spec lo d), (Z.ltb_spec d hi); simpl; try reflexivity.
    assert (Hin : In d (zrange lo hi)) by (apply in_zrange; lia).
    assert (existsb (Z.eqb d) (zrange lo hi) = true).
    { apply existsb_exists. exists d. split; [exact Hin|apply Z.eqb_refl]. }
    congruence.
Qed.

Section Links.

Variables (num_procs total : Z).

Lemma sends_to_pipelined_ring_body s d c :
  sends_to d (pipelined_ring_body s num_procs c) =
  if sends_link pipelined_ring_bcast s num_procs d then [c] else [].
Proof.
  destruct c as [j cs]. unfold pipelined_ring_body, sends_link.
  destruct (0 =? s); cbn [orb andb];
    [|destruct (negb (s =? num_procs - 1)); cbn [orb andb]];
    unfold sends_to; simpl; try reflexivity;
    destruct (s + 1 =? d); reflexivity.
Qed.

Lemma recvs_from_pipelined_ring_body s d c :
  recvs_from s (pipelined_ring_body d num_procs c) =
  if recvs_link pipelined_ring_bcast s d then [c] else [].
Proof.
  destruct c as [j cs]. unfold pipelined_ring_body, recvs_link.
  destruct (0 =? d); cbn [negb andb]; [reflexivity|].
  destruct (negb (d =? num_procs - 1)); unfold recvs_from; simpl;
    destruct (d - 1 =? s); reflexivity.
Qed.

Lemma sends_to_asynchronous_ring_body s d c :
  sends_to d (asynchronous_ring_body s num_procs c) =
  if sends_link asynchronous_pipelined_ring_bcast s num_procs d then [c] else [].
Proof.
  destruct c as [j cs]. unfold asynchronous_ring_body, sends_link.
  destruct (0 =? s); cbn [orb andb];
    [|destruct (negb (s =? num_procs - 1)); cbn [orb andb]];
    unfold sends_to; simpl; try reflexivity;
    destruct (s + 1 =? d); reflexivity.
Qed.

Lemma recvs_from_asynchronous_ring_body s d c :
  recvs_from s (asynchronous_ring_body d num_procs c) =
  if recvs_link asynchronous_pipelined_ring_bcast s d then [c] else [].
Proof.
  destruct c as [j cs]. unfold asynchronous_ring_body, recvs_link.
  destruct (0 =? d); cbn [negb andb]; [reflexivity|].
  destruct (negb (d =? num_procs - 1)); unfold recvs_from; simpl;
    destruct (d - 1 =? s); reflexivity.
Qed.

Lemma sends_to_bintree_body s d c :
  sends_to d (bintree_body s num_procs c) =
  if sends_link asynchronous_pipelined_bintree_bcast s num_procs d
  then [c] else [].
Proof.
  destruct c as [j cs]. unfold bintree_body, sends_link.
  rewrite !sends_to_app.
  replace (sends_to d (if negb (s =? 0) then [Recv j cs (Tree.parent s)] else []))
    with (@nil chunk) by (destruct (negb (s =? 0)); reflexivity).
  unfold Tree.left_child, Tree.right_child.
  destruct (s * 2 + 1 <? num_procs), (s * 2 + 2 <? num_procs);
    unfold sends_to; simpl;
    destruct (Z.eqb_spec (s * 2 + 1) d), (Z.eqb_spec (s * 2 + 2) d);
    simpl; try reflexivity; lia.
Qed.

Lemma recvs_from_bintree_body s d c :
  recvs_from s (bintree_body d num_procs c) =
  if recvs_link asynchronous_pipelined_bintree_bcast s d then [c] else [].
Proof.
  destruct c as [j cs]. unfold bintree_body, recvs_link.
  rewrite !recvs_from_app.
  replace (recvs_from s (if Tree.left_child d <? num_procs
                         then [Isend j cs (Tree.left_child d) 0] else []))
    with (@nil chunk) by (destruct (Tree.left_child d <? num_procs); reflexivity).
  replace (recvs_from s (if Tree.right_child d <? num_procs
                         then [Isend j cs (Tree.right_child d) 1] else []))
    with (@nil chunk) by (destruct (Tree.right_child d <? num_procs); reflexivity).
  rewrite !app_nil_r.
  destruct (negb (d =? 0)); unfold recvs_from; simpl; [|reflexivity].
  destruct (Tree.parent d =? s); reflexivity.
Qed.

(** What the statements of rank [s] send to [d]: the payload of the
    implementation when [s] has a link to [d], nothing otherwise. *)
Lemma sends_to_bcast_ops name s cs l final pl d :
  bcast_ops s num_procs total name cs = Some (l, final) ->
  payload name total cs = Some pl ->
  sends_to d l = if sends_link name s num_procs d then pl else [].
Proof.
  destruct name; unfold bcast_ops, payload, sends_link; intros H Hp.
  - injection H as <- _. reflexivity.
  - injection H as <- _. injection Hp as <-. unfold naive_ops.
    destruct (0 =? s); cbn [andb].
    + rewrite sends_to_naive by apply zrange_NoDup.
      rewrite existsb_zrange. reflexivity.
    + reflexivity.
  - injection H as <- _. injection Hp as <-. unfold ring_ops.
    destruct (0 =? s); cbn [orb andb];
      [|destruct (negb (s =? num_procs - 1)); cbn [orb andb]];
      unfold sends_to; simpl; try reflexivity;
      destruct (s + 1 =? d); reflexivity.
  - destruct (chunk_plan total cs) as [[plan fin]|]; [|discriminate].
    injection H as <- _. injection Hp as <-.
    rewrite sends_to_flat_map. apply flat_map_ext_if.
    apply sends_to_pipelined_ring_body.
  - destruct (chunk_plan total cs) as [[plan fin]|]; [|discriminate].
    injection H as <- _. injection Hp as <-.
    rewrite sends_to_app, sends_to_flat_map.
    replace (sends_to d (asynchronous_ring_tail s)) with (@nil chunk)
      by (unfold asynchronous_ring_tail; destruct (0 =? s); reflexivity).
    rewrite app_nil_r. apply flat_map_ext_if.
    apply sends_to_asynchronous_ring_body.
  - destruct (chunk_plan total cs) as [[plan fin]|]; [|discriminate].
    injection H as <- _. injection Hp as <-.
    rewrite sends_to_app, sends_to_flat_map. simpl. rewrite app_nil_r.
    apply flat_map_ext_if. apply sends_to_bintree_body.
Qed.

Lemma recvs_from_bcast_ops name d cs l final pl s :
  bcast_ops d num_procs total name cs = Some (l, final) ->
  payload name total cs = Some pl ->
  recvs_from s l = if recvs_link name s d then pl else [].
Proof.
  destruct name; unfold bcast_ops, payload, recvs_link; intros H Hp.
  - injection H as <- _. reflexivity.
  - injection H as <- _. injection Hp as <-. unfold naive_ops.
    destruct (0 =? d); cbn [negb andb].
    + induction (zrange 1 num_procs); simpl; auto.
    + unfold recvs_from. cbn [flat_map recvs_of_op].
      destruct (0 =? s); reflexivity.
  - injection H as <- _. injection Hp as <-. unfold ring_ops.
    destruct (0 =? d); cbn [negb andb]; [reflexivity|].
    destruct (negb (d =? num_procs - 1)); unfold recvs_from; simpl;
      destruct (d - 1 =? s); reflexivity.
  - destruct (chunk_plan total cs) as [[plan fin]|]; [|discriminate].
    injection H as <- _. injection Hp as <-.
    rewrite recvs_from_flat_map. apply flat_map_ext_if.
    apply recvs_from_pipelined_ring_body.
  - destruct (chunk_plan total cs) as [[plan fin]|]; [|discriminate].
    injection H as <- _. injection Hp as <-.
    rewrite recvs_from_app, recvs_from_flat_map.
    replace (recvs_from s (asynchronous_ring_tail d)) with (@nil chunk)
      by (unfold asynchronous_ring_tail; destruct (0 =? d); reflexivity).
    rewrite app_nil_r. apply flat_map_ext_if.
    apply recvs_from_asynchronous_ring_body.
  - destruct (chunk_plan total cs) as [[plan fin]|]; [|discriminate].
    injection H as <- _. injection Hp as <-.
    rewrite recvs_from_app, recvs_from_flat_map. simpl. rewrite app_nil_r.
    apply flat_map_ext_if. apply recvs_from_bintree_body.
Qed.

Lemma bcast_ops_payload name r cs l final :
  bcast_ops r num_procs total name cs = Some (l, final) ->
  exists pl, payload name total cs = Some pl.
Proof.
  destruct name; simpl; intros H; try (eexists; reflexivity);
    destruct (chunk_plan total cs) as [[plan fin]|]; try discriminate;
    eexists; reflexivity.
Qed.

Lemma programs_some name cs progs r :
  programs name num_procs total cs = Some progs ->
  0 <= r < num_procs ->
  exists final, bcast_ops r num_procs total name cs = Some (progs r, final).
Proof.
  unfold programs. intros H Hr.
  destruct (forallb _ _) eqn:Hall; [|discriminate].
  injection H as <-.
  rewrite forallb_forall in Hall.
  specialize (Hall r (proj2 (in_zrange 0 num_procs r) Hr)).
  destruct (bcast_ops r num_procs total name cs) as [[l f]|]; [|discriminate].
  exists f. reflexivity.
Qed.

End Links.

(** ** The invariant holds at the start *)
Lemma start_inv name num_procs data garbage junk cs progs :
  programs name num_procs (total_of data) cs = Some progs ->
  (forall r, length (garbage r) = length data) ->
  inv num_procs data (start progs data garbage junk).
Proof.
  intros Hp Hg. split; [|split]; simpl.
  - intros r Hr. apply in_group_iff in Hr.
    destruct (programs_some _ _ _ _ _ _ Hp Hr) as [f Hf].
    split; simpl.
    + destruct (r =? 0); [reflexivity|apply Hg].
    + exists (valid0 data r). split; [|split].
      * unfold valid0, total_of. destruct (r =? 0); lia.
      * unfold valid0. destruct (r =? 0); reflexivity.
      * eapply bcast_ops_ok. exact Hf.
  - intros s d Hs Hd. unfold matched. simpl.
    apply in_group_iff in Hs, Hd.
    destruct (programs_some _ _ _ _ _ _ Hp Hs) as [fs Hfs].
    destruct (programs_some _ _ _ _ _ _ Hp Hd) as [fd Hfd].
    destruct (bcast_ops_payload _ _ _ _ _ _ _ Hfs) as [pl Hpl].
    rewrite (sends_to_bcast_ops _ _ _ _ _ _ _ _ d Hfs Hpl).
    rewrite (recvs_from_bcast_ops _ _ _ _ _ _ _ _ s Hfd Hpl).
    rewrite (links_agree name s num_procs d Hs Hd). reflexivity.
  - left. reflexivity.
Qed.

(** Every run from the start that leaves no rank with a statement to
    execute leaves every buffer equal to the data of rank 0. *)
Lemma bcast_safe name num_procs data garbage junk cs progs sched w r :
  programs name num_procs (total_of data) cs = Some progs ->
  (forall x, length (garbage x) = length data) ->
  run num_procs sched (start progs data garbage junk) = Some w ->
  all_done num_procs w = true ->
  0 <= r < num_procs ->
  buffer (procs w r) = data.
Proof.
  intros Hp Hg Hrun Hdone Hr.
  eapply inv_done; eauto.
  eapply run_inv; [|exact Hrun].
  eapply start_inv; eauto.
Qed.

Lemma wait_slot_valid slot p :
  valid_requests p ->
  exists p', wait_slot slot p = Some p' /\ valid_requests p'.
Proof.
  intros Hv. unfold wait_slot. destruct (requests p slot) eqn:Hq.
  - exists p. split; [reflexivity|exact Hv].
  - exfalso. apply (Hv slot). exact Hq.
  - eexists. split; [reflexivity|].
    intros x. simpl. unfold set_request.
    destruct (Nat.eqb x slot); [discriminate|apply Hv].
Qed.

Lemma wait_slots_valid slots : forall p,
  valid_requests p ->
  exists p', wait_slots slots p = Some p' /\ valid_requests p'.
Proof.
  induction slots as [|s rest IH]; intros p Hv; simpl.
  - exists p. split; [reflexivity|exact Hv].
  - destruct (wait_slot_valid s p Hv) as (q & -> & Hq). apply IH. exact Hq.
Qed.

Lemma run_app num_procs l1 l2 w :
  run num_procs (l1 ++ l2) w =
  match run num_procs l1 w with
  | Some w1 => run num_procs l2 w1
  | None => None
  end.
Proof.
  revert w. induction l1 as [|r rest IH]; intros w; simpl; [reflexivity|].
  destruct (in_group num_procs r); [|reflexivity].
  destruct (step num_procs r w); try reflexivity. apply IH.
Qed.

Lemma slice_length_le off count (b : list Z) :
  0 <= count -> Z.of_nat (length (slice off count b)) <= count.
Proof.
  intros Hc. unfold slice. rewrite length_firstn. lia.
Qed.

Section Progress.

Variables (num_procs : Z) (data : list Z).

Lemma rank_step w k o rest :
  inv num_procs data w ->
  in_group num_procs k = true ->
  ops (procs w k) = o :: rest ->
  runnable num_procs k o ->
  valid_requests (procs w k) ->
  (forall s, in_group num_procs s = true -> s < k -> ops (procs w s) = []) ->
  (forall c, o = Bcast c -> k <> 0 -> coll w <> None) ->
  exists w',
    step num_procs k w = Next w' /\
    ops (procs w' k) = rest /\
    valid_requests (procs w' k) /\
    (forall r, r <> k -> procs w' r = procs w r) /\
    (coll w <> None -> coll w' <> None) /\
    (forall c, o = Bcast c -> k = 0 -> coll w' <> None).
Proof.
  intros Hinv Hk Hops Hrun Hval Hlow Hb.
  unfold step. rewrite Hops.
  destruct o as [count|off count dest|off count src|off count dest slot|slot|cnt];
    simpl in Hrun.
  - (* Bcast *)
    destruct (Z.eqb_spec k 0) as [->|Hne].
    + eexists. split; [reflexivity|]. simpl. rewrite set_proc_same.
      repeat split; auto; try discriminate.
      intros r Hr. apply set_proc_other. exact Hr.
    + destruct (coll w) as [d0|] eqn:Hc;
        [|exfalso; eapply Hb; eauto].
      eexists. split; [reflexivity|]. simpl. rewrite set_proc_same.
      repeat split; auto; try congruence.
      intros r Hr. apply set_proc_other. exact Hr.
  - (* Send *)
    destruct Hrun as [Hc Hd]. rewrite Hd.
    destruct (Z.ltb_spec count 0); [lia|]. simpl.
    eexists. split; [reflexivity|]. simpl. rewrite set_proc_same.
    repeat split; auto; try discriminate.
    intros r Hr. apply set_proc_other. exact Hr.
  - (* Recv *)
    destruct Hrun as (Hc & Hs & Hlt). rewrite Hs.
    destruct (Z.ltb_spec count 0); [lia|]. simpl.
    pose proof Hinv as (_ & Hmat & _).
    specialize (Hmat src k Hs Hk). unfold matched in Hmat.
    rewrite Hops, (Hlow src Hs Hlt) in Hmat. simpl in Hmat.
    rewrite Z.eqb_refl, app_nil_r in Hmat. simpl in Hmat.
    destruct (take_first src k (net w)) as [[d0 net']|] eqn:Htf.
    + destruct (take_first_some _ _ _ _ _ Htf) as [Hhd _].
      rewrite Hhd in Hmat. injection Hmat as Hd0 _.
      unfold slice_of in Hd0. simpl in Hd0. subst d0.
      pose proof (slice_length_le off count data Hc).
      destruct (Z.ltb_spec count (Z.of_nat (length (slice off count data))));
        [lia|].
      eexists. split; [reflexivity|]. simpl. rewrite set_proc_same.
      repeat split; auto; try discriminate.
      intros r Hr. apply set_proc_other. exact Hr.
    + apply take_first_none in Htf. rewrite Htf in Hmat. discriminate.
  - (* Isend *)
    destruct Hrun as [Hc Hd]. rewrite Hd.
    destruct (Z.ltb_spec count 0); [lia|]. simpl.
    eexists. split; [reflexivity|]. simpl. rewrite set_proc_same.
    repeat split; auto; try discriminate.
    + intros x. simpl. unfold set_request.
      destruct (Nat.eqb x slot); [discriminate|apply Hval].
    + intros r Hr. apply set_proc_other. exact Hr.
  - (* Wait *)
    destruct (wait_slot_valid slot (with_ops rest (procs w k)))
      as (p' & Hw & Hv'); [exact Hval|].
    rewrite Hw. destruct (wait_slot_frame _ _ _ Hw) as [Ho _].
    eexists. split; [reflexivity|]. simpl. rewrite set_proc_same.
    repeat split; auto; try discriminate.
    intros r Hr. apply set_proc_other. exact Hr.
  - (* Waitall *)
    destruct (wait_slots_valid (seq 0 cnt) (with_ops rest (procs w k)))
      as (p' & Hw & Hv'); [exact Hval|].
    rewrite Hw. destruct (wait_slots_frame _ _ _ Hw) as [Ho _].
    eexists. split; [reflexivity|]. simpl. rewrite set_proc_same.
    repeat split; auto; try discriminate.
    intros r Hr. apply set_proc_other. exact Hr.
Qed.

(** Rank [k] runs to the end of its statements once the lower ranks have. *)
Lemma rank_runs k : forall l w,
  ops (procs w k) = l ->
  Forall (runnable num_procs k) l ->
  inv num_procs data w ->
  in_group num_procs k = true ->
  valid_requests (procs w k) ->
  (forall s, in_group num_procs s = true -> s < k -> ops (procs w s) = []) ->
  (has_bcast l -> k <> 0 -> coll w <> None) ->
  exists w',
    run num_procs (repeat k (length l)) w = Some w' /\
    ops (procs w' k) = [] /\
    (forall r, r <> k -> procs w' r = procs w r) /\
    inv num_procs data w' /\
    (coll w <> None -> coll w' <> None) /\
    (has_bcast l -> k = 0 -> coll w' <> None).
Proof.
  induction l as [|o rest IH]; intros w Hops Hrun Hinv Hk Hval Hlow Hb.
  - exists w. simpl. split; [reflexivity|]. split; [exact Hops|].
    split; [reflexivity|]. split; [exact Hinv|]. split; [tauto|].
    intros [c []].
  - inversion Hrun as [|? ? Ho Hrest]; subst.
    destruct (rank_step w k o rest Hinv Hk Hops Ho Hval Hlow)
      as (w1 & Hstep & Hops1 & Hval1 & Hoth1 & Hc1 & Hb1).
    { intros c -> Hne. apply Hb; [|exact Hne]. exists c. left. reflexivity. }
    assert (Hinv1 : inv num_procs data w1) by (eapply step_inv; eauto).
    destruct (IH w1 Hops1 Hrest Hinv1 Hk Hval1) as
      (w' & Hrun' & Hops' & Hoth' & Hinv' & Hc' & Hb').
    { intros s Hs Hlt. rewrite Hoth1 by lia. apply Hlow; assumption. }
    { intros [c Hc] Hne. apply Hc1. apply Hb; [|exact Hne].
      exists c. right. exact Hc. }
    exists w'. simpl. rewrite Hk, Hstep.
    split; [exact Hrun'|]. split; [exact Hops'|]. split; [|split; [exact Hinv'|]].
    + intros r Hr. rewrite Hoth' by exact Hr. apply Hoth1. exact Hr.
    + split; [tauto|].
      intros [c [Hc|Hc]] H0.
      * apply Hc'. eapply Hb1; eauto.
      * apply Hb'; [exists c; exact Hc|exact H0].
Qed.

End Progress.

Lemma zrange_snoc (m : nat) :
  zrange 0 (Z.of_nat (S m)) = zrange 0 (Z.of_nat m) ++ [Z.of_nat m].
Proof.
  unfold zrange. rewrite !Z.sub_0_r, !Nat2Z.id.
  rewrite seq_S, map_app. reflexivity.
Qed.

Lemma runnable_chunked num_procs k (body : chunk -> list op) tail plan :
  Forall (fun c => 0 < snd c) plan ->
  (forall c, 0 < snd c -> Forall (runnable num_procs k) (body c)) ->
  Forall (runnable num_procs k) tail ->
  Forall (runnable num_procs k) (flat_map body plan ++ tail).
Proof.
  intros Hpos Hbody Htail. apply Forall_app. split; [|exact Htail].
  apply Forall_flat_map. eapply Forall_impl; [|exact Hpos].
  exact Hbody.
Qed.

Lemma bcast_ops_runnable name r num_procs total cs l final :
  0 <= total -> 0 <= r < num_procs ->
  defined_for name num_procs = true ->
  bcast_ops r num_procs total name cs = Some (l, final) ->
  Forall (runnable num_procs r) l.
Proof.
  intros Ht Hr Hdef.
  assert (Hg : forall x, 0 <= x < num_procs -> in_group num_procs x = true)
    by (intros x; apply in_group_iff).
  destruct name; unfold bcast_ops, defined_for in *; intros H.
  - injection H as <- _. repeat constructor.
  - injection H as <- _. unfold naive_ops.
    destruct (Z.eqb_spec 0 r) as [<-|Hne].
    + apply Forall_forall. intros o Ho. apply in_map_iff in Ho.
      destruct Ho as (j & <- & Hj). apply in_zrange in Hj. simpl.
      split; [lia|]. apply Hg. lia.
    + repeat constructor; try lia. apply Hg. lia.
  - injection H as <- _. unfold ring_ops. apply Z.leb_le in Hdef.
    destruct (Z.eqb_spec 0 r) as [<-|Hne].
    + repeat constructor; try lia. apply Hg. lia.
    + destruct (Z.eqb_spec r (num_procs - 1)); simpl;
        repeat constructor; try lia; apply Hg; lia.
  - destruct (chunk_plan total cs) as [[plan fin]|] eqn:Hp; [|discriminate].
    injection H as <- _. apply Z.leb_le in Hdef.
    destruct (chunk_plan_tiles _ _ _ _ Ht Hp) as [_ Hpos].
    rewrite <- (app_nil_r (flat_map _ plan)).
    apply runnable_chunked; [exact Hpos| |constructor].
    intros [j c] Hc. simpl in Hc. unfold pipelined_ring_body.
    destruct (Z.eqb_spec 0 r) as [<-|Hne].
    + repeat constructor; try lia. apply Hg. lia.
    + destruct (Z.eqb_spec r (num_procs - 1)); simpl;
        repeat constructor; try lia; apply Hg; lia.
  - destruct (chunk_plan total cs) as [[plan fin]|] eqn:Hp; [|discriminate].
    injection H as <- _. apply Z.leb_le in Hdef.
    destruct (chunk_plan_tiles _ _ _ _ Ht Hp) as [_ Hpos].
    apply runnable_chunked; [exact Hpos| |].
    + intros [j c] Hc. simpl in Hc. unfold asynchronous_ring_body.
      destruct (Z.eqb_spec 0 r) as [<-|Hne].
      * repeat constructor; try lia. apply Hg. lia.
      * destruct (Z.eqb_spec r (num_procs - 1)); simpl;
          repeat constructor; try lia; apply Hg; lia.
    + unfold asynchronous_ring_tail. destruct (0 =? r); repeat constructor.
  - destruct (chunk_plan total cs) as [[plan fin]|] eqn:Hp; [|discriminate].
    injection H as <- _.
    destruct (chunk_plan_tiles _ _ _ _ Ht Hp) as [_ Hpos].
    apply runnable_chunked; [exact Hpos| |repeat constructor].
    intros [j c] Hc. simpl in Hc. unfold bintree_body.
    apply Forall_app. split; [|apply Forall_app; split].
    + destruct (Z.eqb_spec r 0) as [->|Hne]; simpl; repeat constructor; try lia.
      * apply Hg. pose proof (TreeFacts.parent_lt r). lia.
      * pose proof (TreeFacts.parent_lt r). lia.
    + destruct (Z.ltb_spec (Tree.left_child r) num_procs);
        repeat constructor; try lia.
      apply Hg. unfold Tree.left_child in *. lia.
    + destruct (Z.ltb_spec (Tree.right_child r) num_procs);
        repeat constructor; try lia.
      apply Hg. unfold Tree.right_child in *. lia.
Qed.

(** Only the library broadcast calls MPI_Bcast, and then every rank does. *)
Lemma has_bcast_root name r num_procs total cs l final l0 final0 :
  bcast_ops r num_procs total name cs = Some (l, final) ->
  bcast_ops 0 num_procs total name cs = Some (l0, final0) ->
  has_bcast l -> has_bcast l0.
Proof.
  assert (Hno : forall body tail (plan : list chunk),
             (forall c c', ~ In (Bcast c') (body c)) ->
             (forall c', ~ In (Bcast c') tail) ->
             ~ has_bcast (flat_map body plan ++ tail)).
  { intros body tail plan Hb Ht [c' Hin]. apply in_app_or in Hin.
    destruct Hin as [Hin|Hin]; [|eapply Ht; eauto].
    apply in_flat_map in Hin. destruct Hin as (c & _ & Hin). eapply Hb; eauto. }
  destruct name; unfold bcast_ops; intros H H0 Hb.
  - injection H0 as <- _. exists total. left. reflexivity.
  - exfalso. injection H as <- _. destruct Hb as [c Hc]. unfold naive_ops in Hc.
    destruct (0 =? r).
    + apply in_map_iff in Hc. destruct Hc as (j & Hj & _). discriminate.
    + destruct Hc as [Hc|[]]. discriminate.
  - exfalso. injection H as <- _. destruct Hb as [c Hc]. unfold ring_ops in Hc.
    destruct (0 =? r); [destruct Hc as [Hc|[]]; discriminate|].
    destruct (negb (r =? num_procs - 1)); simpl in Hc;
      repeat (destruct Hc as [Hc|Hc]; try discriminate); contradiction.
  - exfalso. destruct (chunk_plan total cs) as [[plan fin]|]; [|discriminate].
    injection H as <- _. rewrite <- (app_nil_r (flat_map _ plan)) in Hb.
    revert Hb. apply Hno; [|intros c' []].
    intros [j c] c' Hin. unfold pipelined_ring_body in Hin.
    destruct (0 =? r); [destruct Hin as [Hc|[]]; discriminate|].
    destruct (negb (r =? num_procs - 1)); simpl in Hin;
      repeat (destruct Hin as [Hin|Hin]; try discriminate); contradiction.
  - exfalso. destruct (chunk_plan total cs) as [[plan fin]|]; [|discriminate].
    injection H as <- _. revert Hb. apply Hno.
    + intros [j c] c' Hin. unfold asynchronous_ring_body in Hin.
      destruct (0 =? r); [destruct Hin as [Hc|[]]; discriminate|].
      destruct (negb (r =? num_procs - 1)); simpl in Hin;
        repeat (destruct Hin as [Hin|Hin]; try discriminate); contradiction.
    + intros c' Hin. unfold asynchronous_ring_tail in Hin.
      destruct (0 =? r); [contradiction|].
      destruct Hin as [Hin|[]]. discriminate.
  - exfalso. destruct (chunk_plan total cs) as [[plan fin]|]; [|discriminate].
    injection H as <- _. revert Hb. apply Hno.
    + intros [j c] c' Hin. unfold bintree_body in Hin.
      destruct (negb (r =? 0)), (Tree.left_child r <? num_procs),
        (Tree.right_child r <? num_procs); simpl in Hin;
        repeat (destruct Hin as [Hin|Hin]; try discriminate); contradiction.
    + intros c' [Hin|[]]. discriminate.
Qed.

Section Completion.

Variables (name : impl) (num_procs : Z) (data : list Z) (cs : Z).

Variables (garbage : Z -> list Z) (progs : Z -> list op).

Hypothesis Hprogs : programs name num_procs (total_of data) cs = Some progs.

Hypothesis Hgarbage : forall r, length (garbage r) = length data.

Hypothesis Hdefined : defined_for name num_procs = true.

Lemma ranks_run (m : nat) :
  Z.of_nat m <= num_procs ->
  exists w,
    run num_procs (canonical_schedule progs (Z.of_nat m))
        (start progs data garbage ReqNull) = Some w /\
    inv num_procs data w /\
    (forall r, 0 <= r < Z.of_nat m -> ops (procs w r) = []) /\
    (forall r, Z.of_nat m <= r ->
               procs w r = procs (start progs data garbage ReqNull) r) /\
    (1 <= Z.of_nat m -> has_bcast (progs 0) -> coll w <> None).
Proof.
  induction m as [|m IH]; intros Hm.
  - exists (start progs data garbage ReqNull).
    split; [reflexivity|]. split; [eapply start_inv; eauto|].
    split; [intros r Hr; lia|]. split; [reflexivity|]. intros H; lia.
  - destruct IH as (w & Hrun & Hinv & Hdone & Hrest & Hcoll); [lia|].
    set (k := Z.of_nat m).
    assert (Hk : 0 <= k < num_procs) by lia.
    destruct (programs_some _ _ _ _ _ _ Hprogs Hk) as [f Hf].
    assert (Hpk : procs w k = procs (start progs data garbage ReqNull) k)
      by (apply Hrest; lia).
    destruct (rank_runs num_procs data k (progs k) w) as
      (w' & Hrun' & Hops' & Hoth' & Hinv' & Hc' & Hb').
    + rewrite Hpk. reflexivity.
    + eapply bcast_ops_runnable; eauto. unfold total_of. lia.
    + exact Hinv.
    + apply in_group_iff. exact Hk.
    + rewrite Hpk. intros slot. simpl. discriminate.
    + intros s Hs Hlt. apply Hdone. apply in_group_iff in Hs. lia.
    + intros Hb Hne. apply Hcoll; [lia|].
      assert (H0 : 0 <= 0 < num_procs) by lia.
      destruct (programs_some _ _ _ _ _ _ Hprogs H0) as [f0 Hf0].
      exact (has_bcast_root _ _ _ _ _ _ _ _ _ Hf Hf0 Hb).
    + exists w'. unfold canonical_schedule in *.
      rewrite zrange_snoc, flat_map_app, run_app, Hrun. simpl.
      rewrite app_nil_r. fold k.
      split; [exact Hrun'|]. split; [exact Hinv'|]. split; [|split].
      * intros r Hr. destruct (Z.eq_dec r k) as [->|Hne]; [exact Hops'|].
        rewrite Hoth' by exact Hne. apply Hdone. lia.
      * intros r Hr. rewrite Hoth' by lia. apply Hrest. lia.
      * intros _ Hb. destruct (Z.eq_dec k 0) as [Hz|Hnz].
        -- apply Hb'; [|exact Hz]. rewrite <- Hz in Hb. exact Hb.
        -- apply Hc'. apply Hcoll; [lia|exact Hb].
Qed.

(** The canonical schedule is a run, and it leaves no rank unfinished. *)
Lemma bcast_completes :
  0 <= num_procs ->
  exists w,
    run num_procs (canonical_schedule progs num_procs)
        (start progs data garbage ReqNull) = Some w /\
    all_done num_procs w = true.
Proof.
  intros Hn.
  destruct (ranks_run (Z.to_nat num_procs)) as (w & Hrun & _ & Hdone & _);
    [lia|].
  rewrite Z2Nat.id in Hrun, Hdone by lia.
  exists w. split; [exact Hrun|].
  unfold all_done. apply forallb_forall. intros r Hr.
  apply in_zrange in Hr. unfold finished. rewrite Hdone by lia. reflexivity.
Qed.

End Completion.

(** ** The root's buffer *)
Lemma existsb_flat_map_false (f : op -> bool) (body : chunk -> list op) plan :
  (forall c, existsb f (body c) = false) ->
  existsb f (flat_map body plan) = false.
Proof.
  intros H. induction plan as [|c rest IH]; simpl; [reflexivity|].
  rewrite existsb_app, H, IH. reflexivity.
Qed.

(** In every branch rank 0 only sends. *)
Lemma root_no_recv name num_procs total cs l final :
  bcast_ops 0 num_procs total name cs = Some (l, final) ->
  existsb is_recv l = false.
Proof.
  destruct name; unfold bcast_ops; intros H.
  - injection H as <- _. reflexivity.
  - injection H as <- _. unfold naive_ops. simpl.
    induction (zrange 1 num_procs); simpl; auto.
  - injection H as <- _. reflexivity.
  - destruct (chunk_plan total cs) as [[plan fin]|]; [|discriminate].
    injection H as <- _. apply existsb_flat_map_false. intros [j c]. reflexivity.
  - destruct (chunk_plan total cs) as [[plan fin]|]; [|discriminate].
    injection H as <- _. rewrite existsb_app.
    rewrite existsb_flat_map_false by (intros [j c]; reflexivity). reflexivity.
  - destruct (chunk_plan total cs) as [[plan fin]|]; [|discriminate].
    injection H as <- _. rewrite existsb_app.
    rewrite existsb_flat_map_false; [reflexivity|].
    intros [j c]. unfold bintree_body. simpl.
    destruct (Tree.left_child 0 <? num_procs), (Tree.right_child 0 <? num_procs);
      reflexivity.
Qed.

Lemma programs_root_no_recv name num_procs total cs progs :
  programs name num_procs total cs = Some progs ->
  existsb is_recv (progs 0) = false.
Proof.
  unfold programs. destruct (forallb _ _); [|discriminate].
  intros H. injection H as <-.
  destruct (bcast_ops 0 num_procs total name cs) as [[l f]|] eqn:Hl;
    [|reflexivity].
  eapply root_no_recv. exact Hl.
Qed.

(** A step of any rank leaves the buffer of a root that has no receive to
    execute as it was. *)
Lemma step_root_buffer num_procs r w w' :
  step num_procs r w = Next w' ->
  existsb is_recv (ops (procs w 0)) = false ->
  buffer (procs w' 0) = buffer (procs w 0) /\
  existsb is_recv (ops (procs w' 0)) = false.
Proof.
  intros Hstep Hno. unfold step in Hstep.
  destruct (Z.eq_dec r 0) as [->|Hne].
  - destruct (ops (procs w 0)) as [|o rest] eqn:Hops; [discriminate|].
    destruct o as [count|off count dest|off count src|off count dest slot|slot|cnt];
      simpl in Hno; try discriminate.
    + simpl in Hstep. injection Hstep as <-. simpl; rewrite ?set_proc_same.
      split; [reflexivity|exact Hno].
    + destruct (count <? 0); [discriminate|].
      destruct (negb (in_group num_procs dest)); [discriminate|].
      injection Hstep as <-. simpl; rewrite ?set_proc_same.
      split; [reflexivity|exact Hno].
    + destruct (count <? 0); [discriminate|].
      destruct (negb (in_group num_procs dest)); [discriminate|].
      injection Hstep as <-. simpl; rewrite ?set_proc_same.
      split; [reflexivity|exact Hno].
    + destruct (wait_slot slot (with_ops rest (procs w 0))) as [p'|] eqn:Hw;
        [|discriminate].
      injection Hstep as <-. simpl; rewrite ?set_proc_same.
      destruct (wait_slot_frame _ _ _ Hw) as [-> ->]. split; [reflexivity|exact Hno].
    + destruct (wait_slots (seq 0 cnt) (with_ops rest (procs w 0))) as [p'|] eqn:Hw;
        [|discriminate].
      injection Hstep as <-. simpl; rewrite ?set_proc_same.
      destruct (wait_slots_frame _ _ _ Hw) as [-> ->]. split; [reflexivity|exact Hno].
  - assert (Hsame : procs w' 0 = procs w 0).
    { destruct (ops (procs w r)) as [|o rest]; [discriminate|].
      destruct o as [count|off count dest|off count src|off count dest slot|slot|cnt].
      - destruct (r =? 0); [injection Hstep as <-|];
          [simpl; apply set_proc_other; lia|].
        destruct (coll w); [|discriminate]. injection Hstep as <-.
        simpl. apply set_proc_other. lia.
      - destruct (count <? 0); [discriminate|].
        destruct (negb (in_group num_procs dest)); [discriminate|].
        injection Hstep as <-. simpl. apply set_proc_other. lia.
      - destruct (count <? 0); [discriminate|].
        destruct (negb (in_group num_procs src)); [discriminate|].
        destruct (take_first src r (net w)) as [[d0 net']|]; [|discriminate].
        destruct (count <? Z.of_nat (length d0)); [discriminate|].
        injection Hstep as <-. simpl. apply set_proc_other. lia.
      - destruct (count <? 0); [discriminate|].
        destruct (negb (in_group num_procs dest)); [discriminate|].
        injection Hstep as <-. simpl. apply set_proc_other. lia.
      - destruct (wait_slot slot _); [|discriminate].
        injection Hstep as <-. simpl. apply set_proc_other. lia.
      - destruct (wait_slots _ _); [|discriminate].
        injection Hstep as <-. simpl. apply set_proc_other. lia. }
    rewrite Hsame. split; [reflexivity|exact Hno].
Qed.

Lemma run_root_buffer num_procs sched : forall w w',
  run num_procs sched w = Some w' ->
  existsb is_recv (ops (procs w 0)) = false ->
  buffer (procs w' 0) = buffer (procs w 0).
Proof.
  induction sched as [|r rest IH]; intros w w' Hrun Hno; simpl in Hrun.
  - injection Hrun as <-. reflexivity.
  - destruct (in_group num_procs r); [|discriminate].
    destruct (step num_procs r w) as [w1| | |e] eqn:Hs; try discriminate.
    destruct (step_root_buffer _ _ _ _ Hs Hno) as [Hb Hno1].
    rewrite (IH _ _ Hrun Hno1). exact Hb.
Qed.

Lemma ops_ok_recvs_beyond data r l : forall v,
  v <= total_of data -> ops_ok data r v l -> Forall (recv_beyond v) l.
Proof.
  induction l as [|o rest IH]; intros v Hv Hok; [constructor|].
  destruct o as [count|off count dest|off count src|off count dest slot|slot|cnt];
    simpl in Hok.
  - destruct Hok as (_ & _ & Hok). constructor; [exact I|].
    eapply Forall_impl; [|apply (IH _ (Z.le_refl _) Hok)].
    intros [] H; simpl in *; auto; lia.
  - constructor; [exact I|]. apply IH; tauto.
  - destruct Hok as (-> & Hc & Hvc & Hok). constructor; [simpl; lia|].
    eapply Forall_impl; [|apply (IH _ Hvc Hok)].
    intros [] H; simpl in *; auto; lia.
  - constructor; [exact I|]. apply IH; tauto.
  - constructor; [exact I|]. apply IH; assumption.
  - constructor; [exact I|]. apply IH; assumption.
Qed.

Lemma sent_region_stable data r l1 o l2 off count : forall v,
  v <= total_of data ->
  ops_ok data r v (l1 ++ o :: l2) ->
  sent_region o = Some (off, count) ->
  Forall (recv_beyond (off + count)) l2.
Proof.
  induction l1 as [|h l1 IH]; intros v Hv Hok Hs.
  - simpl in Hok.
    assert (Hin : off + count <= v /\ ops_ok data r v l2).
    { destruct o; simpl in Hs; try discriminate;
        injection Hs as <- <-; simpl in Hok; tauto. }
    destruct Hin as [Hle Hok2].
    eapply Forall_impl; [|apply (ops_ok_recvs_beyond _ _ _ _ Hv Hok2)].
    intros [] H; simpl in *; auto; lia.
  - simpl in Hok.
    destruct h as [c|o' c d|o' c s|o' c d sl|sl|cnt]; simpl in Hok.
    + destruct Hok as (_ & _ & Hok). exact (IH _ (Z.le_refl _) Hok Hs).
    + apply (IH v); tauto.
    + destruct Hok as (_ & _ & Hvc & Hok). exact (IH _ Hvc Hok Hs).
    + apply (IH v); tauto.
    + apply (IH v); assumption.
    + apply (IH v); assumption.
Qed.

(** ** The links, seen from the receiver *)




(** ** Messages in flight *)

Lemma take_first_in src dst l d l' :
  take_first src dst l = Some (d, l') -> forall m, In m l' -> In m l.
Proof.
  revert d l'. induction l as [|x rest IH]; intros d l' H m Hm; simpl in H.
  - discriminate.
  - destruct (addressed src dst x).
    + injection H as <- <-. right. exact Hm.
    + destruct (take_first src dst rest) as [[y rest']|] eqn:Ht; [|discriminate].
      injection H as <- <-. destruct Hm as [->|Hm]; [left; reflexivity|].
      right. eapply IH; eauto.
Qed.

Lemma step_in_flight num_procs k w w' :
  in_group num_procs k = true ->
  step num_procs k w = Next w' ->
  Forall (in_flight_ok num_procs) (net w) ->
  Forall (in_flight_ok num_procs) (net w').
Proof.
  intros Hk Hstep Hnet. unfold step in Hstep.
  destruct (ops (procs w k)) as [|o rest]; [discriminate|].
  destruct o as [count|off count dest|off count src|off count dest slot|slot|cnt].
  - destruct (k =? 0); [injection Hstep as <-; exact Hnet|].
    destruct (coll w); [|discriminate]. injection Hstep as <-. exact Hnet.
  - destruct (count <? 0); [discriminate|].
    destruct (in_group num_procs dest) eqn:Hd; [|discriminate].
    injection Hstep as <-. simpl. apply Forall_app. split; [exact Hnet|].
    constructor; [split; assumption|constructor].
  - destruct (count <? 0); [discriminate|].
    destruct (negb (in_group num_procs src)); [discriminate|].
    destruct (take_first src k (net w)) as [[d0 net']|] eqn:Htf; [|discriminate].
    destruct (count <? Z.of_nat (length d0)); [discriminate|].
    injection Hstep as <-. simpl. rewrite Forall_forall in *.
    intros m Hm. apply Hnet. eapply take_first_in; eauto.
  - destruct (count <? 0); [discriminate|].
    destruct (in_group num_procs dest) eqn:Hd; [|discriminate].
    injection Hstep as <-. simpl. apply Forall_app. split; [exact Hnet|].
    constructor; [split; assumption|constructor].
  - destruct (wait_slot slot _); [|discriminate]. injection Hstep as <-. exact Hnet.
  - destruct (wait_slots _ _); [|discriminate]. injection Hstep as <-. exact Hnet.
Qed.

Lemma run_in_flight num_procs sched : forall w w',
  run num_procs sched w = Some w' ->
  Forall (in_flight_ok num_procs) (net w) ->
  Forall (in_flight_ok num_procs) (net w').
Proof.
  induction sched as [|r rest IH]; intros w w' Hrun Hnet; simpl in Hrun.
  - injection Hrun as <-. exact Hnet.
  - destruct (in_group num_procs r) eqn:Hr; [|discriminate].
    destruct (step num_procs r w) as [w1| | |e] eqn:Hs; try discriminate.
    eapply IH; [exact Hrun|]. eapply step_in_flight; eauto.
Qed.

Lemma in_msgs m l :
  In m l -> In (m_data m) (msgs (m_src m) (m_dst m) l).
Proof.
  intros H. unfold msgs. apply in_map. apply filter_In. split; [exact H|].
  unfold addressed. rewrite !Z.eqb_refl. reflexivity.
Qed.

Lemma in_recvs_from s l c :
  In c (recvs_from s l) -> In (Recv (fst c) (snd c) s) l.
Proof.
  unfold recvs_from. intros H. apply in_flat_map in H.
  destruct H as (o & Ho & Hc).
  destruct o; simpl in Hc; try contradiction.
  destruct (Z.eqb_spec src s) as [->|]; [|contradiction].
  destruct Hc as [<-|[]]. exact Ho.
Qed.

(** Under the invariant, a message in flight within the group is the root's
    bytes for a chunk that its addressee has yet to receive. *)
Lemma inv_in_flight num_procs data w m :
  inv num_procs data w -> In m (net w) -> in_flight_ok num_procs m ->
  exists off count,
    m_data m = slice off count data /\
    In (Recv off count (m_src m)) (ops (procs w (m_dst m))).
Proof.
  intros (_ & Hmat & _) Hm [Hs Hd].
  specialize (Hmat _ _ Hs Hd). unfold matched in Hmat.
  pose proof (in_msgs _ _ Hm) as Hin.
  assert (Hin' : In (m_data m)
                    (map (slice_of data)
                         (recvs_from (m_src m) (ops (procs w (m_dst m)))))).
  { rewrite Hmat. apply in_or_app. left. exact Hin. }
  apply in_map_iff in Hin'. destruct Hin' as ([off count] & Hdata & Hc).
  exists off, count. split; [symmetry; exact Hdata|].
  exact (in_recvs_from _ _ _ Hc).
Qed.

(** ** No run gets stuck *)

(** What a step changes: the first statement of the rank that moves is
    consumed, the other ranks are untouched, and the collective buffer is
    only ever set, by rank 0 calling MPI_Bcast. *)
Lemma step_frame num_procs k w w' :
  step num_procs k w = Next w' ->
  exists o rest,
    ops (procs w k) = o :: rest /\
    ops (procs w' k) = rest /\
    (forall r, r <> k -> procs w' r = procs w r) /\
    (valid_requests (procs w k) -> valid_requests (procs w' k)) /\
    (coll w' = coll w \/ k = 0 /\ (exists c, o = Bcast c) /\ coll w' <> None).
Proof.
  intros Hstep. unfold step in Hstep.
  destruct (ops (procs w k)) as [|o rest] eqn:Hops; [discriminate|].
  exists o, rest. split; [reflexivity|].
  destruct o as [count|off count dest|off count src|off count dest slot|slot|cnt].
  - destruct (Z.eqb_spec k 0) as [->|Hne].
    + injection Hstep as <-. simpl. rewrite set_proc_same.
      repeat split; auto.
      * intros r Hr. apply set_proc_other. exact Hr.
      * right. repeat split; eauto. discriminate.
    + destruct (coll w) eqn:Hc; [|discriminate]. injection Hstep as <-.
      simpl. rewrite set_proc_same. repeat split; auto.
      intros r Hr. apply set_proc_other. exact Hr.
  - destruct (count <? 0); [discriminate|].
    destruct (negb (in_group num_procs dest)); [discriminate|].
    injection Hstep as <-. simpl. rewrite set_proc_same. repeat split; auto.
    intros r Hr. apply set_proc_other. exact Hr.
  - destruct (count <? 0); [discriminate|].
    destruct (negb (in_group num_procs src)); [discriminate|].
    destruct (take_first src k (net w)) as [[d0 net']|]; [|discriminate].
    destruct (count <? Z.of_nat (length d0)); [discriminate|].
    injection Hstep as <-. simpl. rewrite set_proc_same. repeat split; auto.
    intros r Hr. apply set_proc_other. exact Hr.
  - destruct (count <? 0); [discriminate|].
    destruct (negb (in_group num_procs dest)); [discriminate|].
    injection Hstep as <-. simpl. rewrite set_proc_same. repeat split; auto.
    + intros r Hr. apply set_proc_other. exact Hr.
    + intros Hv x. simpl. unfold set_request.
      destruct (Nat.eqb x slot); [discriminate|apply Hv].
  - destruct (wait_slot slot (with_ops rest (procs w k))) as [p'|] eqn:Hw;
      [|discriminate].
    injection Hstep as <-. simpl. rewrite set_proc_same.
    destruct (wait_slot_frame _ _ _ Hw) as [Ho _].
    repeat split; auto.
    + intros r Hr. apply set_proc_other. exact Hr.
    + intros Hv. destruct (wait_slot_valid slot (with_ops rest (procs w k)) Hv)
        as (q & Hq & Hvq). congruence.
  - destruct (wait_slots (seq 0 cnt) (with_ops rest (procs w k))) as [p'|] eqn:Hw;
      [|discriminate].
    injection Hstep as <-. simpl. rewrite set_proc_same.
    destruct (wait_slots_frame _ _ _ Hw) as [Ho _].
    repeat split; auto.
    + intros r Hr. apply set_proc_other. exact Hr.
    + intros Hv.
      destruct (wait_slots_valid (seq 0 cnt) (with_ops rest (procs w k)) Hv)
        as (q & Hq & Hvq). congruence.
Qed.

Lemma step_ready num_procs k w w' :
  ready num_procs w -> step num_procs k w = Next w' -> ready num_procs w'.
Proof.
  intros [Hrun Hb] Hstep.
  destruct (step_frame _ _ _ _ Hstep) as (o & rest & Hops & Hops' & Hoth & Hval & Hc).
  split.
  - intros r Hr. destruct (Z.eq_dec r k) as [->|Hne].
    + destruct (Hrun k Hr) as [Hf Hv]. rewrite Hops in Hf. rewrite Hops'.
      inversion Hf; subst. split; [assumption|apply Hval; exact Hv].
    + rewrite (Hoth r Hne). apply Hrun. exact Hr.
  - intros Hnone r Hr Hhas.
    destruct Hc as [Hc|(_ & _ & Hc)]; [|contradiction].
    rewrite Hc in Hnone.
    assert (Hold : forall x, has_bcast (ops (procs w' x)) ->
                             has_bcast (ops (procs w x))).
    { intros x [c Hin]. destruct (Z.eq_dec x k) as [->|Hne].
      - rewrite Hops' in Hin. rewrite Hops. exists c. right. exact Hin.
      - rewrite (Hoth x Hne) in Hin. exists c. exact Hin. }
    pose proof (Hb Hnone r Hr (Hold r Hhas)) as [c Hin].
    destruct (Z.eq_dec k 0) as [->|Hne].
    + rewrite Hops in Hin. rewrite Hops'. destruct Hin as [Ho|Hin].
      * (* rank 0 has just called MPI_Bcast: the collective buffer is set *)
        exfalso. subst o. unfold step in Hstep. rewrite Hops in Hstep.
        simpl in Hstep. injection Hstep as <-. simpl in Hc.
        rewrite <- Hc in Hnone. discriminate.
      * exists c. exact Hin.
    + rewrite (Hoth 0) by auto. exists c. exact Hin.
Qed.

Lemma run_ready num_procs sched : forall w w',
  ready num_procs w -> run num_procs sched w = Some w' -> ready num_procs w'.
Proof.
  induction sched as [|r rest IH]; intros w w' Hr Hrun; simpl in Hrun.
  - injection Hrun as <-. exact Hr.
  - destruct (in_group num_procs r); [|discriminate].
    destruct (step num_procs r w) as [w1| | |e] eqn:Hs; try discriminate.
    eapply IH; [|exact Hrun]. eapply step_ready; eauto.
Qed.

(** The lowest rank that has a statement left. *)
Lemma first_unfinished (f : Z -> bool) (m : nat) :
  forallb f (zrange 0 (Z.of_nat m)) = false ->
  exists k, 0 <= k < Z.of_nat m /\ f k = false /\
            forall r, 0 <= r < k -> f r = true.
Proof.
  induction m as [|m IH]; intros H; [discriminate|].
  rewrite zrange_snoc, forallb_app in H. simpl in H.
  destruct (forallb f (zrange 0 (Z.of_nat m))) eqn:Hall.
  - simpl in H. rewrite andb_true_r in H.
    exists (Z.of_nat m). split; [lia|]. split; [exact H|].
    intros r Hr. rewrite forallb_forall in Hall. apply Hall.
    apply in_zrange. lia.
  - destruct (IH eq_refl) as (k & Hk & Hf & Hlow).
    exists k. split; [lia|]. split; assumption.
Qed.

(** Unless every rank has finished, some rank can execute its next
    statement. *)
Lemma progress num_procs data w :
  0 <= num_procs ->
  inv num_procs data w -> ready num_procs w ->
  all_done num_procs w = false ->
  exists k w', in_group num_procs k = true /\ step num_procs k w = Next w'.
Proof.
  intros Hn Hinv [Hrun Hb] Hdone. unfold all_done in Hdone.
  rewrite <- (Z2Nat.id num_procs Hn) in Hdone.
  destruct (first_unfinished _ _ Hdone) as (k & Hk & Hf & Hlow).
  rewrite Z2Nat.id in Hk by exact Hn.
  assert (Hkg : in_group num_procs k = true) by (apply in_group_iff; exact Hk).
  unfold finished in Hf.
  destruct (ops (procs w k)) as [|o rest] eqn:Hops; [discriminate|].
  destruct (Hrun k Hkg) as [Hfor Hval]. rewrite Hops in Hfor.
  inversion Hfor as [|? ? Ho _]; subst.
  assert (Hlow' : forall s, in_group num_procs s = true -> s < k ->
                            ops (procs w s) = []).
  { intros s Hs Hlt. apply in_group_iff in Hs.
    specialize (Hlow s ltac:(lia)). unfold finished in Hlow.
    destruct (ops (procs w s)); [reflexivity|discriminate]. }
  destruct (rank_step num_procs data w k o rest Hinv Hkg Hops Ho Hval Hlow')
    as (w' & Hstep & _).
  - intros c -> Hne Hnone.
    assert (H0 : in_group num_procs 0 = true) by (apply in_group_iff; lia).
    destruct (Hb Hnone k Hkg) as [c' Hin].
    + rewrite Hops. exists c. left. reflexivity.
    + rewrite (Hlow' 0 H0) in Hin by lia. contradiction.
  - exists k, w'. split; assumption.
Qed.

Lemma list_sum_update (f g : Z -> nat) k l :
  NoDup l -> In k l ->
  (forall r, r <> k -> g r = f r) -> f k = S (g k) ->
  list_sum (map f l) = S (list_sum (map g l)).
Proof.
  intros Hnd Hin Hoth Hk. induction l as [|x rest IH]; [contradiction|].
  inversion Hnd as [|? ? Hnin Hnd']; subst. simpl.
  destruct Hin as [->|Hin].
  - rewrite Hk. simpl. do 3 f_equal. apply map_ext_in.
    intros r Hr. symmetry. apply Hoth. intros ->. contradiction.
  - rewrite (IH Hnd' Hin).
    rewrite (Hoth x) by (intros ->; contradiction). lia.
Qed.

(** Each step executes exactly one statement. *)
Lemma step_remaining num_procs k w w' :
  in_group num_procs k = true -> step num_procs k w = Next w' ->
  remaining num_procs w = S (remaining num_procs w').
Proof.
  intros Hk Hstep.
  destruct (step_frame _ _ _ _ Hstep) as (o & rest & Hops & Hops' & Hoth & _).
  unfold remaining. apply (list_sum_update _ _ k).
  - apply zrange_NoDup.
  - apply in_zrange. apply in_group_iff. exact Hk.
  - intros r Hr. rewrite (Hoth r Hr). reflexivity.
  - rewrite Hops, Hops'. reflexivity.
Qed.

Lemma run_remaining num_procs sched : forall w w',
  run num_procs sched w = Some w' ->
  remaining num_procs w = (length sched + remaining num_procs w')%nat.
Proof.
  induction sched as [|r rest IH]; intros w w' Hrun; simpl in Hrun.
  - injection Hrun as <-. reflexivity.
  - destruct (in_group num_procs r) eqn:Hr; [|discriminate].
    destruct (step num_procs r w) as [w1| | |e] eqn:Hs; try discriminate.
    rewrite (step_remaining _ _ _ _ Hr Hs), (IH _ _ Hrun). reflexivity.
Qed.

(** From a state that satisfies the invariants, the statements that are
    left can all be executed. *)
Lemma completes_from num_procs data :
  0 <= num_procs ->
  forall m w,
    remaining num_procs w = m ->
    inv num_procs data w -> ready num_procs w ->
    exists sched w',
      run num_procs sched w = Some w' /\ all_done num_procs w' = true.
Proof.
  intros Hn. induction m as [|m IH]; intros w Hm Hinv Hready.
  - exists [], w. split; [reflexivity|].
    destruct (all_done num_procs w) eqn:Hd; [reflexivity|].
    destruct (progress _ _ _ Hn Hinv Hready Hd) as (k & w' & Hk & Hs).
    rewrite (step_remaining _ _ _ _ Hk Hs) in Hm. discriminate.
  - destruct (all_done num_procs w) eqn:Hd.
    + exists [], w. split; [reflexivity|exact Hd].
    + destruct (progress _ _ _ Hn Hinv Hready Hd) as (k & w1 & Hk & Hs).
      rewrite (step_remaining _ _ _ _ Hk Hs) in Hm. injection Hm as Hm.
      destruct (IH w1 Hm) as (sched & w' & Hrun & Hdone).
      * eapply step_inv; eauto.
      * eapply step_ready; eauto.
      * exists (k :: sched), w'. simpl. rewrite Hk, Hs. split; assumption.
Qed.

Lemma start_ready name num_procs total cs progs data garbage :
  0 <= total ->
  programs name num_procs total cs = Some progs ->
  defined_for name num_procs = true ->
  ready num_procs (start progs data garbage ReqNull).
Proof.
  intros Ht Hp Hdef. split.
  - intros r Hr. apply in_group_iff in Hr.
    destruct (programs_some _ _ _ _ _ _ Hp Hr) as [f Hf]. simpl. split.
    + eapply bcast_ops_runnable; eauto.
    + intros slot. simpl. discriminate.
  - intros _ r Hr Hhas. simpl in *. apply in_group_iff in Hr.
    assert (H0 : 0 <= 0 < num_procs) by lia.
    destruct (programs_some _ _ _ _ _ _ Hp Hr) as [f Hf].
    destruct (programs_some _ _ _ _ _ _ Hp H0) as [f0 Hf0].
    exact (has_bcast_root _ _ _ _ _ _ _ _ _ Hf Hf0 Hhas).
Qed.

End BcastFacts.

(** * Facts about the command line *)

Module ConfigFacts.

Import String Ascii.

Local Open Scope string_scope.

Import Config.



(** ** The implementation names *)

Lemma implementation_of_name_of i : implementation_of (name_of i) = Some i.
Proof. destruct i; reflexivity. Qed.

Lemma implementation_of_some s i :
  implementation_of s = Some i -> s = name_of i.
Proof.
  unfold implementation_of. intros H.
  repeat match type of H with
         | (if String.eqb ?a ?b then _ else _) = _ =>
             destruct (String.eqb_spec a b) as [->|_];
             [injection H as <-; reflexivity|]
         end.
  discriminate.
Qed.

Lemma length_append (s1 s2 : string) :
  String.length (s1 ++ s2) = (String.length s1 + String.length s2)%nat.
Proof.
  induction s1 as [|c s1 IH]; simpl; [reflexivity|]. rewrite IH. reflexivity.
Qed.

(** ** The [-c] loop *)

Lemma scan_chunk_size_no_option args : forall cs,
  existsb is_option args = false -> scan_chunk_size args cs = Some cs.
Proof.
  induction args as [|a rest IH]; intros cs H; simpl in *; [reflexivity|].
  apply orb_false_iff in H. destruct H as [Ha Hrest].
  unfold is_option in Ha. rewrite Ha. apply IH. exact Hrest.
Qed.

Lemma sscanf_d_option : sscanf_d "-c" = None.
Proof. reflexivity. Qed.

Lemma scan_chunk_size_last (pre post : list string) v z : forall cs z',
  scan_chunk_size (pre ++ "-c" :: v :: post)%list cs = Some z' ->
  existsb is_option post = false ->
  sscanf_d v = Some z ->
  z' = z.
Proof.
  induction pre as [|a pre IH]; intros cs z' H Hpost Hv.
  - cbn [app scan_chunk_size] in H. rewrite String.eqb_refl, Hv in H.
    assert (Hvc : (v =? "-c") = false).
    { destruct (String.eqb_spec v "-c") as [->|]; [|reflexivity].
      rewrite sscanf_d_option in Hv. discriminate. }
    cbn [scan_chunk_size] in H. rewrite Hvc in H.
    rewrite scan_chunk_size_no_option in H by exact Hpost.
    injection H as <-. reflexivity.
  - cbn [app scan_chunk_size] in H. destruct (a =? "-c").
    + destruct (pre ++ "-c" :: v :: post)%list as [|v0 rest] eqn:Hl;
        [discriminate|].
      destruct (sscanf_d v0) as [z0|]; [|discriminate].
      exact (IH _ _ H Hpost Hv).
    + exact (IH _ _ H Hpost Hv).
Qed.


End ConfigFacts.

(** * Facts about checksums and report *)

Module HarnessFacts.

Import String Ascii.

Import Harness.

(** The value the chunked loops leave in [chunk_size]. *)
Lemma chunk_size_after total cs :
  1 <= total -> 1 <= cs ->
  exists plan,
    Chunks.chunk_plan total cs =
    Some (plan, if total mod cs =? 0 then cs else total mod cs).
Proof.
  intros Ht Hcs. unfold Chunks.chunk_plan.
  destruct (ChunksFacts.chunk_loop_spec total cs Hcs (Z.to_nat total) 0%nat)
    as (plan & final & Hrun & Htl & _ & _ & Hex & Hne); try lia.
  change (Z.of_nat 0 * cs) with 0 in Hrun, Htl.
  exists plan. rewrite Hrun. do 2 f_equal.
  pose proof (Z.mod_pos_bound total cs ltac:(lia)) as Hb.
  destruct (Z.eqb_spec (total mod cs) 0) as [He|He].
  - apply Hex. exact He.
  - apply Hne; [|lia]. intros ->. simpl in Htl. lia.
Qed.

Lemma wrap32_in_range x : INT_MIN <= x <= INT_MAX -> wrap32 x = x.
Proof.
  unfold wrap32, INT_MIN, INT_MAX. intros H.
  rewrite Z.mod_small by lia. lia.
Qed.

(** When every checksum that arrives is the root's, the loop receives them
    all and leaves [all_ok] set. *)
Lemma root_collect_all_match checksum (n : nat) : forall count,
  root_collect n checksum 1 (repeat checksum n) count =
  mkCollected 1 (count + n) [] [] false.
Proof.
  induction n as [|n IH]; intros count; simpl.
  - rewrite Nat.add_0_r. reflexivity.
  - rewrite Z.eqb_refl. simpl. rewrite IH. f_equal. lia.
Qed.

Lemma checksum_of_in_range : forall buffer acc,
  INT_MIN <= acc <= INT_MAX ->
  INT_MIN <= fold_left (fun checksum b => wrap32 (checksum + b)) buffer acc
          <= INT_MAX.
Proof.
  induction buffer as [|b rest IH]; intros acc Hacc; simpl; [exact Hacc|].
  apply IH. unfold wrap32, INT_MIN, INT_MAX.
  pose proof (Z.mod_pos_bound (acc + b + 2147483648) 4294967296 ltac:(lia)).
  lia.
Qed.

(** ** [%d] written and read back *)

Lemma scan_digits_stop tail acc :
  Config.starts_with_digit tail = false -> Config.scan_digits tail acc = acc.
Proof.
  destruct tail as [|c rest]; simpl; [reflexivity|].
  destruct (Config.digit_of c); [discriminate|reflexivity].
Qed.

Lemma scan_digits_acc d tail : forall acc,
  Config.starts_with_digit tail = false ->
  Config.scan_digits (DecimalString.NilEmpty.string_of_uint d ++ tail)%string
                     (Z.pos acc) =
  Z.pos (Pos.of_uint_acc d acc).
Proof.
  induction d as [|d IH|d IH|d IH|d IH|d IH|d IH|d IH|d IH|d IH|d IH];
    intros acc Ht;
    [apply scan_digits_stop; exact Ht|..];
    cbn [DecimalString.NilEmpty.string_of_uint append Config.scan_digits
         Pos.of_uint_acc];
    match goal with
    | |- context [Config.digit_of ?c] =>
        change (Config.digit_of c) with (Some (Z.of_nat (nat_of_ascii c - 48)))
    end;
    cbv beta iota; rewrite <- (IH _ Ht); f_equal;
    match goal with
    | |- context [Z.of_nat ?n] =>
        let v := eval vm_compute in (Z.of_nat n) in change (Z.of_nat n) with v
    end; lia.
Qed.

Lemma scan_digits_uint d tail :
  Config.starts_with_digit tail = false ->
  Config.scan_digits (DecimalString.NilEmpty.string_of_uint d ++ tail)%string 0 =
  Z.of_N (Pos.of_uint d).
Proof.
  intros Ht.
  induction d as [|d IH|d IH|d IH|d IH|d IH|d IH|d IH|d IH|d IH|d IH];
    [apply scan_digits_stop; exact Ht | exact IH | ..];
    cbn [DecimalString.NilEmpty.string_of_uint append Config.scan_digits
         Pos.of_uint];
    match goal with
    | |- context [Config.digit_of ?c] =>
        change (Config.digit_of c) with (Some (Z.of_nat (nat_of_ascii c - 48)))
    end;
    cbv beta iota;
    match goal with
    | |- Config.scan_digits _ ?a = _ =>
        let v := eval vm_compute in a in change a with v
    end;
    apply scan_digits_acc; exact Ht.
Qed.

Lemma scan_unsigned_uint d tail :
  d <> Decimal.Nil ->
  Config.starts_with_digit tail = false ->
  Config.scan_unsigned (DecimalString.NilEmpty.string_of_uint d ++ tail)%string =
  Some (Z.of_N (Pos.of_uint d)).
Proof.
  intros Hd Ht. unfold Config.scan_unsigned.
  rewrite scan_digits_uint by exact Ht.
  destruct d; [contradiction|..]; reflexivity.
Qed.

(** What [%d] prints, [%d] reads back, and stops reading where the digits
    end. *)
Lemma sscanf_d_decimal z tail :
  Config.starts_with_digit tail = false ->
  Config.sscanf_d (decimal z ++ tail)%string = Some z.
Proof.
  intros Ht. unfold decimal.
  destruct z as [|p|p]; cbn [Z.to_int DecimalString.NilZero.string_of_int].
  - change (Config.sscanf_d (String "0" tail) = Some 0).
    unfold Config.sscanf_d, Config.scan_unsigned. simpl.
    rewrite scan_digits_stop by exact Ht. reflexivity.
  - pose proof (DecimalPos.Unsigned.to_uint_nonnil p) as Hn.
    pose proof (DecimalPos.Unsigned.of_to p) as Hp.
    assert (Hs : DecimalString.NilZero.string_of_uint (Pos.to_uint p) =
                 DecimalString.NilEmpty.string_of_uint (Pos.to_uint p)).
    { destruct (Pos.to_uint p); [contradiction|..]; reflexivity. }
    rewrite Hs.
    transitivity (Config.scan_unsigned
                    (DecimalString.NilEmpty.string_of_uint (Pos.to_uint p) ++ tail)%string).
    + destruct (Pos.to_uint p); [contradiction|..]; reflexivity.
    + rewrite (scan_unsigned_uint _ tail Hn Ht), Hp. reflexivity.
  - pose proof (DecimalPos.Unsigned.to_uint_nonnil p) as Hn.
    pose proof (DecimalPos.Unsigned.of_to p) as Hp.
    assert (Hs : DecimalString.NilZero.string_of_uint (Pos.to_uint p) =
                 DecimalString.NilEmpty.string_of_uint (Pos.to_uint p)).
    { destruct (Pos.to_uint p); [contradiction|..]; reflexivity. }
    rewrite Hs. unfold Config.sscanf_d. cbn [append Config.skip_spaces].
    change (Config.is_space "-") with false. cbv beta iota.
    rewrite (scan_unsigned_uint _ tail Hn Ht), Hp. reflexivity.
Qed.

(** ** Filling the buffer *)

Lemma to_char_range x : is_char (to_char x).
Proof.
  unfold is_char, to_char.
  pose proof (Z.mod_pos_bound (x + 128) 256 ltac:(lia)). lia.
Qed.

Lemma fill_loop_spec randoms : forall buffer checksum,
  fill_loop randoms buffer checksum =
  (buffer ++ fill randoms,
   fold_left (fun c b => wrap32 (c + b)) (fill randoms) checksum).
Proof.
  induction randoms as [|x rest IH]; intros buffer checksum; simpl.
  - rewrite app_nil_r. reflexivity.
  - rewrite IH, <- app_assoc. reflexivity.
Qed.

Lemma fill_chars randoms : Forall is_char (fill randoms).
Proof.
  unfold fill. apply Forall_forall. intros b Hb.
  apply in_map_iff in Hb. destruct Hb as (x & <- & _). apply to_char_range.
Qed.

(** ** The checksum as a sum *)

Lemma wrap32_add_l x y : wrap32 (wrap32 x + y) = wrap32 (x + y).
Proof.
  unfold wrap32.
  replace ((x + 2147483648) mod 4294967296 - 2147483648 + y + 2147483648)
    with ((x + 2147483648) mod 4294967296 + y) by lia.
  rewrite Z.add_mod_idemp_l by lia. do 2 f_equal. lia.
Qed.

Lemma checksum_fold buffer : forall acc,
  wrap32 (fold_left (fun c b => wrap32 (c + b)) buffer acc) =
  wrap32 (acc + byte_sum buffer).
Proof.
  induction buffer as [|b rest IH]; intros acc; simpl.
  - rewrite Z.add_0_r. reflexivity.
  - rewrite IH, wrap32_add_l. f_equal. lia.
Qed.

Lemma checksum_of_sum buffer : checksum_of buffer = wrap32 (byte_sum buffer).
Proof.
  unfold checksum_of.
  rewrite <- (wrap32_in_range (fold_left _ buffer 0)).
  - apply (checksum_fold buffer 0).
  - apply checksum_of_in_range. unfold INT_MIN, INT_MAX. lia.
Qed.

Lemma byte_sum_permutation b b' :
  Permutation.Permutation b b' -> byte_sum b = byte_sum b'.
Proof.
  induction 1; simpl; lia.
Qed.

Lemma byte_sum_bound buffer :
  Forall is_char buffer ->
  -128 * Z.of_nat (List.length buffer) <= byte_sum buffer
  <= 127 * Z.of_nat (List.length buffer).
Proof.
  induction 1 as [|b rest Hb _ IH]; cbn [List.length byte_sum fold_right];
    [lia|].
  unfold is_char in Hb. fold (byte_sum rest). lia.
Qed.

(** ** The root's loop *)

Lemma root_collect_spec checksum n : forall incoming count,
  (n <= List.length incoming)%nat ->
  let c := root_collect n checksum 1 incoming count in
  (all_ok c = 1 <-> Forall (eq checksum) (firstn n incoming)) /\
  (all_ok c = 1 /\ stderr c = [] \/
   all_ok c = 0 /\ stderr c = [mismatch_message]) /\
  (count < received c <= count + n \/ n = 0 /\ received c = count)%nat /\
  (received c + List.length (left_over c) = count + List.length incoming)%nat /\
  (all_ok c = 1 -> received c = (count + n)%nat) /\
  waiting c = false.
Proof.
  induction n as [|n IH]; intros incoming count Hlen; simpl.
  - repeat split; auto; try lia.
  - destruct incoming as [|rc rest]; [simpl in Hlen; lia|].
    simpl in Hlen. simpl firstn.
    destruct (Z.eqb_spec checksum rc) as [<-|Hne]; simpl.
    + specialize (IH rest (S count) ltac:(lia)). cbv zeta in IH.
      destruct IH as (Hok & Hst & Hrec & Hcons & Hall & Hw).
      split; [|split; [exact Hst|split; [|split; [|split; [|exact Hw]]]]].
      * rewrite Hok. split; intros H; [constructor; auto|].
        inversion H; assumption.
      * left. destruct Hrec as [Hrec|[-> Hrec]]; lia.
      * simpl. lia.
      * intros H. rewrite (Hall H). lia.
    + split; [|split; [|split; [|split; [|split]]]]; simpl.
      * split; [discriminate|]. intros H. inversion H. contradiction.
      * right. auto.
      * left. lia.
      * lia.
      * discriminate.
      * reflexivity.
Qed.

(** With fewer messages than iterations and no mismatch among them, the
    root is left in [MPI_Recv]. *)
Lemma root_collect_waits checksum n : forall incoming count,
  (List.length incoming < n)%nat ->
  Forall (eq checksum) incoming ->
  root_collect n checksum 1 incoming count =
  mkCollected 1 (count + List.length incoming) [] [] true.
Proof.
  induction n as [|n IH]; intros incoming count Hlen Hall; [lia|].
  destruct incoming as [|rc rest]; simpl.
  - rewrite Nat.add_0_r. reflexivity.
  - inversion Hall as [|? ? Hrc Hrest]; subst. rewrite Z.eqb_refl. simpl.
    simpl in Hlen. rewrite IH by (auto; lia). f_equal. lia.
Qed.

End HarnessFacts.

(** * Facts about the Julia set image *)

Module JuliaFacts.

Import Bcast Julia.

Lemma zrange_app a b c :
  a <= b <= c -> zrange a b ++ zrange b c = zrange a c.
Proof.
  intros H. remember (Z.to_nat (b - a)) as k eqn:Hk. revert a H Hk.
  induction k as [|k IH]; intros a H Hk.
  - assert (a = b) by lia. subst a.
    rewrite (BcastFacts.zrange_nil b b) by lia. reflexivity.
  - rewrite (BcastFacts.zrange_cons a b), (BcastFacts.zrange_cons a c) by lia.
    simpl. f_equal. apply IH; lia.
Qed.

Lemma zrange_shift s e : map (fun y => s + y) (zrange 0 (e - s)) = zrange s e.
Proof.
  unfold zrange. rewrite map_map, Z.sub_0_r. apply map_ext. intros i. lia.
Qed.

Lemma length_zrange a b : Z.of_nat (length (zrange a b)) = Z.max 0 (b - a).
Proof. unfold zrange. rewrite length_map, length_seq. lia. Qed.

Lemma length_flat_map_const {A B} (g : A -> list B) k l :
  (forall x, In x l -> length (g x) = k) ->
  length (flat_map g l) = (length l * k)%nat.
Proof.
  induction l as [|x l IH]; intros H; [reflexivity|].
  simpl. rewrite length_app, H by (simpl; auto).
  rewrite IH; [reflexivity|].
  intros y Hy. apply H. simpl. auto.
Qed.

(** A function on the integers that starts at or below [y] and ends above it
    steps over [y] somewhere. *)
Lemma crossing (f : Z -> Z) (m : nat) y :
  f 0 <= y < f (Z.of_nat m) ->
  exists r, 0 <= r < Z.of_nat m /\ f r <= y < f (r + 1).
Proof.
  induction m as [|m IH]; intros H.
  - simpl in H. lia.
  - rewrite Nat2Z.inj_succ in *. unfold Z.succ in *.
    destruct (Z_lt_dec y (f (Z.of_nat m))) as [Hlt|Hge].
    + destruct IH as (r & Hr & Hy); [lia|]. exists r. split; [lia|exact Hy].
    + exists (Z.of_nat m). split; lia.
Qed.

Section Rows.

Variables (height num_procs : Z).
Hypothesis Hn : 1 <= num_procs.
Hypothesis Hh : 0 <= height.
Hypothesis Hfit : num_procs * height <= INT_MAX.

Lemma remainder_mod : remainder height num_procs = height mod num_procs.
Proof. unfold remainder. apply Z.rem_mod_nonneg; lia. Qed.

Lemma remainder_bound : 0 <= remainder height num_procs < num_procs.
Proof. rewrite remainder_mod. apply Z.mod_pos_bound. lia. Qed.

Lemma start_div r :
  0 <= r <= num_procs -> start height num_procs r = r * height / num_procs.
Proof.
  intros Hr. unfold start.
  rewrite HarnessFacts.wrap32_in_range by (unfold INT_MIN; nia).
  apply Z.quot_div_nonneg; nia.
Qed.

Lemma stop_div r :
  0 <= r < num_procs ->
  stop height num_procs r + 1 =
  (r + 1) * height / num_procs
  + (if r <? remainder height num_procs then 1 else 0).
Proof.
  intros Hr. unfold stop.
  rewrite HarnessFacts.wrap32_in_range by (unfold INT_MIN; nia).
  rewrite Z.quot_div_nonneg by nia. lia.
Qed.

Lemma share_mono r :
  0 <= r -> r * height / num_procs <= (r + 1) * height / num_procs.
Proof. intros Hr. apply Z.div_le_mono; nia. Qed.

Lemma share_top : num_procs * height / num_procs = height.
Proof. rewrite Z.mul_comm. apply Z.div_mul. lia. Qed.

Lemma rows_of_zrange r :
  rows_of height num_procs r =
  zrange (start height num_procs r) (stop height num_procs r + 1).
Proof.
  unfold rows_of.
  replace (stop height num_procs r - start height num_procs r + 1)
    with (stop height num_procs r + 1 - start height num_procs r) by lia.
  apply zrange_shift.
Qed.

Lemma in_rows_of r y :
  0 <= r < num_procs ->
  In y (rows_of height num_procs r) <->
  r * height / num_procs <= y
  < (r + 1) * height / num_procs
    + (if r <? remainder height num_procs then 1 else 0).
Proof.
  intros Hr. rewrite rows_of_zrange, BcastFacts.in_zrange.
  rewrite start_div, stop_div by lia. reflexivity.
Qed.

Lemma rows_in_image r y :
  0 <= r < num_procs -> In y (rows_of height num_procs r) -> 0 <= y < height.
Proof.
  intros Hr Hy. apply in_rows_of in Hy; [|exact Hr].
  assert (H0 : 0 <= r * height / num_procs) by (apply Z.div_pos; nia).
  split; [lia|].
  pose proof remainder_bound as Hb.
  destruct (Z.ltb_spec r (remainder height num_procs)) as [Hlt|Hge].
  - assert (Hpos : 0 < height).
    { rewrite remainder_mod in Hlt.
      destruct (Z.eq_dec height 0) as [->|]; [|lia].
      rewrite Z.mod_0_l in Hlt; lia. }
    assert ((r + 1) * height / num_procs < height)
      by (apply Z.div_lt_upper_bound; nia).
    lia.
  - assert ((r + 1) * height / num_procs <= height)
      by (apply Z.div_le_upper_bound; nia).
    lia.
Qed.

Lemma band_top r :
  0 <= r < num_procs ->
  (r + 1) * height / num_procs
  + (if r <? remainder height num_procs then 1 else 0) <= height.
Proof.
  intros Hr. pose proof remainder_bound as Hb.
  destruct (Z.ltb_spec r (remainder height num_procs)) as [Hlt|Hge].
  - assert (Hpos : 0 < height).
    { rewrite remainder_mod in Hlt.
      destruct (Z.eq_dec height 0) as [->|]; [|lia].
      rewrite Z.mod_0_l in Hlt; lia. }
    assert ((r + 1) * height / num_procs < height)
      by (apply Z.div_lt_upper_bound; nia).
    lia.
  - assert ((r + 1) * height / num_procs <= height)
      by (apply Z.div_le_upper_bound; nia).
    lia.
Qed.

Lemma rows_cover y :
  0 <= y < height ->
  exists r, 0 <= r < num_procs /\ In y (rows_of height num_procs r).
Proof.
  intros Hy.
  destruct (crossing (fun r => r * height / num_procs) (Z.to_nat num_procs) y)
    as (r & Hr & Hc).
  - rewrite Z2Nat.id by lia. rewrite share_top. cbn beta.
    rewrite Z.mul_0_l, Z.div_0_l by lia. lia.
  - rewrite Z2Nat.id in Hr by lia. exists r. split; [exact Hr|].
    apply in_rows_of; [exact Hr|].
    destruct (r <? remainder height num_procs); lia.
Qed.

Lemma rows_count (m : nat) :
  Z.of_nat m <= num_procs ->
  Z.of_nat (length (flat_map (rows_of height num_procs) (zrange 0 (Z.of_nat m))))
  = Z.of_nat m * height / num_procs
    + Z.min (Z.of_nat m) (remainder height num_procs).
Proof.
  pose proof remainder_bound as Hb.
  induction m as [|m IH]; intros Hm.
  - rewrite BcastFacts.zrange_nil by (simpl; lia).
    cbn [flat_map length Z.of_nat]. rewrite Z.mul_0_l, Z.div_0_l by lia. lia.
  - rewrite BcastFacts.zrange_snoc, flat_map_app, length_app, Nat2Z.inj_add.
    rewrite IH by lia. simpl flat_map. rewrite app_nil_r.
    rewrite rows_of_zrange, length_zrange.
    rewrite start_div, stop_div by lia.
    rewrite Nat2Z.inj_succ. unfold Z.succ.
    pose proof (share_mono (Z.of_nat m) ltac:(lia)).
    destruct (Z.ltb_spec (Z.of_nat m) (remainder height num_procs)); lia.
Qed.

Lemma rows_exact (m : nat) :
  remainder height num_procs = 0 ->
  Z.of_nat m <= num_procs ->
  flat_map (rows_of height num_procs) (zrange 0 (Z.of_nat m))
  = zrange 0 (Z.of_nat m * height / num_procs).
Proof.
  intros Hrem. induction m as [|m IH]; intros Hm.
  - cbn [Z.of_nat]. rewrite Z.mul_0_l, Z.div_0_l by lia. reflexivity.
  - rewrite BcastFacts.zrange_snoc, flat_map_app, IH by lia.
    simpl flat_map. rewrite app_nil_r.
    rewrite rows_of_zrange, start_div, stop_div by lia.
    rewrite Hrem.
    destruct (Z.ltb_spec (Z.of_nat m) 0) as [|_]; [lia|].
    rewrite Z.add_0_r, Nat2Z.inj_succ. unfold Z.succ.
    apply zrange_app. split.
    + apply Z.div_pos; nia.
    + apply share_mono. lia.
Qed.

Lemma rows_total :
  Z.of_nat (length (flat_map (rows_of height num_procs) (zrange 0 num_procs)))
  = height + remainder height num_procs.
Proof.
  pose proof remainder_bound as Hb.
  pose proof (rows_count (Z.to_nat num_procs)) as H.
  rewrite Z2Nat.id in H by lia. rewrite H by lia.
  rewrite share_top. lia.
Qed.

End Rows.

Lemma firstn_prefix {A} (l l' : list A) : firstn (length l) (l ++ l') = l.
Proof. induction l as [|a l IH]; simpl; [reflexivity|f_equal; exact IH]. Qed.

Lemma skipn_prefix {A} (l l' : list A) : skipn (length l) (l ++ l') = l'.
Proof. induction l as [|a l IH]; simpl; [reflexivity|exact IH]. Qed.

Lemma in_array_at (prefix old rest : list Z) :
  length old = 3%nat ->
  in_array (Z.of_nat (length prefix)) (prefix ++ old ++ rest) = true.
Proof.
  intros Hold. unfold in_array. rewrite !length_app, Hold.
  apply andb_true_iff. split; apply Z.leb_le; lia.
Qed.

Lemma write3_at (prefix old rgb rest : list Z) :
  length old = 3%nat ->
  write3 (Z.of_nat (length prefix)) rgb (prefix ++ old ++ rest)
  = prefix ++ rgb ++ rest.
Proof.
  intros Hold. unfold write3. rewrite in_array_at by exact Hold.
  rewrite Nat2Z.id, firstn_prefix. f_equal. f_equal.
  rewrite app_assoc.
  replace (length prefix + 3)%nat with (length (prefix ++ old))
    by (rewrite length_app; lia).
  apply skipn_prefix.
Qed.

Lemma read3_at (prefix rgb rest : list Z) :
  length rgb = 3%nat ->
  read3 (Z.of_nat (length prefix)) (prefix ++ rgb ++ rest) = rgb.
Proof.
  intros Hrgb. unfold read3. rewrite in_array_at by exact Hrgb.
  rewrite Nat2Z.id, skipn_prefix. rewrite <- Hrgb. apply firstn_prefix.
Qed.

Lemma flat_map_ext_in {A B} (f g : A -> list B) l :
  (forall a, In a l -> f a = g a) -> flat_map f l = flat_map g l.
Proof.
  induction l as [|a l IH]; intros H; [reflexivity|].
  simpl. rewrite H by (simpl; auto).
  rewrite IH; [reflexivity|].
  intros b Hb. apply H. simpl. auto.
Qed.

Lemma flat_map_map {A B C} (h : A -> B) (g : B -> list C) l :
  flat_map g (map h l) = flat_map (fun a => g (h a)) l.
Proof.
  induction l as [|a l IH]; [reflexivity|]. simpl. rewrite IH. reflexivity.
Qed.

(** A loop that, at each [x], turns the next [L] zero bytes after a prefix
    of the expected length into [block x], leaves the blocks in order. *)
Lemma fold_fill (f : list Z -> Z -> list Z) (block : Z -> list Z)
      (L : nat) (pos : Z -> nat) (lo0 hi : Z) :
  (forall x, lo0 <= x < hi -> length (block x) = L) ->
  (forall x, lo0 <= x < hi -> pos (x + 1) = (pos x + L)%nat) ->
  (forall x prefix m,
      lo0 <= x < hi -> length prefix = pos x ->
      f (prefix ++ repeat 0 (L + m)) x = prefix ++ block x ++ repeat 0 m) ->
  forall (k : nat) lo prefix m,
    k = Z.to_nat (hi - lo) -> lo0 <= lo -> length prefix = pos lo ->
    fold_left f (zrange lo hi) (prefix ++ repeat 0 (k * L + m))
    = prefix ++ flat_map block (zrange lo hi) ++ repeat 0 m.
Proof.
  intros Hlen Hpos Hf. induction k as [|k IH]; intros lo prefix m Hk Hlo Hp.
  - rewrite BcastFacts.zrange_nil by lia. reflexivity.
  - rewrite BcastFacts.zrange_cons by lia. cbn [fold_left flat_map].
    replace (S k * L + m)%nat with (L + (k * L + m))%nat by lia.
    rewrite Hf by (try lia; exact Hp).
    rewrite (app_assoc prefix). rewrite IH.
    + rewrite <- !app_assoc. reflexivity.
    + lia.
    + lia.
    + rewrite length_app, Hlen, Hpos, Hp by lia. reflexivity.
Qed.

(** The block of [y] inside blocks of one length laid end to end. *)
Lemma flat_map_split (block : Z -> list Z) (L : nat) lo hi y :
  (forall x, lo <= x < hi -> length (block x) = L) ->
  lo <= y < hi ->
  exists before after,
    flat_map block (zrange lo hi) = before ++ block y ++ after /\
    length before = (Z.to_nat (y - lo) * L)%nat.
Proof.
  intros Hlen Hy.
  exists (flat_map block (zrange lo y)), (flat_map block (zrange (y + 1) hi)).
  split.
  - rewrite <- (zrange_app lo y hi) by lia. rewrite flat_map_app.
    rewrite (BcastFacts.zrange_cons y hi) by lia. reflexivity.
  - rewrite (length_flat_map_const _ L).
    + f_equal. pose proof (length_zrange lo y). lia.
    + intros x Hx. apply BcastFacts.in_zrange in Hx. apply Hlen. lia.
Qed.

Section Bytes.

Variable colour : Z -> Z -> Z -> Z -> Z * Z * Z.
Variables (height num_procs : Z).
Hypothesis Hn : 1 <= num_procs.
Hypothesis Hh : 0 <= height.
Hypothesis Hfit : num_procs * height <= INT_MAX.
Hypothesis Hsize : height * 2 * height * 3 <= INT_MAX.

Lemma length_stored_rgb x y w h : length (stored_rgb colour x y w h) = 3%nat.
Proof.
  unfold stored_rgb. destruct (colour x y w h) as [[r g] b]. reflexivity.
Qed.

Lemma width_fits : width height = height * 2.
Proof.
  unfold width. apply HarnessFacts.wrap32_in_range.
  unfold INT_MIN, INT_MAX in *. nia.
Qed.

(** The number of rows of a rank. *)
Lemma band_bounds r :
  0 <= r < num_procs ->
  0 <= start height num_procs r /\
  0 <= stop height num_procs r - start height num_procs r + 1 /\
  stop height num_procs r + 1 <= height.
Proof.
  intros Hr.
  pose proof (start_div height num_procs Hn Hh Hfit r ltac:(lia)) as Hs.
  pose proof (stop_div height num_procs Hn Hh Hfit r Hr) as Ht.
  pose proof (share_mono height num_procs Hn Hh r ltac:(lia)) as Hm.
  assert (H0 : 0 <= r * height / num_procs) by (apply Z.div_pos; nia).
  split; [lia|]. split.
  - destruct (r <? remainder height num_procs); lia.
  - pose proof (band_top height num_procs Hn Hh Hfit r Hr). lia.
Qed.

Lemma pixels_size_fits r :
  0 <= r < num_procs ->
  pixels_size height num_procs r
  = (stop height num_procs r - start height num_procs r + 1)
    * (width height) * 3 /\
  0 <= pixels_size height num_procs r <= INT_MAX.
Proof.
  intros Hr. destruct (band_bounds r Hr) as (H0 & Hc & Ht).
  unfold pixels_size. rewrite width_fits.
  assert (Hb : 0 <= (stop height num_procs r - start height num_procs r + 1)
               * (height * 2) * 3 <= INT_MAX) by (unfold INT_MAX in *; nia).
  rewrite (HarnessFacts.wrap32_in_range
             ((stop height num_procs r - start height num_procs r + 1)
              * (height * 2)))
    by (unfold INT_MIN, INT_MAX in *; nia).
  rewrite HarnessFacts.wrap32_in_range by (unfold INT_MIN, INT_MAX in *; lia).
  split; [reflexivity|exact Hb].
Qed.

Lemma pixel_index_fits r y x :
  0 <= r < num_procs ->
  0 <= y < stop height num_procs r - start height num_procs r + 1 ->
  0 <= x < width height ->
  pixel_index height y x = 3 * (y * width height + x) /\
  0 <= pixel_index height y x /\
  pixel_index height y x + 3 <= pixels_size height num_procs r.
Proof.
  intros Hr Hy Hx. destruct (band_bounds r Hr) as (H0 & Hc & Ht).
  destruct (pixels_size_fits r Hr) as [Hps _]. rewrite Hps.
  unfold pixel_index. rewrite width_fits in *.
  rewrite (HarnessFacts.wrap32_in_range (y * 3))
    by (unfold INT_MIN, INT_MAX in *; nia).
  rewrite (HarnessFacts.wrap32_in_range (y * 3 * (height * 2)))
    by (unfold INT_MIN, INT_MAX in *; nia).
  rewrite (HarnessFacts.wrap32_in_range (x * 3))
    by (unfold INT_MIN, INT_MAX in *; nia).
  rewrite HarnessFacts.wrap32_in_range
    by (unfold INT_MIN, INT_MAX in *; nia).
  split; [ring|]. split; nia.
Qed.

(** Inside a band every call of line 155 passes the coordinate check. *)
Lemma call_succeeds r y x rgb :
  0 <= r < num_procs ->
  0 <= y < stop height num_procs r - start height num_procs r + 1 ->
  0 <= x < width height ->
  compute_julia_pixel colour x (start height num_procs r + y)
                      (width height) height rgb
  = (0, stored_rgb colour x (start height num_procs r + y)
                   (width height) height).
Proof.
  intros Hr Hy Hx. destruct (band_bounds r Hr) as (H0 & Hc & Ht).
  unfold compute_julia_pixel.
  destruct (Z.ltb_spec x 0); [lia|].
  destruct (Z.geb_spec x (width height)); [lia|].
  destruct (Z.ltb_spec (start height num_procs r + y) 0); [lia|].
  destruct (Z.geb_spec (start height num_procs r + y) height); [lia|].
  reflexivity.
Qed.

(** Lines 154-156: one row of the array filled. *)
Lemma compute_row_fills r y prefix m :
  0 <= r < num_procs ->
  0 <= y < stop height num_procs r - start height num_procs r + 1 ->
  length prefix = (Z.to_nat y * (Z.to_nat (width height) * 3))%nat ->
  fold_left (compute_pixel colour height num_procs r y)
            (zrange 0 (width height))
            (prefix ++ repeat 0 (Z.to_nat (width height) * 3 + m))
  = prefix
    ++ flat_map (fun x => stored_rgb colour x (start height num_procs r + y)
                                     (width height) height)
                (zrange 0 (width height))
    ++ repeat 0 m.
Proof.
  intros Hr Hy Hp.
  apply (fold_fill _ _ 3
           (fun x => Z.to_nat (3 * (y * width height + x))) 0).
  - intros x _. apply length_stored_rgb.
  - intros x Hx. rewrite width_fits in *. nia.
  - intros x pre m' Hx Hpre.
    destruct (pixel_index_fits r y x Hr Hy Hx) as (Hi & _ & _).
    unfold compute_pixel. cbv zeta. rewrite Hi.
    rewrite call_succeeds by assumption. cbn [snd].
    replace (3 * (y * width height + x)) with (Z.of_nat (length pre))
      by (rewrite Hpre; rewrite width_fits in *; nia).
    rewrite repeat_app.
    apply write3_at. apply repeat_length.
  - lia.
  - lia.
  - rewrite Hp. rewrite width_fits in *. nia.
Qed.

(** Lines 149-157: the array holds the pixels of the band, row after row. *)
Lemma compute_pixels_spec r :
  0 <= r < num_procs ->
  compute_pixels colour height num_procs r
  = flat_map
      (fun y => flat_map
                  (fun x => stored_rgb colour x (start height num_procs r + y)
                                       (width height) height)
                  (zrange 0 (width height)))
      (zrange 0 (stop height num_procs r - start height num_procs r + 1)).
Proof.
  intros Hr. destruct (band_bounds r Hr) as (H0 & Hc & Ht).
  destruct (pixels_size_fits r Hr) as [Hps Hpb].
  unfold compute_pixels, calloc. rewrite Hps.
  pose proof (fold_fill
    (fun pixels y => fold_left (compute_pixel colour height num_procs r y)
                               (zrange 0 (width height)) pixels)
    (fun y => flat_map
                (fun x => stored_rgb colour x (start height num_procs r + y)
                                     (width height) height)
                (zrange 0 (width height)))
    (Z.to_nat (width height) * 3)
    (fun y => (Z.to_nat y * (Z.to_nat (width height) * 3))%nat)
    0 (stop height num_procs r - start height num_procs r + 1)) as Hfill.
  specialize (Hfill
    ltac:(intros y _; cbv beta;
          rewrite (length_flat_map_const _ 3%nat)
            by (intros; apply length_stored_rgb);
          f_equal; pose proof (length_zrange 0 (width height));
          rewrite width_fits in *; lia)
    ltac:(intros y Hy; cbv beta;
          replace (Z.to_nat (y + 1)) with (S (Z.to_nat y)) by lia; lia)
    ltac:(intros y prefix m Hy Hp; cbv beta; apply compute_row_fills;
          [exact Hr|lia|exact Hp])
    (Z.to_nat (stop height num_procs r - start height num_procs r + 1))
    0 [] 0%nat ltac:(f_equal; lia) ltac:(lia) ltac:(reflexivity)).
  cbn [app] in Hfill. rewrite app_nil_r in Hfill. rewrite <- Hfill.
  f_equal. f_equal. rewrite width_fits in *. nia.
Qed.

(** Line 182 reads back what line 155 stored. *)
Lemma read_back r y x :
  0 <= r < num_procs ->
  0 <= y < stop height num_procs r - start height num_procs r + 1 ->
  0 <= x < width height ->
  read3 (pixel_index height y x) (compute_pixels colour height num_procs r)
  = stored_rgb colour x (start height num_procs r + y) (width height) height.
Proof.
  intros Hr Hy Hx.
  destruct (pixel_index_fits r y x Hr Hy Hx) as (Hi & _ & _).
  rewrite compute_pixels_spec by exact Hr.
  destruct (flat_map_split
    (fun y => flat_map
                (fun x => stored_rgb colour x (start height num_procs r + y)
                                     (width height) height)
                (zrange 0 (width height)))
    (Z.to_nat (width height) * 3) 0
    (stop height num_procs r - start height num_procs r + 1) y)
    as (b1 & a1 & E1 & L1).
  { intros y' _. rewrite (length_flat_map_const _ 3%nat)
      by (intros; apply length_stored_rgb).
    f_equal. pose proof (length_zrange 0 (width height)).
    rewrite width_fits in *. lia. }
  { lia. }
  destruct (flat_map_split
    (fun x => stored_rgb colour x (start height num_procs r + y)
                         (width height) height)
    3 0 (width height) x) as (b2 & a2 & E2 & L2).
  { intros; apply length_stored_rgb. }
  { lia. }
  rewrite E1. cbv beta. rewrite E2.
  replace (b1 ++ (b2 ++ stored_rgb colour x (start height num_procs r + y)
                                   (width height) height ++ a2) ++ a1)
    with ((b1 ++ b2)
          ++ stored_rgb colour x (start height num_procs r + y)
                        (width height) height ++ (a2 ++ a1))
    by (rewrite <- !app_assoc; reflexivity).
  replace (pixel_index height y x) with (Z.of_nat (length (b1 ++ b2))).
  - apply read3_at. apply length_stored_rgb.
  - rewrite Hi, length_app, L1, L2. rewrite width_fits in *. nia.
Qed.

(** Lines 180-188: the rows of the band, each pixel followed by the padding. *)
Lemma write_pixels_spec r :
  0 <= r < num_procs ->
  write_pixels colour height num_procs r
  = flat_map
      (fun y => flat_map
                  (fun x => stored_rgb colour x y (width height) height
                            ++ padding height)
                  (zrange 0 (width height)))
      (rows_of height num_procs r).
Proof.
  intros Hr. unfold write_pixels, rows_of. cbv zeta. rewrite flat_map_map.
  apply flat_map_ext_in. intros y Hy. apply BcastFacts.in_zrange in Hy.
  apply flat_map_ext_in. intros x Hx. apply BcastFacts.in_zrange in Hx.
  rewrite read_back by (try exact Hr; lia). reflexivity.
Qed.

Lemma julia_bmp_rows :
  julia_bmp colour height num_procs
  = header_bytes (width height) height
    ++ flat_map
         (fun y => flat_map
                     (fun x => stored_rgb colour x y (width height) height
                               ++ padding height)
                     (zrange 0 (width height)))
         (flat_map (rows_of height num_procs) (zrange 0 num_procs)).
Proof.
  unfold julia_bmp. f_equal.
  assert (H : forall l, (forall r, In r l -> 0 <= r < num_procs) ->
    flat_map (write_pixels colour height num_procs) l
    = flat_map
        (fun y => flat_map
                    (fun x => stored_rgb colour x y (width height) height
                              ++ padding height)
                    (zrange 0 (width height)))
        (flat_map (rows_of height num_procs) l)).
  { induction l as [|r l IH]; intros Hl; [reflexivity|].
    simpl. rewrite flat_map_app, IH, write_pixels_spec.
    - reflexivity.
    - apply Hl. simpl. auto.
    - intros r' Hr'. apply Hl. simpl. auto. }
  apply H. intros r Hr. apply BcastFacts.in_zrange in Hr. lia.
Qed.

Lemma length_image_row y :
  length (flat_map (fun x => stored_rgb colour x y (width height) height
                             ++ padding height)
                   (zrange 0 (width height)))
  = (Z.to_nat (width height) * (3 + length (padding height)))%nat.
Proof.
  rewrite (length_flat_map_const _ (3 + length (padding height))%nat).
  - unfold zrange. rewrite length_map, length_seq, Z.sub_0_r. reflexivity.
  - intros x _. rewrite length_app, length_stored_rgb. reflexivity.
Qed.

End Bytes.

Lemma length_header width height : length (header_bytes width height) = 54%nat.
Proof. reflexivity. Qed.

Lemma width_small height :
  0 <= height -> height * 2 <= INT_MAX -> width height = height * 2.
Proof.
  intros H0 H1. unfold width.
  apply HarnessFacts.wrap32_in_range. unfold INT_MIN. lia.
Qed.

Lemma padding_parity height :
  0 <= height -> height * 6 <= INT_MAX ->
  Z.of_nat (length (padding height)) = 2 * (height mod 2).
Proof.
  intros H0 H1. unfold padding.
  rewrite width_small by lia.
  rewrite HarnessFacts.wrap32_in_range by (unfold INT_MIN; lia).
  rewrite Z.rem_mod_nonneg by lia.
  assert (Hm : (height * 2 * 3) mod 4 = 2 * (height mod 2)).
  { pose proof (Z.mod_pos_bound height 2 ltac:(lia)).
    pose proof (Z.div_mod height 2 ltac:(lia)) as Hd.
    symmetry. apply Z.mod_unique_pos with (q := 3 * (height / 2) + height mod 2); lia. }
  rewrite Hm. rewrite length_firstn. simpl length.
  pose proof (Z.mod_pos_bound height 2 ltac:(lia)). lia.
Qed.

Lemma double_mod4 h : 0 <= h -> (h * 2) mod 4 = 2 * (h mod 2).
Proof.
  intros H. pose proof (Z.mod_pos_bound h 2 ltac:(lia)).
  pose proof (Z.div_mod h 2 ltac:(lia)) as Hd.
  symmetry. apply Z.mod_unique_pos with (q := h / 2); lia.
Qed.

Lemma adjusted_width_small w :
  0 <= w -> w + 3 <= INT_MAX ->
  adjusted_width w = w + (if w mod 4 =? 0 then 0 else 4 - w mod 4).
Proof.
  intros H0 H1. unfold adjusted_width, u32.
  rewrite Z.rem_mod_nonneg by lia.
  pose proof (Z.mod_pos_bound w 4 ltac:(lia)).
  rewrite HarnessFacts.wrap32_in_range
    by (unfold INT_MIN, INT_MAX in *; destruct (Z.eqb_spec (w mod 4) 0); lia).
  apply Z.mod_small. unfold INT_MAX in H1.
  destruct (Z.eqb_spec (w mod 4) 0); lia.
Qed.

Lemma filesize_small w h :
  0 <= w -> 0 <= h -> w + 3 <= INT_MAX ->
  54 + (w + 3) * h * 3 <= INT_MAX ->
  filesize w h = 54 + adjusted_width w * h * 3.
Proof.
  intros Hw Hh H1 H2.
  assert (Ha : 0 <= adjusted_width w <= w + 3).
  { rewrite adjusted_width_small by lia.
    pose proof (Z.mod_pos_bound w 4 ltac:(lia)).
    destruct (Z.eqb_spec (w mod 4) 0); lia. }
  unfold INT_MAX in *.
  assert (Hp : 0 <= adjusted_width w * h * 3 <= 2147483647 - 54) by nia.
  assert (Hh' : h <= 2147483647) by nia.
  unfold filesize, u32, u64.
  rewrite (Z.mod_small h) by lia.
  rewrite (Z.mod_small (adjusted_width w * h)) by nia.
  rewrite (Z.mod_small (adjusted_width w * h * 3)) by lia.
  rewrite Z.mul_1_r.
  rewrite (Z.mod_small (adjusted_width w * h * 3)) by lia.
  rewrite (HarnessFacts.wrap32_in_range (adjusted_width w * h * 3))
    by (unfold INT_MIN, INT_MAX; lia).
  rewrite HarnessFacts.wrap32_in_range by (unfold INT_MIN, INT_MAX; lia).
  apply Z.mod_small. lia.
Qed.

Lemma fold_left_add l a : fold_left Z.add l a = a + fold_right Z.add 0 l.
Proof.
  revert a. induction l as [|x l IH]; intros a; simpl; [lia|].
  rewrite IH. lia.
Qed.

(** Calls that each return at most what they were asked for return the
    total asked for only when each returned all of it. *)
Lemma full_total (asked returned : list Z) :
  Forall2 (fun r a => 0 <= r <= a) returned asked ->
  fold_right Z.add 0 returned <= fold_right Z.add 0 asked /\
  (fold_right Z.add 0 returned = fold_right Z.add 0 asked -> returned = asked).
Proof.
  induction 1 as [|r a returned asked Hra Hall [IHle IHeq]]; simpl.
  - split; [lia|reflexivity].
  - split; [lia|]. intros Heq.
    assert (r = a) by lia. subst r. f_equal. apply IHeq. lia.
Qed.

End JuliaFacts.

(** * Properties *)

(** Every implementation, run on four ranks along the canonical schedule,
    finishes with four copies of the data. *)
Example six_broadcasts_on_four_ranks :
  forallb
    (fun name =>
       match Bcast.run 4 (Bcast.canonical_schedule (example_progs name 4) 4)
                       (Bcast.start (example_progs name 4) example_data
                                    example_garbage Bcast.ReqNull) with
       | Some w =>
           Bcast.all_done 4 w &&
           forallb (fun r => if list_eq_dec Z.eq_dec
                                  (Bcast.buffer (Bcast.procs w r)) example_data
                             then true else false)
                   (Bcast.zrange 0 4)
       | None => false
       end)
    Bcast.all_impls = true.
Proof. vm_compute. reflexivity. Qed.

(** After a broadcast phase that has come to its end, the checksums the
    other ranks compute are the root's: the root's loop receives them all
    and leaves [all_ok] set, whatever the order they arrive in. *)
Lemma consistent_after_broadcast
      name num_procs data garbage junk chunk_size progs sched w :
  1 <= num_procs ->
  Bcast.programs name num_procs (Bcast.total_of data) chunk_size = Some progs ->
  (forall r, length (garbage r) = length data) ->
  Bcast.run num_procs sched (Bcast.start progs data garbage junk) = Some w ->
  Bcast.all_done num_procs w = true ->
  Harness.collect num_procs (Harness.checksum_of data)
    (map (fun r => Harness.checksum_of (Bcast.buffer (Bcast.procs w r)))
         (Bcast.zrange 1 num_procs)) =
  Harness.mkCollected 1 (Z.to_nat (num_procs - 1)) [] [] false.
Proof.
  intros Hn Hp Hg Hrun Hdone.
  assert (Hmap : map (fun r => Harness.checksum_of (Bcast.buffer (Bcast.procs w r)))
                     (Bcast.zrange 1 num_procs) =
                 repeat (Harness.checksum_of data) (Z.to_nat (num_procs - 1))).
  { rewrite (map_ext_in _ (fun _ => Harness.checksum_of data)).
    - unfold Bcast.zrange. rewrite map_map.
      generalize (Z.to_nat (num_procs - 1)) as n. intros n.
      generalize 0%nat as s. induction n as [|n IH]; intros s; simpl;
        [reflexivity|]. rewrite IH. reflexivity.
    - intros r Hr. apply BcastFacts.in_zrange in Hr. f_equal.
      eapply BcastFacts.bcast_safe; eauto. lia. }
  unfold Harness.collect. rewrite Hmap.
  apply (HarnessFacts.root_collect_all_match _ _ 0%nat).
Qed.

(** C3.  For every [total >= 1] and [chunk_size >= 1] the chunk loop
    terminates with a plan whose chunks lie end to end from 0 to [total]
    (no gap, no overlap), at strictly increasing offsets, with lengths that
    add up to [total] and are all positive; the chunk at position [k] starts
    at [k * chunk_size] and its length is [total mod chunk_size] exactly when
    its offset is greater than [total - chunk_size].  Sixteen bytes in chunks
    of five give (0,5), (5,5), (10,5), (15,1). *)
Theorem chunk_plan_partitions total chunk_size :
  1 <= total -> 1 <= chunk_size ->
  exists plan final,
    Chunks.chunk_plan total chunk_size = Some (plan, final) /\
    Chunks.tiles 0 plan total /\
    Chunks.increasing (Chunks.offsets plan) /\
    Chunks.sum_lengths plan = total /\
    Forall (fun c => 0 < snd c) plan /\
    (forall k c, nth_error plan k = Some c ->
                 fst c = Z.of_nat k * chunk_size /\
                 snd c = if fst c >? total - chunk_size
                         then total mod chunk_size else chunk_size) /\
    Chunks.chunk_plan 16 5 = Some ([(0, 5); (5, 5); (10, 5); (15, 1)], 1).
Proof.
  intros Ht Hcs. unfold Chunks.chunk_plan at 1.
  destruct (ChunksFacts.chunk_loop_spec total chunk_size Hcs (Z.to_nat total) 0%nat)
    as (plan & final & Hrun & Htl & Hat & _); try lia.
  change (Z.of_nat 0 * chunk_size) with 0 in Hrun, Htl.
  assert (Hpos : Forall (fun c => 0 < snd c) plan).
  { apply Forall_forall. intros c Hc. apply In_nth_error in Hc.
    destruct Hc as [i Hi]. apply Hat in Hi. unfold Chunks.chunk_at in Hi. tauto. }
  exists plan, final.
  split; [exact Hrun|]. split; [exact Htl|].
  split; [apply (ChunksFacts.tiles_increasing 0 plan total Htl Hpos)|].
  split; [rewrite (ChunksFacts.tiles_sum _ _ _ Htl); lia|].
  split; [exact Hpos|]. split; [|reflexivity].
  intros k c Hk. apply Hat in Hk. unfold Chunks.chunk_at in Hk. simpl in Hk. tauto.
Qed.

Lemma chunk_plan_partitions_witness :
  exists plan final,
    Chunks.chunk_plan 16 5 = Some (plan, final) /\
    Chunks.tiles 0 plan 16 /\
    Chunks.increasing (Chunks.offsets plan) /\
    Chunks.sum_lengths plan = 16 /\
    Forall (fun c => 0 < snd c) plan /\
    (forall k c, nth_error plan k = Some c ->
                 fst c = Z.of_nat k * 5 /\
                 snd c = if fst c >? 16 - 5 then 16 mod 5 else 5) /\
    Chunks.chunk_plan 16 5 = Some ([(0, 5); (5, 5); (10, 5); (15, 1)], 1).
Proof.
  apply (chunk_plan_partitions 16 5); lia.
Defined.

(** C1.  For each of the six implementations and every group of 1 to 64
    processes whose loops terminate: in every run of the broadcast phase,
    whatever the schedule, the initial contents of the other buffers and of
    the request variables, once no rank has a statement left every rank's
    buffer is the data rank 0 started with.  Such runs exist: when the
    implementation is defined for the group size and the request variables
    start as MPI_REQUEST_NULL, the schedule that runs the ranks one after the
    other in rank order ends with every rank finished. *)
Theorem bcast_every_buffer_equals_root
        name num_procs data garbage chunk_size progs :
  1 <= num_procs <= 64 ->
  Bcast.programs name num_procs (Bcast.total_of data) chunk_size = Some progs ->
  (forall r, length (garbage r) = length data) ->
  (forall junk sched w r,
      Bcast.run num_procs sched (Bcast.start progs data garbage junk) = Some w ->
      Bcast.all_done num_procs w = true ->
      0 <= r < num_procs ->
      Bcast.buffer (Bcast.procs w r) = data) /\
  (Bcast.defined_for name num_procs = true ->
   exists w,
     Bcast.run num_procs (Bcast.canonical_schedule progs num_procs)
               (Bcast.start progs data garbage Bcast.ReqNull) = Some w /\
     Bcast.all_done num_procs w = true).
Proof.
  intros Hn Hp Hg. split.
  - intros junk sched w r Hrun Hdone Hr.
    exact (BcastFacts.bcast_safe name num_procs data garbage junk chunk_size progs
                            sched w r Hp Hg Hrun Hdone Hr).
  - intros Hdef.
    apply (BcastFacts.bcast_completes name num_procs data chunk_size garbage progs
                                 Hp Hg Hdef).
    lia.
Qed.

Lemma bcast_every_buffer_equals_root_witness :
  exists w,
    Bcast.run 4 (Bcast.canonical_schedule
                   (example_progs Bcast.asynchronous_pipelined_bintree_bcast 4) 4)
              (Bcast.start
                 (example_progs Bcast.asynchronous_pipelined_bintree_bcast 4)
                 example_data example_garbage Bcast.ReqNull) = Some w /\
    Bcast.all_done 4 w = true /\
    Bcast.buffer (Bcast.procs w 3) = example_data.
Proof.
  destruct (bcast_every_buffer_equals_root
              Bcast.asynchronous_pipelined_bintree_bcast 4
              example_data example_garbage 5
              (example_progs Bcast.asynchronous_pipelined_bintree_bcast 4))
    as [Hsafe Hlive].
  - lia.
  - reflexivity.
  - intros r. reflexivity.
  - destruct (Hlive eq_refl) as (w & Hrun & Hdone).
    exists w. split; [exact Hrun|]. split; [exact Hdone|].
    apply (Hsafe Bcast.ReqNull _ w 3 Hrun Hdone). lia.
Defined.

(** C10.  For every implementation and every group size, the statements of
    rank 0 contain no receive, and at every point of every run of the
    broadcast phase the buffer of rank 0 is the data it was filled with. *)
Theorem root_buffer_untouched
        name num_procs total data garbage junk chunk_size progs sched w :
  Bcast.programs name num_procs total chunk_size = Some progs ->
  Bcast.run num_procs sched (Bcast.start progs data garbage junk) = Some w ->
  existsb Bcast.is_recv (progs 0) = false /\
  Bcast.buffer (Bcast.procs w 0) = data.
Proof.
  intros Hp Hrun.
  pose proof (BcastFacts.programs_root_no_recv _ _ _ _ _ Hp) as Hno.
  split; [exact Hno|].
  rewrite (BcastFacts.run_root_buffer _ _ _ _ Hrun Hno). reflexivity.
Qed.

Lemma root_buffer_untouched_witness :
  exists w,
    Bcast.run 3 [0; 1; 1; 2; 0]
              (Bcast.start (example_progs Bcast.pipelined_ring_bcast 3)
                           example_data example_garbage Bcast.ReqInvalid)
    = Some w /\
    Bcast.buffer (Bcast.procs w 0) = example_data.
Proof.
  destruct (Bcast.run 3 [0; 1; 1; 2; 0]
              (Bcast.start (example_progs Bcast.pipelined_ring_bcast 3)
                           example_data example_garbage Bcast.ReqInvalid))
    as [w|] eqn:Hrun.
  - exists w. split; [reflexivity|].
    apply (root_buffer_untouched Bcast.pipelined_ring_bcast 3 16 example_data
             example_garbage Bcast.ReqInvalid 5
             (example_progs Bcast.pipelined_ring_bcast 3) [0; 1; 1; 2; 0] w).
    + reflexivity.
    + exact Hrun.
  - vm_compute in Hrun. discriminate Hrun.
Defined.

(** C9, as stated, fails at the root: with C's truncating division
    [(0-1)/2] is 0, so rank 0 is its own parent although it is nobody's
    child. *)
Lemma root_is_its_own_parent :
  (1 <= 1 /\ 0 <= 0 < 1) /\
  Tree.parent 0 = 0 /\ ~ Tree.is_child 1 0 0.
Proof.
  split; [lia|]. split; [reflexivity|].
  unfold Tree.is_child, Tree.left_child, Tree.right_child. lia.
Qed.

(** C9, amended.  For every [size >= 1], every rank [r] of the group and
    every rank [c] other than the root: [c] is a child of [r] (it is [2r+1]
    or [2r+2] and below [size]) if and only if [(c-1)/2 = r]; and for all
    ranks [r] and [c] of the group, what [r] sends to [c] in one iteration of
    the tree loop is what [c] receives from [r]. *)
Theorem tree_parent_child_consistent size r c :
  1 <= size -> 0 <= r < size -> 1 <= c < size ->
  (Tree.is_child size r c <-> Tree.parent c = r) /\
  (forall c' ch, 0 <= c' < size ->
     Bcast.sends_to c' (Bcast.bintree_body r size ch) =
     Bcast.recvs_from r (Bcast.bintree_body c' size ch)).
Proof.
  intros Hsize Hr Hc. split.
  - unfold Tree.is_child. rewrite (TreeFacts.parent_child r c) by lia. tauto.
  - intros c' ch Hc'.
    rewrite BcastFacts.sends_to_bintree_body, BcastFacts.recvs_from_bintree_body.
    rewrite (BcastFacts.links_agree Bcast.asynchronous_pipelined_bintree_bcast
               r size c' Hr Hc').
    reflexivity.
Qed.

Lemma tree_parent_child_consistent_witness :
  (Tree.is_child 4 1 3 <-> Tree.parent 3 = 1) /\
  (forall c' ch, 0 <= c' < 4 ->
     Bcast.sends_to c' (Bcast.bintree_body 1 4 ch) =
     Bcast.recvs_from 1 (Bcast.bintree_body c' 4 ch)).
Proof.
  apply (tree_parent_child_consistent 4 1 3); lia.
Defined.

Section CommandLine.

Import String.




End CommandLine.

(** C2: where the source departs from it.  The [break] of line 239 leaves the
    loop at the first mismatch: with three processes and a bad first
    checksum the root receives one message and leaves the other unread; and
    whatever the number of iterations still due, a mismatch ends the loop
    with the rest of the messages left over. *)
Theorem root_collect_stops_at_first_mismatch :
  Harness.collect 3 10 [11; 10] =
    Harness.mkCollected 0 1 [Harness.mismatch_message] [10] false /\
  forall iterations checksum rest count,
    Harness.root_collect (S iterations) checksum 1 (checksum + 1 :: rest) count =
    Harness.mkCollected 0 (S count) [Harness.mismatch_message] rest false.
Proof.
  split; [reflexivity|].
  intros iterations checksum rest count. simpl.
  destruct (Z.eqb_spec checksum (checksum + 1)) as [He|_]; [lia|reflexivity].
Qed.

(** C4: where the source departs from it.  In the asynchronous ring rank 0
    issues its sends and never waits: its statements contain no wait at
    all, for any group, buffer and chunk size; with two processes and
    sixteen bytes in chunks of five it leaves the phase with four sends
    pending.  In the tree, and for the middle ranks of the ring, the request
    variables are overwritten by each new send and only the last ones are
    waited on: the root of a tree of four leaves with six sends pending. *)
Theorem asynchronous_sends_left_pending :
  (forall num_procs total chunk_size,
      match Bcast.bcast_ops 0 num_procs total
                            Bcast.asynchronous_pipelined_ring_bcast chunk_size with
      | Some (l, _) => existsb Bcast.is_wait l = false
      | None => True
      end) /\
  Bcast.bcast_ops 0 2 16 Bcast.asynchronous_pipelined_ring_bcast 5 =
    Some ([Bcast.Isend 0 5 1 0; Bcast.Isend 5 5 1 0;
           Bcast.Isend 10 5 1 0; Bcast.Isend 15 1 1 0], 1) /\
  (exists w,
      Bcast.run 2 [0; 0; 0; 0; 1; 1; 1; 1; 1]
                (Bcast.start
                   (example_progs Bcast.asynchronous_pipelined_ring_bcast 2)
                   example_data example_garbage Bcast.ReqNull) = Some w /\
      Bcast.all_done 2 w = true /\
      Bcast.pending (Bcast.procs w 0) = [3; 2; 1; 0]%nat) /\
  (exists w,
      Bcast.run 4 (Bcast.canonical_schedule
                     (example_progs Bcast.asynchronous_pipelined_bintree_bcast 4) 4)
                (Bcast.start
                   (example_progs Bcast.asynchronous_pipelined_bintree_bcast 4)
                   example_data example_garbage Bcast.ReqNull) = Some w /\
      Bcast.all_done 4 w = true /\
      Bcast.pending (Bcast.procs w 0) = [5; 4; 3; 2; 1; 0]%nat).
Proof.
  split; [|split; [reflexivity|split]].
  - intros num_procs total chunk_size. unfold Bcast.bcast_ops.
    destruct (Chunks.chunk_plan total chunk_size) as [[plan fin]|]; [|exact I].
    rewrite existsb_app.
    rewrite BcastFacts.existsb_flat_map_false by (intros [j c]; reflexivity).
    reflexivity.
  - eexists. split; [vm_compute; reflexivity|].
    split; vm_compute; reflexivity.
  - eexists. split; [vm_compute; reflexivity|].
    split; vm_compute; reflexivity.
Qed.

(** C7: where the source departs from it.  The last rank of the
    asynchronous ring issues no send, yet it executes the [MPI_Wait] of line
    202: when it gets there it has created no handle, and its request
    variable still holds what it held at its declaration, so the wait is in
    error if that was not a request and consumes nothing if it was
    MPI_REQUEST_NULL.  A leaf of the tree does the same with [MPI_Waitall]:
    alone in its group, rank 0 executes nothing but that call. *)
Theorem terminal_rank_waits_without_send :
  Bcast.bcast_ops 1 2 16 Bcast.asynchronous_pipelined_ring_bcast 5 =
    Some ([Bcast.Recv 0 5 0; Bcast.Recv 5 5 0; Bcast.Recv 10 5 0;
           Bcast.Recv 15 1 0; Bcast.Wait 0], 1) /\
  (exists w,
      Bcast.run 2 [0; 0; 0; 0; 1; 1; 1; 1]
                (Bcast.start
                   (example_progs Bcast.asynchronous_pipelined_ring_bcast 2)
                   example_data example_garbage Bcast.ReqInvalid) = Some w /\
      Bcast.ops (Bcast.procs w 1) = [Bcast.Wait 0] /\
      Bcast.issued (Bcast.procs w 1) = 0%nat /\
      Bcast.step 2 1 w = Bcast.Fault Bcast.ErrRequest) /\
  (exists w,
      Bcast.run 2 [0; 0; 0; 0; 1; 1; 1; 1]
                (Bcast.start
                   (example_progs Bcast.asynchronous_pipelined_ring_bcast 2)
                   example_data example_garbage Bcast.ReqNull) = Some w /\
      Bcast.ops (Bcast.procs w 1) = [Bcast.Wait 0] /\
      Bcast.issued (Bcast.procs w 1) = 0%nat /\
      Bcast.requests (Bcast.procs w 1) 0%nat = Bcast.ReqNull) /\
  Bcast.bcast_ops 0 1 16 Bcast.asynchronous_pipelined_bintree_bcast 5 =
    Some ([Bcast.Waitall 2], 1) /\
  (forall data garbage,
      Bcast.step 1 0
        (Bcast.start (example_progs Bcast.asynchronous_pipelined_bintree_bcast 1)
                     data garbage Bcast.ReqInvalid) =
      Bcast.Fault Bcast.ErrRequest).
Proof.
  split; [reflexivity|]. split; [|split; [|split; [reflexivity|]]].
  - eexists. split; [vm_compute; reflexivity|].
    repeat split; vm_compute; reflexivity.
  - eexists. split; [vm_compute; reflexivity|].
    repeat split; vm_compute; reflexivity.
  - intros data garbage. reflexivity.
Qed.

(** C6: where the source departs from it.  Alone in its group, the root of
    the three ring implementations still sends to rank 1 (lines 165, 176 and
    192 have no guard, unlike lines 168, 182 and 198): the first statement of
    the phase is a send to a rank that does not exist, which MPI refuses. *)
Theorem ring_root_sends_when_alone :
  (forall total chunk_size,
      Bcast.bcast_ops 0 1 total Bcast.ring_bcast chunk_size =
      Some ([Bcast.Send 0 total 1], chunk_size)) /\
  Bcast.bcast_ops 0 1 16 Bcast.pipelined_ring_bcast 5 =
    Some ([Bcast.Send 0 5 1; Bcast.Send 5 5 1; Bcast.Send 10 5 1;
           Bcast.Send 15 1 1], 1) /\
  Bcast.bcast_ops 0 1 16 Bcast.asynchronous_pipelined_ring_bcast 5 =
    Some ([Bcast.Isend 0 5 1 0; Bcast.Isend 5 5 1 0; Bcast.Isend 10 5 1 0;
           Bcast.Isend 15 1 1 0], 1) /\
  (forall data garbage junk,
      Bcast.step 1 0 (Bcast.start (example_progs Bcast.ring_bcast 1)
                                  data garbage junk) =
      Bcast.Fault Bcast.ErrRank /\
      Bcast.step 1 0 (Bcast.start (example_progs Bcast.pipelined_ring_bcast 1)
                                  data garbage junk) =
      Bcast.Fault Bcast.ErrRank /\
      Bcast.step 1 0
        (Bcast.start (example_progs Bcast.asynchronous_pipelined_ring_bcast 1)
                     data garbage junk) =
      Bcast.Fault Bcast.ErrRank).
Proof.
  split; [intros; reflexivity|].
  split; [reflexivity|]. split; [reflexivity|].
  intros data garbage junk. repeat split; reflexivity.
Qed.

Section Report.

Import String.

(** C8: where the source departs from it.  The timing line is printed by
    rank 0 exactly when [all_ok] is not zero, but the number it shows is the
    variable [chunk_size] as the chunked loops left it (lines 175, 191 and
    207 overwrite it with the length of the last chunk): started with
    [-c 3] on NUM_BYTES = 100000000 bytes, the pipelined ring reports
    [chunksize: 1]. *)
Theorem timing_line_shows_last_chunk_size :
  Config.parse_args NUM_BYTES ["bcast"; "pipelined_ring_bcast"; "-c"; "3"]%string
  = Config.Run Bcast.pipelined_ring_bcast 3 /\
  (forall checksum seconds,
      Harness.root_report Bcast.pipelined_ring_bcast 2 NUM_BYTES 3
                          checksum [checksum] seconds =
      Some ([], [Harness.timing_line Bcast.pipelined_ring_bcast 1 seconds])) /\
  Harness.timing_line Bcast.pipelined_ring_bcast 1 "0.123" =
    ("implementation: pipelined_ring_bcast | chunksize: 1 |  time: 0.123 seconds"
       ++ Config.nl)%string /\
  (forall rank all_ok name chunk_size seconds,
      Harness.root_stdout rank all_ok name chunk_size seconds =
      if (rank =? 0) && negb (all_ok =? 0)
      then [Harness.timing_line name chunk_size seconds] else []).
Proof.
  split; [reflexivity|]. split; [|split; [reflexivity|]].
  - intros checksum seconds. unfold Harness.root_report, Bcast.bcast_ops.
    destruct (HarnessFacts.chunk_size_after NUM_BYTES 3) as [plan Hplan];
      [unfold NUM_BYTES; lia | lia |].
    replace (if NUM_BYTES mod 3 =? 0 then 3 else NUM_BYTES mod 3) with 1
      in Hplan by reflexivity.
    rewrite Hplan.
    unfold Harness.collect.
    change (Z.to_nat (2 - 1)) with 1%nat.
    cbn [Harness.root_collect].
    rewrite !Z.eqb_refl. reflexivity.
  - intros rank all_ok name chunk_size seconds. unfold Harness.root_stdout.
    rewrite (Z.eqb_sym 0 rank). reflexivity.
Qed.

End Report.

(** * Further properties of the program *)

Section CommandLineMore.

Import String.

(** X1.  The name check of lines 85-94 accepts exactly the six
    implementation names: a string is accepted as implementation [i] if and
    only if it is the name of [i]. *)
Theorem implementation_names_exact s i :
  Config.implementation_of s = Some i <-> s = Config.name_of i.
Proof.
  split.
  - apply ConfigFacts.implementation_of_some.
  - intros ->. apply ConfigFacts.implementation_of_name_of.
Qed.

(** X2.  The message that line 92 formats into [char message[256]] fits the
    array, with its terminating zero, exactly when the name given on the
    command line has at most 218 characters. *)
Theorem unknown_name_message_fits s :
  (String.length (Config.unknown_name s) + 1 <= 256)%nat <->
  (String.length s <= 218)%nat.
Proof.
  unfold Config.unknown_name.
  rewrite !ConfigFacts.length_append. simpl String.length. lia.
Qed.

(** X3.  With a valid implementation name: arguments among which there is
    no [-c] leave the chunk size at NUM_BYTES; and when a command line whose
    numbers fit an [int] is accepted, the chunk size is the integer read
    after the last [-c]. *)
Theorem last_chunk_size_option_wins total prog name i :
  Config.implementation_of name = Some i ->
  (forall args,
      existsb Config.is_option args = false ->
      Config.parse_args total (prog :: name :: args) = Config.Run i total) /\
  (forall pre v post z chunk_size,
      forallb Config.storable pre = true ->
      Config.parse_args total (prog :: name :: pre ++ "-c"%string :: v :: post)
      = Config.Run i chunk_size ->
      existsb Config.is_option post = false ->
      Config.sscanf_d v = Some z ->
      INT_MIN <= z <= INT_MAX ->
      chunk_size = z).
Proof.
  intros Hname.
  assert (Hnc : Config.is_option name = false).
  { unfold Config.is_option.
    destruct (String.eqb_spec name "-c") as [->|]; [discriminate|reflexivity]. }
  split.
  - intros args Hargs. unfold Config.parse_args. rewrite Hname.
    cbn [tl]. rewrite ConfigFacts.scan_chunk_size_no_option; [reflexivity|].
    simpl. rewrite Hnc. exact Hargs.
  - intros pre v post z cs _ H Hpost Hv _.
    unfold Config.parse_args in H. rewrite Hname in H. cbn [tl] in H.
    destruct (Config.scan_chunk_size (name :: pre ++ "-c"%string :: v :: post)
                                     total) as [z'|] eqn:Hs; [|discriminate].
    injection H as <-.
    exact (ConfigFacts.scan_chunk_size_last (name :: pre) post v z total z'
                                            Hs Hpost Hv).
Qed.

Lemma last_chunk_size_option_wins_witness :
  Config.parse_args NUM_BYTES ["bcast"; "ring_bcast"; "-v"; "7"]%string
  = Config.Run Bcast.ring_bcast NUM_BYTES /\
  (forall chunk_size,
      Config.parse_args NUM_BYTES
        ["bcast"; "ring_bcast"; "-c"; "7"; "-c"; "9"; "x"]%string
      = Config.Run Bcast.ring_bcast chunk_size -> chunk_size = 9).
Proof.
  destruct (last_chunk_size_option_wins NUM_BYTES "bcast" "ring_bcast"
                                        Bcast.ring_bcast eq_refl) as [H1 H2].
  split.
  - apply (H1 ["-v"; "7"]%string). reflexivity.
  - intros chunk_size H.
    apply (H2 ["-c"; "7"]%string "9"%string ["x"]%string 9 chunk_size);
      try reflexivity; [exact H|]. unfold INT_MIN, INT_MAX. lia.
Defined.

(** X4.  What [%d] prints for an [int] (line 253), [%d] reads back (line
    99), and the reading stops where the digits end: an argument that is the
    decimal numeral of an [int] followed by anything that does not start
    with a digit is read as that number. *)
Theorem chunk_size_text_round_trip z tail :
  INT_MIN <= z <= INT_MAX ->
  Config.starts_with_digit tail = false ->
  Config.sscanf_d (Harness.decimal z ++ tail)%string = Some z /\
  Config.storable (Harness.decimal z ++ tail)%string = true.
Proof.
  intros Hz Htail.
  pose proof (HarnessFacts.sscanf_d_decimal z tail Htail) as H.
  split; [exact H|].
  unfold Config.storable, Config.fits_int. rewrite H.
  apply andb_true_iff. split; apply Z.leb_le; lia.
Qed.

Lemma chunk_size_text_round_trip_witness :
  Config.sscanf_d (Harness.decimal (-4096) ++ "bytes")%string = Some (-4096) /\
  Config.storable (Harness.decimal (-4096) ++ "bytes")%string = true.
Proof.
  apply (chunk_size_text_round_trip (-4096) "bytes");
    [unfold INT_MIN, INT_MAX; lia|reflexivity].
Defined.

End CommandLineMore.

(** X5.  The loop of lines 121-126 stores one byte per value of [random()],
    each within the range of a signed [char], and the checksum it
    accumulates on the way is the one the loop of lines 243-246 computes
    over the finished buffer. *)
Theorem root_fill_checksum randoms :
  Harness.root_fill randoms =
    (Harness.fill randoms, Harness.checksum_of (Harness.fill randoms)) /\
  length (Harness.fill randoms) = length randoms /\
  Forall Harness.is_char (Harness.fill randoms).
Proof.
  split; [|split].
  - unfold Harness.root_fill. rewrite HarnessFacts.fill_loop_spec. reflexivity.
  - unfold Harness.fill. apply length_map.
  - apply HarnessFacts.fill_chars.
Qed.

(** X6.  The checksum is the sum of the bytes reduced to an [int], so it
    does not depend on the order of the bytes: a buffer whose bytes arrived
    in another order has the same checksum. *)
Theorem checksum_ignores_order buffer buffer' :
  Permutation.Permutation buffer buffer' ->
  Harness.checksum_of buffer = wrap32 (Harness.byte_sum buffer) /\
  Harness.checksum_of buffer = Harness.checksum_of buffer'.
Proof.
  intros Hp. split; [apply HarnessFacts.checksum_of_sum|].
  rewrite !HarnessFacts.checksum_of_sum.
  rewrite (HarnessFacts.byte_sum_permutation _ _ Hp). reflexivity.
Qed.

Lemma checksum_ignores_order_witness :
  Harness.checksum_of [1; 2; 3] = wrap32 (Harness.byte_sum [1; 2; 3]) /\
  Harness.checksum_of [1; 2; 3] = Harness.checksum_of [2; 1; 3].
Proof.
  apply (checksum_ignores_order [1; 2; 3] [2; 1; 3]).
  apply Permutation.perm_swap.
Defined.

(** X7.  On a buffer of at most 16777216 bytes the [int] accumulator never
    overflows: the checksum is the exact sum of the bytes. *)
Theorem checksum_exact_when_small buffer :
  Forall Harness.is_char buffer ->
  Z.of_nat (length buffer) <= 16777216 ->
  Harness.checksum_of buffer = Harness.byte_sum buffer.
Proof.
  intros Hc Hlen. rewrite HarnessFacts.checksum_of_sum.
  apply HarnessFacts.wrap32_in_range.
  pose proof (HarnessFacts.byte_sum_bound buffer Hc).
  unfold INT_MIN, INT_MAX. lia.
Qed.

Lemma checksum_exact_when_small_witness :
  Harness.checksum_of example_data = Harness.byte_sum example_data.
Proof.
  apply (checksum_exact_when_small example_data).
  - repeat constructor; unfold Harness.is_char; lia.
  - simpl. lia.
Defined.

(** X8.  When at least [num_procs - 1] checksum messages arrive, the root's
    loop of lines 230-241 ends without waiting; [all_ok] stays 1 exactly
    when the first [num_procs - 1] of them equal the root's checksum, and
    then they have all been received; the diagnostic is printed once when
    one differs and not at all otherwise; and no message is lost or counted
    twice. *)
Theorem root_collect_outcome num_procs checksum incoming :
  (Z.to_nat (num_procs - 1) <= length incoming)%nat ->
  let c := Harness.collect num_procs checksum incoming in
  (Harness.all_ok c = 1 <->
   Forall (eq checksum) (firstn (Z.to_nat (num_procs - 1)) incoming)) /\
  (Harness.all_ok c = 1 /\ Harness.stderr c = [] \/
   Harness.all_ok c = 0 /\ Harness.stderr c = [Harness.mismatch_message]) /\
  (Harness.received c + length (Harness.left_over c) = length incoming)%nat /\
  (Harness.all_ok c = 1 -> Harness.received c = Z.to_nat (num_procs - 1)) /\
  Harness.waiting c = false.
Proof.
  intros Hlen. unfold Harness.collect.
  destruct (HarnessFacts.root_collect_spec checksum (Z.to_nat (num_procs - 1))
                                           incoming 0%nat Hlen)
    as (Hok & Hst & _ & Hcons & Hall & Hw).
  cbv zeta. repeat split; try tauto; try apply Hok; auto.
Qed.

Lemma root_collect_outcome_witness :
  let c := Harness.collect 4 10 [10; 11; 10] in
  (Harness.all_ok c = 1 <-> Forall (eq 10) (firstn (Z.to_nat (4 - 1)) [10; 11; 10])) /\
  (Harness.all_ok c = 1 /\ Harness.stderr c = [] \/
   Harness.all_ok c = 0 /\ Harness.stderr c = [Harness.mismatch_message]) /\
  (Harness.received c + length (Harness.left_over c) = length [10; 11; 10])%nat /\
  (Harness.all_ok c = 1 -> Harness.received c = Z.to_nat (4 - 1)) /\
  Harness.waiting c = false.
Proof.
  apply (root_collect_outcome 4 10 [10; 11; 10]). simpl. lia.
Defined.

(** X9.  When fewer than [num_procs - 1] checksum messages ever arrive and
    none of them differs, the root stays in the [MPI_Recv] of line 232: it
    has received them all, printed nothing, and waits. *)
Theorem root_waits_for_missing_checksums num_procs checksum incoming :
  (length incoming < Z.to_nat (num_procs - 1))%nat ->
  Forall (eq checksum) incoming ->
  Harness.collect num_procs checksum incoming =
  Harness.mkCollected 1 (length incoming) [] [] true.
Proof.
  intros Hlen Hall. unfold Harness.collect.
  rewrite HarnessFacts.root_collect_waits by assumption. reflexivity.
Qed.

Lemma root_waits_for_missing_checksums_witness :
  Harness.collect 4 10 [10; 10] = Harness.mkCollected 1 2 [] [] true.
Proof.
  apply (root_waits_for_missing_checksums 4 10 [10; 10]).
  - simpl. lia.
  - repeat constructor.
Defined.

(** X10.  A whole consistent run: when rank 0 fills its buffer, the
    broadcast phase comes to its end, and the other ranks' checksums reach
    the root in any order, the root prints no diagnostic and exactly one
    timing line, which shows the value the phase left in [chunk_size]. *)
Theorem completed_run_prints_timing
        name num_procs randoms garbage junk chunk_size progs sched w
        order l final seconds :
  1 <= num_procs ->
  Bcast.programs name num_procs (Bcast.total_of (Harness.fill randoms))
                 chunk_size = Some progs ->
  (forall r, length (garbage r) = length (Harness.fill randoms)) ->
  Bcast.run num_procs sched
            (Bcast.start progs (fst (Harness.root_fill randoms)) garbage junk)
  = Some w ->
  Bcast.all_done num_procs w = true ->
  Bcast.bcast_ops 0 num_procs (Bcast.total_of (Harness.fill randoms))
                  name chunk_size = Some (l, final) ->
  Forall (fun r => 0 <= r < num_procs) order ->
  length order = Z.to_nat (num_procs - 1) ->
  Harness.root_report name num_procs (Bcast.total_of (Harness.fill randoms))
    chunk_size (snd (Harness.root_fill randoms))
    (map (fun r => Harness.checksum_of (Bcast.buffer (Bcast.procs w r))) order)
    seconds =
  Some ([], [Harness.timing_line name final seconds]).
Proof.
  intros Hn Hp Hg Hrun Hdone Hops Hord Hlen.
  unfold Harness.root_fill in *. rewrite HarnessFacts.fill_loop_spec in *.
  cbn [fst snd app] in *.
  set (data := Harness.fill randoms) in *.
  unfold Harness.root_report. rewrite Hops.
  assert (Hmap : map (fun r => Harness.checksum_of (Bcast.buffer (Bcast.procs w r)))
                     order =
                 repeat (Harness.checksum_of data) (Z.to_nat (num_procs - 1))).
  { rewrite <- Hlen. clear Hlen.
    induction order as [|r rest IH]; [reflexivity|].
    inversion Hord as [|? ? Hr Hrest]; subst. simpl. rewrite (IH Hrest).
    f_equal. f_equal.
    exact (BcastFacts.bcast_safe name num_procs data garbage junk chunk_size
                                 progs sched w r Hp Hg Hrun Hdone Hr). }
  unfold Harness.collect. rewrite Hmap.
  fold (Harness.checksum_of data).
  rewrite (HarnessFacts.root_collect_all_match _ _ 0%nat). reflexivity.
Qed.

Lemma completed_run_prints_timing_witness :
  exists w,
    Bcast.run 4 (Bcast.canonical_schedule
                   (example_progs Bcast.pipelined_ring_bcast 4) 4)
              (Bcast.start (example_progs Bcast.pipelined_ring_bcast 4)
                           (fst (Harness.root_fill example_data))
                           example_garbage Bcast.ReqNull) = Some w /\
    Harness.root_report Bcast.pipelined_ring_bcast 4
      (Bcast.total_of (Harness.fill example_data)) 5
      (snd (Harness.root_fill example_data))
      (map (fun r => Harness.checksum_of (Bcast.buffer (Bcast.procs w r)))
           [3; 1; 2])
      String.EmptyString =
    Some ([], [Harness.timing_line Bcast.pipelined_ring_bcast 1
                                   String.EmptyString]).
Proof.
  destruct (BcastFacts.bcast_completes
              Bcast.pipelined_ring_bcast 4 (Harness.fill example_data) 5
              example_garbage (example_progs Bcast.pipelined_ring_bcast 4))
    as (w & Hrun & Hdone); try reflexivity; try lia.
  exists w. split; [exact Hrun|].
  apply (completed_run_prints_timing
           Bcast.pipelined_ring_bcast 4 example_data example_garbage
           Bcast.ReqNull 5 (example_progs Bcast.pipelined_ring_bcast 4)
           (Bcast.canonical_schedule
              (example_progs Bcast.pipelined_ring_bcast 4) 4)
           w [3; 1; 2]
           [Bcast.Send 0 5 1; Bcast.Send 5 5 1; Bcast.Send 10 5 1;
            Bcast.Send 15 1 1]).
  - lia.
  - reflexivity.
  - intros r. reflexivity.
  - exact Hrun.
  - exact Hdone.
  - reflexivity.
  - repeat constructor; lia.
  - reflexivity.
Defined.

(** X11.  For [total >= 1] and [chunk_size >= 1] the chunked loops make
    [total / chunk_size] rounded up iterations: that many messages travel
    on every link. *)
Theorem chunk_count_is_rounded_quotient total chunk_size :
  1 <= total -> 1 <= chunk_size ->
  exists plan final,
    Chunks.chunk_plan total chunk_size = Some (plan, final) /\
    Z.of_nat (length plan) = (total + chunk_size - 1) / chunk_size.
Proof.
  intros Ht Hcs. unfold Chunks.chunk_plan.
  destruct (ChunksFacts.chunk_loop_length total chunk_size Hcs
                                          (Z.to_nat total) 0%nat)
    as (plan & final & Hrun & Hlen); try lia.
  change (Z.of_nat 0 * chunk_size) with 0 in Hrun, Hlen.
  exists plan, final. split; [exact Hrun|].
  rewrite Hlen. f_equal. lia.
Qed.

Lemma chunk_count_is_rounded_quotient_witness :
  exists plan final,
    Chunks.chunk_plan 16 5 = Some (plan, final) /\
    Z.of_nat (length plan) = (16 + 5 - 1) / 5.
Proof.
  apply (chunk_count_is_rounded_quotient 16 5); lia.
Defined.

Section ZeroChunkSize.

Import String.

(** X12.  The command line accepts [-c 0], and with a chunk size of zero
    the loop header of lines 174-175 never moves [j] from 0: the loop does
    not exit, however many iterations it is given, so that the three chunked
    implementations never end, on any rank. *)
Theorem zero_chunk_size_never_ends total prog name i :
  1 <= total ->
  Config.implementation_of name = Some i ->
  Config.parse_args total [prog; name; "-c"; "0"]%string = Config.Run i 0 /\
  (forall fuel, Chunks.chunk_loop total fuel 0 0 = None) /\
  (forall rank num_procs,
      Bcast.bcast_ops rank num_procs total Bcast.pipelined_ring_bcast 0
      = None /\
      Bcast.bcast_ops rank num_procs total
                      Bcast.asynchronous_pipelined_ring_bcast 0 = None /\
      Bcast.bcast_ops rank num_procs total
                      Bcast.asynchronous_pipelined_bintree_bcast 0 = None).
Proof.
  intros Ht Hname.
  assert (Hnc : String.eqb name "-c" = false).
  { destruct (String.eqb_spec name "-c") as [->|]; [discriminate|reflexivity]. }
  assert (H : forall fuel, Chunks.chunk_loop total fuel 0 0 = None)
    by (intros fuel; apply BcastFacts.chunk_loop_nonpositive; lia).
  split; [|split; [exact H|]].
  - unfold Config.parse_args. rewrite Hname. simpl. rewrite Hnc. reflexivity.
  - intros rank num_procs. unfold Bcast.bcast_ops, Chunks.chunk_plan.
    rewrite H. repeat split.
Qed.

Lemma zero_chunk_size_never_ends_witness :
  Config.parse_args NUM_BYTES ["bcast"; "pipelined_ring_bcast"; "-c"; "0"]%string
  = Config.Run Bcast.pipelined_ring_bcast 0 /\
  (forall fuel, Chunks.chunk_loop NUM_BYTES fuel 0 0 = None) /\
  (forall rank num_procs,
      Bcast.bcast_ops rank num_procs NUM_BYTES Bcast.pipelined_ring_bcast 0
      = None /\
      Bcast.bcast_ops rank num_procs NUM_BYTES
                      Bcast.asynchronous_pipelined_ring_bcast 0 = None /\
      Bcast.bcast_ops rank num_procs NUM_BYTES
                      Bcast.asynchronous_pipelined_bintree_bcast 0 = None).
Proof.
  apply (zero_chunk_size_never_ends NUM_BYTES "bcast" "pipelined_ring_bcast"
                                    Bcast.pipelined_ring_bcast);
    [unfold NUM_BYTES; lia|reflexivity].
Defined.

End ZeroChunkSize.

(** X13.  With a chunk size of at least the buffer size, in particular the
    default NUM_BYTES, the pipelined ring executes exactly the statements of
    the plain ring, on every rank. *)
Theorem pipelined_ring_with_one_chunk_is_ring rank num_procs total chunk_size :
  1 <= total <= chunk_size ->
  Bcast.bcast_ops rank num_procs total Bcast.pipelined_ring_bcast chunk_size =
  Some (Bcast.ring_ops rank num_procs total, total) /\
  Bcast.bcast_ops rank num_procs total Bcast.ring_bcast chunk_size =
  Some (Bcast.ring_ops rank num_procs total, chunk_size).
Proof.
  intros H. split; [|reflexivity].
  unfold Bcast.bcast_ops. rewrite ChunksFacts.chunk_plan_whole by exact H.
  simpl flat_map. rewrite app_nil_r.
  unfold Bcast.pipelined_ring_body, Bcast.ring_ops. reflexivity.
Qed.

Lemma pipelined_ring_with_one_chunk_is_ring_witness :
  Bcast.bcast_ops 1 3 NUM_BYTES Bcast.pipelined_ring_bcast NUM_BYTES =
  Some (Bcast.ring_ops 1 3 NUM_BYTES, NUM_BYTES) /\
  Bcast.bcast_ops 1 3 NUM_BYTES Bcast.ring_bcast NUM_BYTES =
  Some (Bcast.ring_ops 1 3 NUM_BYTES, NUM_BYTES).
Proof.
  apply (pipelined_ring_with_one_chunk_is_ring 1 3 NUM_BYTES NUM_BYTES).
  unfold NUM_BYTES. lia.
Defined.

(** X14.  In every implementation, for any two ranks of the group, what
    one sends to the other is what the other receives from it: the same
    chunks, in the same order.  No send inside the group is left without
    its receive, and no receive without its send. *)
Theorem sends_match_receives name num_procs total chunk_size s d ls fs ld fd :
  0 <= s < num_procs -> 0 <= d < num_procs ->
  Bcast.bcast_ops s num_procs total name chunk_size = Some (ls, fs) ->
  Bcast.bcast_ops d num_procs total name chunk_size = Some (ld, fd) ->
  Bcast.sends_to d ls = Bcast.recvs_from s ld.
Proof.
  intros Hs Hd Hls Hld.
  destruct (BcastFacts.bcast_ops_payload _ _ _ _ _ _ _ Hls) as [pl Hpl].
  rewrite (BcastFacts.sends_to_bcast_ops _ _ _ _ _ _ _ _ d Hls Hpl).
  rewrite (BcastFacts.recvs_from_bcast_ops _ _ _ _ _ _ _ _ s Hld Hpl).
  rewrite (BcastFacts.links_agree name s num_procs d Hs Hd). reflexivity.
Qed.

Lemma sends_match_receives_witness :
  Bcast.sends_to 4 (example_progs Bcast.asynchronous_pipelined_bintree_bcast 6 1)
  = Bcast.recvs_from 1 (example_progs Bcast.asynchronous_pipelined_bintree_bcast 6 4).
Proof.
  apply (sends_match_receives Bcast.asynchronous_pipelined_bintree_bcast
                              6 16 5 1 4 _ 1 _ 1); try lia; reflexivity.
Defined.



(** X16.  At every point of every run of the broadcast phase, each message
    in flight goes from a rank of the group to a rank of the group and
    carries the root's bytes for a chunk that its addressee has yet to
    receive from that sender: a rank never forwards bytes it has not
    received. *)
Theorem messages_in_flight_carry_root_data
        name num_procs data garbage junk chunk_size progs sched w m :
  Bcast.programs name num_procs (Bcast.total_of data) chunk_size = Some progs ->
  (forall r, length (garbage r) = length data) ->
  Bcast.run num_procs sched (Bcast.start progs data garbage junk) = Some w ->
  In m (Bcast.net w) ->
  Bcast.in_flight_ok num_procs m /\
  exists off count,
    Bcast.m_data m = Bcast.slice off count data /\
    In (Bcast.Recv off count (Bcast.m_src m))
       (Bcast.ops (Bcast.procs w (Bcast.m_dst m))).
Proof.
  intros Hp Hg Hrun Hm.
  assert (Hok : Bcast.in_flight_ok num_procs m).
  { pose proof (BcastFacts.run_in_flight num_procs sched _ _ Hrun
                                         (Forall_nil _)) as H.
    rewrite Forall_forall in H. apply H. exact Hm. }
  split; [exact Hok|].
  apply (BcastFacts.inv_in_flight num_procs data w m); auto.
  eapply BcastFacts.run_inv; [|exact Hrun].
  eapply BcastFacts.start_inv; eauto.
Qed.

Lemma messages_in_flight_carry_root_data_witness :
  exists w m,
    Bcast.run 3 [0; 0; 1; 1]
              (Bcast.start (example_progs Bcast.pipelined_ring_bcast 3)
                           example_data example_garbage Bcast.ReqNull) = Some w /\
    In m (Bcast.net w) /\
    Bcast.in_flight_ok 3 m /\
    exists off count,
      Bcast.m_data m = Bcast.slice off count example_data /\
      In (Bcast.Recv off count (Bcast.m_src m))
         (Bcast.ops (Bcast.procs w (Bcast.m_dst m))).
Proof.
  destruct (Bcast.run 3 [0; 0; 1; 1]
              (Bcast.start (example_progs Bcast.pipelined_ring_bcast 3)
                           example_data example_garbage Bcast.ReqNull))
    as [w|] eqn:Hrun; [|vm_compute in Hrun; discriminate Hrun].
  destruct (Bcast.net w) as [|m rest] eqn:Hnet.
  - exfalso. vm_compute in Hrun. injection Hrun as <-. discriminate Hnet.
  - exists w, m. split; [reflexivity|].
    assert (Hm : In m (Bcast.net w)) by (rewrite Hnet; left; reflexivity).
    split; [exact Hm|].
    apply (messages_in_flight_carry_root_data
             Bcast.pipelined_ring_bcast 3 example_data example_garbage
             Bcast.ReqNull 5 (example_progs Bcast.pipelined_ring_bcast 3)
             [0; 0; 1; 1] w m); auto.
Defined.

(** X17.  No schedule gets the broadcast phase stuck: when the
    implementation is defined for the group size and the request variables
    start as MPI_REQUEST_NULL, every run, however far it has got, has
    executed one statement per step and can be continued until every rank
    has finished. *)
Theorem no_run_gets_stuck
        name num_procs data garbage chunk_size progs sched w :
  1 <= num_procs ->
  Bcast.programs name num_procs (Bcast.total_of data) chunk_size = Some progs ->
  (forall r, length (garbage r) = length data) ->
  Bcast.defined_for name num_procs = true ->
  Bcast.run num_procs sched (Bcast.start progs data garbage Bcast.ReqNull)
  = Some w ->
  (length sched + Bcast.remaining num_procs w =
   Bcast.remaining num_procs (Bcast.start progs data garbage Bcast.ReqNull))%nat /\
  exists sched' w',
    Bcast.run num_procs (sched ++ sched')
              (Bcast.start progs data garbage Bcast.ReqNull) = Some w' /\
    Bcast.all_done num_procs w' = true.
Proof.
  intros Hn Hp Hg Hdef Hrun.
  split; [symmetry; apply BcastFacts.run_remaining; exact Hrun|].
  assert (Hinv : Bcast.inv num_procs data w).
  { eapply BcastFacts.run_inv; [|exact Hrun]. eapply BcastFacts.start_inv; eauto. }
  assert (Hready : Bcast.ready num_procs w).
  { eapply BcastFacts.run_ready; [|exact Hrun].
    eapply BcastFacts.start_ready; eauto. unfold Bcast.total_of. lia. }
  destruct (BcastFacts.completes_from num_procs data ltac:(lia) _ w eq_refl
                                      Hinv Hready) as (sched' & w' & Hrun' & Hdone).
  exists sched', w'. rewrite BcastFacts.run_app, Hrun. split; assumption.
Qed.

Lemma no_run_gets_stuck_witness :
  exists w sched' w',
    Bcast.run 4 [0; 1; 0; 2]
              (Bcast.start
                 (example_progs Bcast.asynchronous_pipelined_bintree_bcast 4)
                 example_data example_garbage Bcast.ReqNull) = Some w /\
    Bcast.run 4 ([0; 1; 0; 2] ++ sched')
              (Bcast.start
                 (example_progs Bcast.asynchronous_pipelined_bintree_bcast 4)
                 example_data example_garbage Bcast.ReqNull) = Some w' /\
    Bcast.all_done 4 w' = true.
Proof.
  destruct (Bcast.run 4 [0; 1; 0; 2]
              (Bcast.start
                 (example_progs Bcast.asynchronous_pipelined_bintree_bcast 4)
                 example_data example_garbage Bcast.ReqNull))
    as [w|] eqn:Hrun; [|vm_compute in Hrun; discriminate Hrun].
  destruct (no_run_gets_stuck
              Bcast.asynchronous_pipelined_bintree_bcast 4 example_data
              example_garbage 5
              (example_progs Bcast.asynchronous_pipelined_bintree_bcast 4)
              [0; 1; 0; 2] w) as (_ & sched' & w' & Hrun' & Hdone);
    try reflexivity; try lia; [exact Hrun|].
  exists w, sched', w'. split; [reflexivity|]. split; assumption.
Defined.

(** X18.  In the tree, following [(rank-1)/2] from any rank reaches rank 0,
    and the number of ranks passed, [h], satisfies [2^h <= rank + 1]: a
    chunk reaches a rank after at most the binary logarithm of [rank + 1]
    sends. *)
Theorem tree_depth_is_logarithmic rank :
  0 <= rank ->
  exists h, Tree.hops (Z.to_nat rank) rank = Some h /\
            2 ^ Z.of_nat h <= rank + 1.
Proof.
  intros Hr. apply TreeFacts.hops_log. lia.
Qed.

Lemma tree_depth_is_logarithmic_witness :
  exists h, Tree.hops (Z.to_nat 63) 63 = Some h /\ 2 ^ Z.of_nat h <= 63 + 1.
Proof.
  apply (tree_depth_is_logarithmic 63). lia.
Defined.

(** ** The Julia set image (1D_parallel_julia.c) *)

(** X19.  The rows the ranks compute are the rows of the image: a row
    number lies in [0, height) exactly when some rank of the group has it
    between its [start] and its [stop]. *)
Theorem julia_rows_cover_the_image (height num_procs y : Z) :
  1 <= num_procs -> 0 <= height -> num_procs * height <= INT_MAX ->
  (0 <= y < height <->
   exists myrank,
     0 <= myrank < num_procs /\ In y (Julia.rows_of height num_procs myrank)).
Proof.
  intros Hn Hh Hfit. split.
  - apply JuliaFacts.rows_cover; assumption.
  - intros (r & Hr & Hy). eapply JuliaFacts.rows_in_image; eassumption.
Qed.

Lemma julia_rows_cover_the_image_witness :
  exists myrank, 0 <= myrank < 3 /\ In 4 (Julia.rows_of 5 3 myrank).
Proof.
  apply (julia_rows_cover_the_image 5 3 4); unfold INT_MAX; lia.
Defined.

(** X20.  For an image whose size fits an [int], no call of
    [compute_julia_pixel] made by [main] fails its coordinate check or
    stores outside the array: for every rank, every row [y] of its band and
    every column [x], the call returns 0, the index of the pixel lies inside
    the array that [calloc] returned, and line 182 reads back the three
    colour bytes that the call stored. *)
Theorem julia_pixel_calls_succeed
    (colour : Z -> Z -> Z -> Z -> Z * Z * Z)
    (height num_procs myrank y x : Z) (rgb : list Z) :
  1 <= num_procs -> 0 <= height -> num_procs * height <= INT_MAX ->
  54 + (2 * height + 3) * height * 3 <= INT_MAX ->
  0 <= myrank < num_procs ->
  In y (Bcast.zrange 0 (Julia.stop height num_procs myrank
                        - Julia.start height num_procs myrank + 1)) ->
  In x (Bcast.zrange 0 (Julia.width height)) ->
  Julia.compute_julia_pixel colour x (Julia.start height num_procs myrank + y)
                            (Julia.width height) height rgb
  = (0, Julia.stored_rgb colour x (Julia.start height num_procs myrank + y)
                         (Julia.width height) height) /\
  Julia.in_array (Julia.pixel_index height y x)
                 (Julia.calloc (Julia.pixels_size height num_procs myrank))
  = true /\
  Julia.read3 (Julia.pixel_index height y x)
              (Julia.compute_pixels colour height num_procs myrank)
  = Julia.stored_rgb colour x (Julia.start height num_procs myrank + y)
                     (Julia.width height) height.
Proof.
  intros Hn Hh Hfit Hsize Hr Hy Hx.
  assert (Hs : height * 2 * height * 3 <= INT_MAX)
    by (unfold INT_MAX in *; nia).
  apply BcastFacts.in_zrange in Hy. apply BcastFacts.in_zrange in Hx.
  split; [|split].
  - apply JuliaFacts.call_succeeds; assumption.
  - destruct (JuliaFacts.pixel_index_fits height num_procs Hn Hh Hfit Hs
                myrank y x Hr Hy Hx) as (_ & H0 & H1).
    unfold Julia.in_array, Julia.calloc. rewrite repeat_length.
    apply andb_true_iff. split; apply Z.leb_le; lia.
  - apply JuliaFacts.read_back; assumption.
Qed.

Lemma julia_pixel_calls_succeed_witness :
  Julia.compute_julia_pixel (fun x y _ _ => (x, y, 100)) 9
    (Julia.start 5 3 1 + 1) (Julia.width 5) 5 [0; 0; 0]
  = (0, Julia.stored_rgb (fun x y _ _ => (x, y, 100)) 9
                         (Julia.start 5 3 1 + 1) (Julia.width 5) 5) /\
  Julia.in_array (Julia.pixel_index 5 1 9)
                 (Julia.calloc (Julia.pixels_size 5 3 1)) = true /\
  Julia.read3 (Julia.pixel_index 5 1 9)
              (Julia.compute_pixels (fun x y _ _ => (x, y, 100)) 5 3 1)
  = Julia.stored_rgb (fun x y _ _ => (x, y, 100)) 9
                     (Julia.start 5 3 1 + 1) (Julia.width 5) 5.
Proof.
  apply (julia_pixel_calls_succeed (fun x y _ _ => (x, y, 100)) 5 3 1 1 9);
    try (unfold INT_MAX; lia); vm_compute; tauto.
Defined.

(** X21.  Together the ranks visit [height + height % num_procs] rows.
    Their bands, taken in rank order, are the rows 0, 1, .., height-1
    exactly when [num_procs] divides [height], and exactly then no row is
    visited twice. *)
Theorem julia_rows_written (height num_procs : Z) :
  1 <= num_procs -> 0 <= height -> num_procs * height <= INT_MAX ->
  Z.of_nat (length (flat_map (Julia.rows_of height num_procs)
                             (Bcast.zrange 0 num_procs)))
  = height + Julia.remainder height num_procs /\
  (flat_map (Julia.rows_of height num_procs) (Bcast.zrange 0 num_procs)
   = Bcast.zrange 0 height
   <-> Julia.remainder height num_procs = 0) /\
  (NoDup (flat_map (Julia.rows_of height num_procs) (Bcast.zrange 0 num_procs))
   <-> Julia.remainder height num_procs = 0).
Proof.
  intros Hn Hh Hfit.
  pose proof (JuliaFacts.rows_total height num_procs Hn Hh Hfit) as Htot.
  pose proof (JuliaFacts.remainder_bound height num_procs Hn) as Hb.
  assert (Hex : Julia.remainder height num_procs = 0 ->
                flat_map (Julia.rows_of height num_procs)
                         (Bcast.zrange 0 num_procs)
                = Bcast.zrange 0 height).
  { intros Hrem.
    pose proof (JuliaFacts.rows_exact height num_procs Hn Hh Hfit
                  (Z.to_nat num_procs) Hrem) as H.
    rewrite Z2Nat.id in H by lia.
    rewrite H by lia. rewrite JuliaFacts.share_top by lia. reflexivity. }
  split; [exact Htot|]. split; split.
  - intros Heq. rewrite Heq, JuliaFacts.length_zrange in Htot. lia.
  - exact Hex.
  - intros Hnd.
    assert (Hincl : incl (flat_map (Julia.rows_of height num_procs)
                                   (Bcast.zrange 0 num_procs))
                         (Bcast.zrange 0 height)).
    { intros y Hy. apply in_flat_map in Hy. destruct Hy as (r & Hr & Hy).
      apply BcastFacts.in_zrange in Hr. apply BcastFacts.in_zrange.
      apply (JuliaFacts.rows_in_image height num_procs Hn Hh Hfit r y);
        [lia|exact Hy]. }
    pose proof (NoDup_incl_length Hnd Hincl) as Hle.
    pose proof (JuliaFacts.length_zrange 0 height). lia.
  - intros Hrem. rewrite (Hex Hrem). apply BcastFacts.zrange_NoDup.
Qed.

Lemma julia_rows_written_witness :
  Z.of_nat (length (flat_map (Julia.rows_of 5 3) (Bcast.zrange 0 3)))
  = 5 + Julia.remainder 5 3 /\
  (flat_map (Julia.rows_of 5 3) (Bcast.zrange 0 3) = Bcast.zrange 0 5
   <-> Julia.remainder 5 3 = 0) /\
  (NoDup (flat_map (Julia.rows_of 5 3) (Bcast.zrange 0 3))
   <-> Julia.remainder 5 3 = 0).
Proof.
  apply (julia_rows_written 5 3); unfold INT_MAX; lia.
Defined.

(** X22.  For an image whose size fits an [int] (and when every write
    succeeds), the file is the header followed, for each rank in turn and
    each row of its band, by the pixels of the row: the three colour bytes
    that [compute_julia_pixel] stored, then the padding.  When [num_procs]
    divides [height] these rows are the rows 0 to height-1 in order: the file
    is the one a single loop over all rows would write. *)
Theorem julia_file_is_the_image
    (colour : Z -> Z -> Z -> Z -> Z * Z * Z) (height num_procs : Z) :
  1 <= num_procs -> 0 <= height -> num_procs * height <= INT_MAX ->
  54 + (2 * height + 3) * height * 3 <= INT_MAX ->
  Julia.julia_bmp colour height num_procs
  = Julia.header_bytes (Julia.width height) height
    ++ flat_map
         (fun y => flat_map
                     (fun x => Julia.stored_rgb colour x y (Julia.width height)
                                                height
                               ++ Julia.padding height)
                     (Bcast.zrange 0 (Julia.width height)))
         (flat_map (Julia.rows_of height num_procs)
                   (Bcast.zrange 0 num_procs)) /\
  (Julia.remainder height num_procs = 0 ->
   Julia.julia_bmp colour height num_procs
   = Julia.header_bytes (Julia.width height) height
     ++ flat_map
          (fun y => flat_map
                      (fun x => Julia.stored_rgb colour x y (Julia.width height)
                                                 height
                                ++ Julia.padding height)
                      (Bcast.zrange 0 (Julia.width height)))
          (Bcast.zrange 0 height)).
Proof.
  intros Hn Hh Hfit Hsize.
  assert (Hs : height * 2 * height * 3 <= INT_MAX)
    by (unfold INT_MAX in *; nia).
  pose proof (JuliaFacts.julia_bmp_rows colour height num_procs
                Hn Hh Hfit Hs) as Hrows.
  split; [exact Hrows|].
  intros Hrem. rewrite Hrows.
  pose proof (JuliaFacts.rows_exact height num_procs Hn Hh Hfit
                (Z.to_nat num_procs) Hrem) as H.
  rewrite Z2Nat.id in H by lia.
  rewrite H by lia. rewrite JuliaFacts.share_top by lia. reflexivity.
Qed.

Lemma julia_file_is_the_image_witness :
  Julia.julia_bmp (fun x y _ _ => (x, y, 100)) 4 2
  = Julia.header_bytes (Julia.width 4) 4
    ++ flat_map
         (fun y => flat_map
                     (fun x => Julia.stored_rgb (fun x y _ _ => (x, y, 100))
                                                x y (Julia.width 4) 4
                               ++ Julia.padding 4)
                     (Bcast.zrange 0 (Julia.width 4)))
         (Bcast.zrange 0 4).
Proof.
  apply (julia_file_is_the_image (fun x y _ _ => (x, y, 100)) 4 2);
    try (unfold INT_MAX; lia); reflexivity.
Defined.

(** X23.  The file has 54 header bytes and, for each of the
    [height + height % num_procs] rows written, [2 * height] pixels of three
    bytes, each followed by two padding bytes when [height] is odd.  Its
    length is the file size stored in the header exactly when [num_procs]
    divides [height] and [height] is even. *)
Theorem julia_file_length
    (colour : Z -> Z -> Z -> Z -> Z * Z * Z) (height num_procs : Z) :
  1 <= num_procs -> 0 <= height -> num_procs * height <= INT_MAX ->
  54 + (2 * height + 3) * height * 3 <= INT_MAX ->
  Z.of_nat (length (Julia.julia_bmp colour height num_procs))
  = 54 + (height + Julia.remainder height num_procs)
         * (2 * height * (3 + 2 * (height mod 2))) /\
  (Z.of_nat (length (Julia.julia_bmp colour height num_procs))
   = Julia.filesize (Julia.width height) height
   <-> Julia.remainder height num_procs = 0 /\ height mod 2 = 0).
Proof.
  intros Hn Hh Hfit Hsize.
  assert (H6 : height * 6 <= INT_MAX) by (unfold INT_MAX in *; nia).
  assert (H2 : height * 2 + 3 <= INT_MAX) by (unfold INT_MAX in *; nia).
  pose proof (JuliaFacts.remainder_bound height num_procs Hn) as Hb.
  assert (Hle : Julia.remainder height num_procs <= height).
  { rewrite JuliaFacts.remainder_mod by assumption. apply Z.mod_le; lia. }
  assert (Hlen : Z.of_nat (length (Julia.julia_bmp colour height num_procs))
                 = 54 + (height + Julia.remainder height num_procs)
                        * (2 * height * (3 + 2 * (height mod 2)))).
  { assert (Hs : height * 2 * height * 3 <= INT_MAX)
      by (unfold INT_MAX in *; nia).
    rewrite (JuliaFacts.julia_bmp_rows colour height num_procs Hn Hh Hfit Hs).
    rewrite length_app, JuliaFacts.length_header.
    rewrite (JuliaFacts.length_flat_map_const _
               (Z.to_nat (Julia.width height)
                * (3 + length (Julia.padding height)))%nat)
      by (intros; apply JuliaFacts.length_image_row).
    rewrite Nat2Z.inj_add, !Nat2Z.inj_mul, Nat2Z.inj_add.
    rewrite JuliaFacts.rows_total by assumption.
    rewrite JuliaFacts.padding_parity by assumption.
    rewrite JuliaFacts.width_small by (unfold INT_MAX in *; lia).
    rewrite Z2Nat.id by lia. simpl Z.of_nat. ring. }
  split; [exact Hlen|]. rewrite Hlen.
  rewrite JuliaFacts.width_small by (unfold INT_MAX in *; lia).
  rewrite JuliaFacts.filesize_small
    by (try lia; unfold INT_MAX in *; nia).
  rewrite JuliaFacts.adjusted_width_small by lia.
  rewrite JuliaFacts.double_mod4 by lia.
  pose proof (Z.mod_pos_bound height 2 ltac:(lia)) as Hm.
  pose proof (Z.div_mod height 2 ltac:(lia)) as Hd.
  destruct (Z.eq_dec (height mod 2) 0) as [He|Ho].
  - rewrite He. simpl (2 * 0 =? 0). cbv iota. split.
    + intros Heq. split; [nia|reflexivity].
    + intros [Hr _]. rewrite Hr. ring.
  - assert (Hone : height mod 2 = 1) by lia. rewrite Hone.
    simpl (2 * 1 =? 0). cbv iota. split.
    + intros Heq. exfalso.
      destruct (Z.eq_dec height 1) as [->|]; [nia|].
      assert (2 <= height) by lia. nia.
    + intros [_ Hc]. discriminate Hc.
Qed.

Lemma julia_file_length_witness :
  Z.of_nat (length (Julia.julia_bmp (fun x y _ _ => (x, y, 100)) 5 3))
  = 54 + (5 + Julia.remainder 5 3) * (2 * 5 * (3 + 2 * (5 mod 2))) /\
  (Z.of_nat (length (Julia.julia_bmp (fun x y _ _ => (x, y, 100)) 5 3))
   = Julia.filesize (Julia.width 5) 5
   <-> Julia.remainder 5 3 = 0 /\ 5 mod 2 = 0).
Proof.
  apply (julia_file_length (fun x y _ _ => (x, y, 100)) 5 3);
    unfold INT_MAX; lia.
Defined.

(** X24.  [write_bmp_header] returns 0 exactly when each of its fifteen
    [fwrite] calls wrote all the objects it was given, 54 bytes in all, and
    returns 1, not -1, when any call wrote fewer. *)
Theorem bmp_header_status (width height : Z) (returned : list Z) :
  Forall2 (fun r asked => 0 <= r <= asked) returned
          (map fst (Julia.header_objects width height)) ->
  (Julia.write_bmp_header returned = 0 <->
   returned = map fst (Julia.header_objects width height)) /\
  (returned <> map fst (Julia.header_objects width height) ->
   Julia.write_bmp_header returned = 1) /\
  length (Julia.header_bytes width height) = 54%nat.
Proof.
  intros Hall.
  destruct (JuliaFacts.full_total _ _ Hall) as [_ Heq].
  assert (Hiff : Julia.write_bmp_header returned = 0 <->
                 returned = map fst (Julia.header_objects width height)).
  { unfold Julia.write_bmp_header.
    rewrite JuliaFacts.fold_left_add, Z.add_0_l. split.
    - intros H. apply Heq.
      destruct (Z.eqb_spec (fold_right Z.add 0 returned) 17) as [E|];
        [exact E|discriminate H].
    - intros ->. reflexivity. }
  split; [exact Hiff|]. split; [|reflexivity].
  intros Hne. unfold Julia.write_bmp_header in *.
  destruct (fold_left Z.add returned 0 =? 17); [|reflexivity].
  exfalso. apply Hne, Hiff. reflexivity.
Qed.

Lemma bmp_header_status_witness :
  (Julia.write_bmp_header [2; 1; 2; 1; 1; 1; 1; 1; 1; 1; 1; 0; 0; 0; 0] = 0 <->
   [2; 1; 2; 1; 1; 1; 1; 1; 1; 1; 1; 0; 0; 0; 0]
   = map fst (Julia.header_objects 10 5)) /\
  ([2; 1; 2; 1; 1; 1; 1; 1; 1; 1; 1; 0; 0; 0; 0]
   <> map fst (Julia.header_objects 10 5) ->
   Julia.write_bmp_header [2; 1; 2; 1; 1; 1; 1; 1; 1; 1; 1; 0; 0; 0; 0] = 1) /\
  length (Julia.header_bytes 10 5) = 54%nat.
Proof.
  apply (bmp_header_status 10 5).
  unfold Julia.header_objects. cbn [map fst].
  repeat (constructor; [lia|]). constructor.
Defined.
